(** * A shallow embedding of the spreadsheet formula evaluator (formula.js)

    The development follows the source file top to bottom: the coercion
    helpers, the reference codec ([colToNum], [numToCol], [normalizeRef],
    [splitRef], [expandRange]), the tokenizer, the recursive-descent parser
    and the [SheetEvaluator] class, followed by the theorems.

    Modelling conventions.
    - JavaScript strings are modelled by [string]; the model covers text
      made of ASCII code units, for which [toUpperCase], [trim] and the
      regular-expression classes [\s], [\d], [[A-Z]] are the functions below.
    - The numbers of the reference codec (column indices, row numbers) are
      doubles that hold an integer. Each is modelled by the integer it
      holds, in [Z], and [Infinity] by [2^1024]. An operation of the source
      on them is the exact operation followed by the rounding of IEEE-754
      ([Num.roundZ], [Num.floorDiv]), and they are printed as
      [Number::toString] prints them ([Num.toStringInt]). Up to [2^53]
      nothing is rounded.
    - The numbers handled by the evaluator are IEEE-754 binary64 values,
      modelled by [spec_float] with precision 53 and maximal exponent 1024.
    - An exception is an explicit result [Throw msg], where [msg] is the
      message of the error.
    - A loop of the source that never ends is the result [Fuel] of its
      model, whatever bound the model is given.
    - An object used as a table is a finite map. [sheetModel.cells] is read
      with [cells[key]], which also finds the names every object inherits
      ([inheritedNames]); [overrides] is read behind [hasOwnProperty].
    - Resources are not bounded: the model has no limit on the depth of
      calls, on the length of a text or of an array, or on memory. *)

From Stdlib Require Import ZArith String Ascii List Bool Lia.
From Stdlib Require Import SpecFloat DecimalString DecimalPos.
From stdpp Require Import gmap strings.

Import ListNotations.
Set Warnings "-register-all".
Local Open Scope string_scope.
Local Open Scope list_scope.
Local Open Scope Z_scope.

(** ** Results of fallible code *)

(** [Ok a] is a normal return, [Throw msg] an exception carrying its
    message. [Fuel] is what a fuel-bounded loop or recursion of the model
    answers when its bound is reached. The bounds of the tokenizer, of the
    parser and of [evalCell] are never reached; the bounds of the loops of
    [expandRange] are reached only when no bound is enough, that is, when
    the loop of the source never ends. *)
Inductive result (A : Type) : Type :=
| Ok (a : A)
| Throw (msg : string)
| Fuel.
Arguments Ok {A} a.
Arguments Throw {A} msg.
Arguments Fuel {A}.

Definition rbind {A B} (r : result A) (k : A -> result B) : result B :=
  match r with
  | Ok a => k a
  | Throw msg => Throw msg
  | Fuel => Fuel
  end.

Notation "x <-r e ;; k" := (rbind e (fun x => k))
  (at level 100, e at next level, right associativity).

(** ** Characters and strings *)

Module Char.

Definition charCode (c : ascii) : Z := Z.of_N (N_of_ascii c).

Definition fromCharCode (z : Z) : ascii := ascii_of_N (Z.to_N z).

(** [/[A-Z]/] *)
Definition isUpper (c : ascii) : bool :=
  (65 <=? charCode c) && (charCode c <=? 90).

(** [/[a-z]/] *)
Definition isLower (c : ascii) : bool :=
  (97 <=? charCode c) && (charCode c <=? 122).

(** [/\d/] *)
Definition isDigit (c : ascii) : bool :=
  (48 <=? charCode c) && (charCode c <=? 57).

(** [/\s/] on ASCII: tab, line feed, vertical tab, form feed, carriage
    return and space. *)
Definition isSpace (c : ascii) : bool :=
  ((9 <=? charCode c) && (charCode c <=? 13)) || (charCode c =? 32).

(** A code unit below 128. *)
Definition isAscii (c : ascii) : bool := charCode c <? 128.

(** [toUpperCase] on one ASCII character. *)
Definition toUpper (c : ascii) : ascii :=
  if isLower c then fromCharCode (charCode c - 32) else c.

Definition eqb (a b : ascii) : bool := Ascii.eqb a b.

End Char.

Module Str.

Fixpoint map (f : ascii -> ascii) (s : string) : string :=
  match s with
  | EmptyString => EmptyString
  | String c r => String (f c) (map f r)
  end.

Fixpoint filter (p : ascii -> bool) (s : string) : string :=
  match s with
  | EmptyString => EmptyString
  | String c r => if p c then String c (filter p r) else filter p r
  end.

Fixpoint forallb (p : ascii -> bool) (s : string) : bool :=
  match s with
  | EmptyString => true
  | String c r => p c && forallb p r
  end.

(** The longest prefix whose characters satisfy [p], and the rest. *)
Fixpoint span (p : ascii -> bool) (s : string) : string * string :=
  match s with
  | EmptyString => (EmptyString, EmptyString)
  | String c r =>
      if p c then let '(a, b) := span p r in (String c a, b)
      else (EmptyString, s)
  end.

Definition isEmpty (s : string) : bool :=
  match s with EmptyString => true | _ => false end.

Definition toUpperCase (s : string) : string := map Char.toUpper s.

(** [s.split(sep)] for a one-character separator. *)
Fixpoint split (sep : ascii) (s : string) : list string :=
  match s with
  | EmptyString => [EmptyString]
  | String c r =>
      if Char.eqb c sep then EmptyString :: split sep r
      else match split sep r with
           | x :: xs => String c x :: xs
           | [] => [String c EmptyString]
           end
  end.

(** [s.slice(0, 2)] and [s.slice(2)] *)
Definition slice2 (s : string) : string :=
  match s with
  | String a (String b _) => String a (String b EmptyString)
  | _ => s
  end.

Definition drop2 (s : string) : string :=
  match s with
  | String _ (String _ r) => r
  | _ => EmptyString
  end.

(** [s.trim()] *)
Definition trim_left (s : string) : string := snd (span Char.isSpace s).

Definition trim (s : string) : string :=
  String.rev (trim_left (String.rev (trim_left s))).

(** [count c s] is the number of occurrences of [c] in [s]. *)
Fixpoint count (c : ascii) (s : string) : nat :=
  match s with
  | EmptyString => O
  | String d r => (if Char.eqb d c then 1 else 0)%nat + count c r
  end.

End Str.

(** Decimal numerals of integers, as [String(n)] and template literals
    print them. *)
Definition Z_toString (n : Z) : string :=
  NilZero.string_of_int (Z.to_int n).

(** The integer a decimal numeral denotes. *)
Fixpoint digitsToZ_from (n : Z) (ds : string) : Z :=
  match ds with
  | EmptyString => n
  | String d r => digitsToZ_from (n * 10 + (Char.charCode d - 48)) r
  end.

Definition digitsToZ (ds : string) : Z := digitsToZ_from 0 ds.

(** ** Numbers: IEEE-754 binary64 *)

Module Num.

Definition prec : Z := 53.
Definition emax : Z := 1024.

Definition zero : spec_float := S754_zero false.
Definition nan : spec_float := S754_nan.
Definition infinity (neg : bool) : spec_float := S754_infinity neg.

Definition add := SFadd prec emax.
Definition sub := SFsub prec emax.
Definition mul := SFmul prec emax.
Definition div := SFdiv prec emax.
Definition neg := SFopp.
Definition eqb := SFeqb.
Definition ltb := SFltb.
Definition leb := SFleb.

Definition isNaN (x : spec_float) : bool :=
  match x with S754_nan => true | _ => false end.

Definition isFinite (x : spec_float) : bool :=
  match x with S754_nan | S754_infinity _ => false | _ => true end.

(** The double nearest to an integer (ties to even). *)
Definition ofZ (z : Z) : spec_float := binary_normalize prec emax z 0 false.

(** The double nearest to [m * 10^e], negated when [sgn] is set, for
    [0 <= m] (ties to even). *)
Definition ofDecimal (sgn : bool) (m e : Z) : spec_float :=
  if m =? 0 then S754_zero sgn
  else if 0 <=? e then binary_normalize prec emax (cond_Zopp sgn (m * 10 ^ e)) 0 sgn
  else
    let '(q, e', l) := SFdiv_core_binary prec emax m 0 (10 ^ (- e)) 0 in
    binary_round_aux prec emax sgn q e' l.

(** *** [Number(string)]: the StringToNumber grammar on ASCII text *)

Definition hexDigit (c : ascii) : option Z :=
  let n := Char.charCode c in
  if (48 <=? n) && (n <=? 57) then Some (n - 48)
  else if (65 <=? n) && (n <=? 70) then Some (n - 55)
  else if (97 <=? n) && (n <=? 102) then Some (n - 87)
  else None.

(** Digits in base [b], most significant first; [None] on a digit out of
    the base. *)
Fixpoint digitsIn (b : Z) (acc : Z) (s : string) : option Z :=
  match s with
  | EmptyString => Some acc
  | String c r =>
      match hexDigit c with
      | Some d => if d <? b then digitsIn b (acc * b + d) r else None
      | None => None
      end
  end.

Definition nonDecimal (s : string) : option Z :=
  match s with
  | String "0" (String p (String c r)) =>
      let body := String c r in
      if Char.eqb p "x" || Char.eqb p "X" then digitsIn 16 0 body
      else if Char.eqb p "o" || Char.eqb p "O" then digitsIn 8 0 body
      else if Char.eqb p "b" || Char.eqb p "B" then digitsIn 2 0 body
      else None
  | _ => None
  end.

(** An optional sign: [(negative, rest)]. *)
Definition sign (s : string) : bool * string :=
  match s with
  | String "-" r => (true, r)
  | String "+" r => (false, r)
  | _ => (false, s)
  end.

(** The ExponentPart, which may be absent: the exponent, or [None] when
    the text is not an exponent part. *)
Definition exponentPart (s : string) : option Z :=
  match s with
  | EmptyString => Some 0
  | String c r =>
      if Char.eqb c "e" || Char.eqb c "E" then
        let '(sg, ds) := sign r in
        if Str.isEmpty ds || negb (Str.forallb Char.isDigit ds) then None
        else Some (cond_Zopp sg (digitsToZ ds))
      else None
  end.

Definition strDecimal (s : string) : spec_float :=
  let '(sg, body) := sign s in
  if String.eqb body "Infinity" then infinity sg
  else
    let '(ip, r1) := Str.span Char.isDigit body in
    let '(fp, r2) :=
      match r1 with
      | String "." r => Str.span Char.isDigit r
      | _ => (EmptyString, r1)
      end in
    if Str.isEmpty ip && Str.isEmpty fp then nan
    else
      match exponentPart r2 with
      | None => nan
      | Some ex =>
          let m := digitsToZ (ip +:+ fp) in
          let e := ex - Z.of_nat (String.length fp) in
          let len := Z.of_nat (String.length (ip +:+ fp)) in
          if m =? 0 then S754_zero sg
          else if 310 <? e then infinity sg
          else if e + len <? -330 then S754_zero sg
          else ofDecimal sg m e
      end.

Definition ofString (s : string) : spec_float :=
  let t := Str.trim s in
  if Str.isEmpty t then zero
  else match nonDecimal t with
       | Some z => ofZ z
       | None => strDecimal t
       end.

(** *** [String(number)]: the shortest decimal that reads back *)

(** [decimalExponent num den] is the [n] with
    [10^(n-1) <= num/den < 10^n], for a positive fraction; a double is
    above 10^-400. *)
Fixpoint scaleUp (fuel : nat) (num den : Z) (k : Z) : Z :=
  match fuel with
  | O => k
  | S fuel' => if den <=? num then k else scaleUp fuel' (num * 10) den (k + 1)
  end.

Definition decimalExponent (num den : Z) : Z :=
  if den <=? num
  then Z.of_nat (String.length (Z_toString (num / den)))
  else - scaleUp 400 (num * 10) den 0.

(** [num/den * 10^(-p)] as integer part and remainder over [d]. *)
Definition scaled (num den p : Z) : Z * Z * Z :=
  let n' := if p <? 0 then num * 10 ^ (- p) else num in
  let d' := if p <? 0 then den else den * 10 ^ p in
  (n' / d', n' mod d', d').

(** Same double, bit for bit (used on finite values only). *)
Definition identical (a b : spec_float) : bool :=
  match a, b with
  | S754_finite s1 m1 e1, S754_finite s2 m2 e2 =>
      Bool.eqb s1 s2 && (Z.pos m1 =? Z.pos m2) && (e1 =? e2)
  | _, _ => false
  end.

(** The [k]-digit decimal [s * 10^p] for [x = num/den], if one reads
    back as [x]; of two that do, the nearer one, the even one on a tie. *)
Definition candidate (x : spec_float) (num den n k : Z) : option (Z * Z) :=
  let p := n - k in
  let '(lo, rm, d) := scaled num den p in
  let hi := lo + 1 in
  let okLo := identical (ofDecimal false lo p) x in
  let okHi := identical (ofDecimal false hi p) x in
  let pickHi :=
    match 2 * rm ?= d with
    | Lt => false
    | Gt => true
    | Eq => Z.odd lo
    end in
  if okLo && okHi then Some (if pickHi then hi else lo, p)
  else if okLo then Some (lo, p)
  else if okHi then Some (hi, p)
  else None.

Fixpoint shortest (fuel : nat) (x : spec_float) (num den n k : Z) : Z * Z :=
  match fuel with
  | O => (fst (fst (scaled num den (n - k))), n - k)
  | S fuel' =>
      match candidate x num den n k with
      | Some r => r
      | None => shortest fuel' x num den n (k + 1)
      end
  end.

Fixpoint zeros (n : nat) : string :=
  match n with O => EmptyString | S n' => String "0" (zeros n') end.

Definition take (n : Z) (s : string) : string := String.substring 0 (Z.to_nat n) s.
Definition drop (n : Z) (s : string) : string :=
  String.substring (Z.to_nat n) (String.length s - Z.to_nat n) s.

(** The digits [ds] of [0.ds * 10^n], laid out as Number::toString does. *)
Definition formatDigits (ds : string) (n : Z) : string :=
  let k := Z.of_nat (String.length ds) in
  if (k <=? n) && (n <=? 21) then ds +:+ zeros (Z.to_nat (n - k))
  else if (0 <? n) && (n <=? 21) then take n ds +:+ "." +:+ drop n ds
  else if (-6 <? n) && (n <=? 0) then "0." +:+ zeros (Z.to_nat (- n)) +:+ ds
  else
    let e := n - 1 in
    let es := (if e <? 0 then "-" else "+") +:+ Z_toString (Z.abs e) in
    if k =? 1 then ds +:+ "e" +:+ es
    else take 1 ds +:+ "." +:+ drop 1 ds +:+ "e" +:+ es.

Definition stripTrailingZeros (ds : string) : string :=
  String.rev (snd (Str.span (fun c => Char.eqb c "0") (String.rev ds))).

Definition positiveToString (m : positive) (e : Z) : string :=
  let num := if 0 <=? e then Z.pos m * 2 ^ e else Z.pos m in
  let den := if 0 <=? e then 1 else 2 ^ (- e) in
  let n := decimalExponent num den in
  let '(s, p) := shortest 17 (S754_finite false m e) num den n 1 in
  let ds := Z_toString s in
  formatDigits (stripTrailingZeros ds) (p + Z.of_nat (String.length ds)).

Definition toString (x : spec_float) : string :=
  match x with
  | S754_nan => "NaN"
  | S754_zero _ => "0"
  | S754_infinity sg => if sg then "-Infinity" else "Infinity"
  | S754_finite sg m e =>
      (if sg then "-" else "") +:+ positiveToString m e
  end.

(** *** Numbers that hold an integer

    The reference codec counts columns and rows with numbers that hold
    integers. Such a number is modelled by the integer it holds, and
    [Infinity] by [2^1024], the first power of two above every double. An
    arithmetic operation on such numbers is the exact operation followed
    by the rounding of IEEE-754: to the nearest double, ties to the even
    significand. *)

(** Up to [2^53] every integer is a double. *)
Definition safe : Z := 2 ^ 53.

Definition infZ : Z := 2 ^ 1024.

(** [num / den] rounded to the nearest integer, ties to even, for
    [0 <= num] and [0 < den]. *)
Definition rne (num den : Z) : Z :=
  let q := num / den in
  match 2 * (num mod den) ?= den with
  | Lt => q
  | Gt => q + 1
  | Eq => if Z.even q then q else q + 1
  end.

(** The double nearest to [a], for [0 <= a]: 53 significant bits are
    kept, and what rounds up to [2^1024] is [Infinity]. *)
Definition roundAbs (a : Z) : Z :=
  let e := Z.max 0 (Z.log2 a - 52) in
  let t := rne a (2 ^ e) * 2 ^ e in
  if infZ <=? t then infZ else t.

Definition roundZ (z : Z) : Z := Z.sgn z * roundAbs (Z.abs z).

(** [Math.floor(m / d)] for [0 <= m] and [0 < d < 2^53]: the quotient is
    rounded to the nearest double, which has 53 significant bits, and then
    floored. *)
Definition floorDiv (m d : Z) : Z :=
  if infZ <=? m then infZ
  else if m <? d then 0
  else
    let sh := 52 - Z.log2 (m / d) in
    if 0 <=? sh then rne (m * 2 ^ sh) d / 2 ^ sh
    else rne m (d * 2 ^ (- sh)) * 2 ^ (- sh).

(** [String(z)] for a number that holds the integer [0 <= z]: the decimal
    [s * 10^p] with the fewest digits [s] that reads back as [z]; of two
    such, the nearer one, the even one on a tie. [n] is the number of
    digits of [z] and [k] that of [s]. *)
Definition candidateInt (z n k : Z) : option (Z * Z) :=
  let p := n - k in
  let d := 10 ^ p in
  let lo := z / d in
  let hi := lo + 1 in
  let okLo := roundZ (lo * d) =? z in
  let okHi := roundZ (hi * d) =? z in
  let pickHi :=
    match 2 * (z mod d) ?= d with
    | Lt => false
    | Gt => true
    | Eq => Z.odd lo
    end in
  if okLo && okHi then Some (if pickHi then hi else lo, p)
  else if okLo then Some (lo, p)
  else if okHi then Some (hi, p)
  else None.

Fixpoint shortestInt (fuel : nat) (z n k : Z) : Z * Z :=
  match fuel with
  | O => (z, 0)
  | S fuel' =>
      match candidateInt z n k with
      | Some r => r
      | None => shortestInt fuel' z n (k + 1)
      end
  end.

(** Below [10^21] the digits of [s] are followed by [p] zeros, which is
    the numeral of [s * 10^p]; from [10^21] on the exponent is written. *)
Definition toStringNat (z : Z) : string :=
  if infZ <=? z then "Infinity"
  else if z =? 0 then "0"
  else
    let n := String.length (Z_toString z) in
    let '(s, p) := shortestInt n z (Z.of_nat n) 1 in
    if z <? 10 ^ 21 then Z_toString (s * 10 ^ p)
    else
      let ds := Z_toString s in
      formatDigits (stripTrailingZeros ds) (p + Z.of_nat (String.length ds)).

Definition toStringInt (z : Z) : string :=
  if z <? 0 then "-" +:+ toStringNat (- z) else toStringNat z.

(** The integer part of a double, [Infinity] being [2^1024]: the way from
    the doubles of the evaluator to the integers of the codec. *)
Definition toZ (x : spec_float) : Z :=
  match x with
  | S754_finite s m e =>
      let v := if 0 <=? e then Z.pos m * 2 ^ e else Z.pos m / 2 ^ (- e) in
      if s then - v else v
  | S754_infinity s => if s then - infZ else infZ
  | _ => 0
  end.

(** Integers around the thresholds of the rounding: [2^53], [2^54], the
    powers of ten where the printing changes, the largest doubles. *)
Definition roundingSamples : list Z :=
  [0; 1; 2; 25; 26; 27; 1000; 2^52; 2^53 - 1; 2^53; 2^53 + 1; 2^53 + 2; 2^53 + 3;
   2^53 + 4; 2^53 + 5; 2^53 + 6; 2^54 - 1; 2^54; 2^54 + 1; 2^54 + 2; 2^54 + 3;
   2^54 + 4; 2^54 + 6; 2^60; 2^60 + 1; 2^60 + 128; 2^60 + 129; 10^15; 10^16;
   10^17 + 1; 123456789012345678; 10^20; 10^21 - 1; 10^21; 10^21 + 1; 10^22; 10^23;
   99999999999999999999999; 3 * 10^30 + 7; 2^100 + 2^47; 2^100 + 2^47 + 1;
   2^100 + 2^48; 2^100 + 3 * 2^47; 2^1023; 2^1024 - 2^971; 2^1024 - 2^970 - 1;
   2^1024 - 2^970; 2^1024 - 1; 2^1024; 2^1030; -1; -5; - 2^53 - 1; - 2^53 - 3;
   9007199254740993; 90071992547409935; 12345678901234567890123; 5^25; 7^40; 13^60;
   26^11; 26^12; 26^12 + 26^11; 99246114928149462].

End Num.

(** ** Reference codec *)

(** [n = n * 26 + (ch.charCodeAt(0) - 64)]: the product and the sum are
    each rounded. *)
Fixpoint colToNum_from (n : Z) (col : string) : Z :=
  match col with
  | EmptyString => n
  | String ch rest =>
      colToNum_from (Num.roundZ (Num.roundZ (n * 26) + (Char.charCode ch - 64))) rest
  end.

Definition colToNum (col : string) : Z := colToNum_from 0 col.

(** The [while (n > 0)] loop of [numToCol]; every turn divides [n] by 26, so
    one turn per binary digit of [n] is more than the loop ever takes on a
    number that is not [Infinity] (on which the source does not return). *)
Fixpoint numToCol_loop (fuel : nat) (n : Z) (s : string) : string :=
  match fuel with
  | O => s
  | S fuel' =>
      if 0 <? n then
        let m := Num.roundZ (n - 1) in
        let r := Z.rem m 26 in
        numToCol_loop fuel' (Num.floorDiv m 26) (String (Char.fromCharCode (65 + r)) s)
      else s
  end.

Definition numToCol (n : Z) : string :=
  numToCol_loop (S (Z.to_nat (Z.log2 n))) n "".

Definition normalizeRef (ref : string) : string :=
  Str.toUpperCase (Str.filter (fun c => negb (Char.eqb c "$")) ref).

Record cellpos := { col : string; row : Z }.

(** [/^([A-Z]+)(\d+)$/.exec(ref)]: the two groups, when the text matches. *)
Definition matchRef (ref : string) : option (string * string) :=
  let '(letters, rest) := Str.span Char.isUpper ref in
  if Str.isEmpty letters || Str.isEmpty rest || negb (Str.forallb Char.isDigit rest)
  then None
  else Some (letters, rest).

(** [Number(m[2])] is the double nearest to the integer the digits
    denote. *)
Definition splitRef (ref : string) : result cellpos :=
  match matchRef ref with
  | None => Throw ("Bad cell ref: " +:+ ref)
  | Some (letters, digits) =>
      Ok {| col := letters; row := Num.roundZ (digitsToZ digits) |}
  end.

(** The integers [lo, lo+1, ..., hi]. *)
Definition Zrange (lo hi : Z) : list Z :=
  List.map (fun i => lo + Z.of_nat i) (seq 0 (Z.to_nat (hi - lo + 1))).

(** The inner [for] loop of [expandRange]: the references of row [r] from
    column [c] on are pushed on [out]. [c++] is rounded like every sum, so
    that from [2^53] on the counter may stay where it is; the loop then
    never ends, and the model answers [Fuel] whatever its bound. *)
Fixpoint expandRange_cols (fuel : nat) (r c colEnd : Z) (out : list string)
  : result (list string) :=
  match fuel with
  | O => Fuel
  | S fuel' =>
      if c <=? colEnd then
        expandRange_cols fuel' r (Num.roundZ (c + 1)) colEnd
          (out ++ [numToCol c +:+ Num.toStringInt r])
      else Ok out
  end.

(** The outer [for] loop. *)
Fixpoint expandRange_rows (fuel colFuel : nat) (r rowEnd colStart colEnd : Z)
    (out : list string) : result (list string) :=
  match fuel with
  | O => Fuel
  | S fuel' =>
      if r <=? rowEnd then
        out' <-r expandRange_cols colFuel r colStart colEnd out ;;
        expandRange_rows fuel' colFuel (Num.roundZ (r + 1)) rowEnd colStart colEnd out'
      else Ok out
  end.

(** A counter that goes from [lo] beyond [hi] takes [hi - lo + 1] turns
    and one test more. *)
Definition loopFuel (lo hi : Z) : nat := Z.to_nat (hi - lo + 2).

Definition expandRange (rangeRef : string) : result (list string) :=
  let parts := List.map normalizeRef (Str.split ":" rangeRef) in
  ra <-r splitRef (nth 0 parts "undefined") ;;
  rb <-r splitRef (nth 1 parts "undefined") ;;
  let colStart := Z.min (colToNum (col ra)) (colToNum (col rb)) in
  let colEnd := Z.max (colToNum (col ra)) (colToNum (col rb)) in
  let rowStart := Z.min (row ra) (row rb) in
  let rowEnd := Z.max (row ra) (row rb) in
  expandRange_rows (loopFuel rowStart rowEnd) (loopFuel colStart colEnd)
    rowStart rowEnd colStart colEnd [].

(** ** Values and the coercion helpers *)

Inductive jsval : Type :=
| VUndefined
| VNull
| VBool (b : bool)
| VNum (x : spec_float)
| VStr (s : string)
| VArr (xs : list jsval).

(** [String(v)]; an array prints its elements joined by commas, [null] and
    [undefined] elements as nothing. *)
Fixpoint String_ (v : jsval) : string :=
  match v with
  | VUndefined => "undefined"
  | VNull => "null"
  | VBool b => if b then "true" else "false"
  | VNum x => Num.toString x
  | VStr s => s
  | VArr xs =>
      String.concat ","
        (List.map (fun x => match x with
                            | VUndefined | VNull => EmptyString
                            | _ => String_ x
                            end) xs)
  end.

(** [Number(v)] *)
Definition Number_ (v : jsval) : spec_float :=
  match v with
  | VUndefined => Num.nan
  | VNull => Num.zero
  | VBool b => if b then Num.ofZ 1 else Num.zero
  | VNum x => x
  | VStr s => Num.ofString s
  | VArr _ => Num.ofString (String_ v)
  end.

Definition isNumberLike (v : jsval) : bool :=
  match v with
  | VNull | VUndefined => false
  | VNum x => Num.isFinite x
  | VStr s =>
      if negb (Str.isEmpty (Str.trim s)) then negb (Num.isNaN (Num.ofString s))
      else false
  | _ => false
  end.

Definition toNumber (v : jsval) : spec_float :=
  match v with
  | VNull | VUndefined => Num.zero
  | VNum x => x
  | VStr s =>
      let s' := Str.trim s in
      if Str.isEmpty s' then Num.zero
      else
        let n := Num.ofString s' in
        if Num.isNaN n then Num.zero else n
  | _ => Num.zero
  end.

Definition toText (v : jsval) : string :=
  match v with
  | VNull | VUndefined => EmptyString
  | _ => String_ v
  end.

Definition truthyExcel (v : jsval) : bool :=
  match v with
  | VNull | VUndefined => false
  | VBool b => b
  | VNum x => negb (Num.eqb x Num.zero)
  | VStr s => negb (Str.isEmpty s)
  | VArr _ => true
  end.

(** [s.replace(/\s+/g, " ")]: every run of white space becomes one space. *)
Fixpoint collapseSpaces (s : string) : string :=
  match s with
  | EmptyString => EmptyString
  | String c r =>
      if Char.isSpace c then
        match r with
        | String d _ => if Char.isSpace d then collapseSpaces r
                        else String " " (collapseSpaces r)
        | EmptyString => String " " EmptyString
        end
      else String c (collapseSpaces r)
  end.

Definition trimExcel (v : jsval) : string :=
  collapseSpaces (Str.trim (toText v)).

(** ** Tokenizer *)

Inductive tokenType : Type := TNumber | TString | TIdent | TOp.

Record token := { type : tokenType; value : string }.

Definition dquote : ascii := "034".

(** The body of a string literal: the decoded text and what follows the
    closing quote (nothing, when the literal is not closed). *)
Fixpoint scanString (s : string) (out : string) : string * string :=
  match s with
  | EmptyString => (out, EmptyString)
  | String c r =>
      if Char.eqb c dquote then
        match r with
        | String c' r' =>
            if Char.eqb c' dquote then scanString r' (out +:+ String dquote EmptyString)
            else (out, r)
        | EmptyString => (out, r)
        end
      else scanString r (out +:+ String c EmptyString)
  end.

Definition isTwoCharOp (two : string) : bool :=
  String.eqb two "<>" || String.eqb two "<=" || String.eqb two ">=".

(** ["+-*/&(),:<>=".includes(ch)] *)
Definition isSingleOp (ch : ascii) : bool :=
  negb (Nat.eqb (Str.count ch "+-*/&(),:<>=") 0).

(** [/[\d.]/] *)
Definition isNumberPart (c : ascii) : bool := Char.isDigit c || Char.eqb c ".".

(** [/[A-Za-z_$]/] *)
Definition isIdentStart (c : ascii) : bool :=
  Char.isUpper c || Char.isLower c || Char.eqb c "_" || Char.eqb c "$".

(** [/[A-Za-z0-9_$]/] *)
Definition isIdentPart (c : ascii) : bool := isIdentStart c || Char.isDigit c.

(** The [while (i < s.length)] loop, on the text from index [i] on. *)
Fixpoint tokenize_loop (fuel : nat) (formula : string) (s : string)
  : result (list token) :=
  match fuel with
  | O => Fuel
  | S fuel' =>
      match s with
      | EmptyString => Ok []
      | String ch rest =>
          if Char.isSpace ch then tokenize_loop fuel' formula rest
          else if Char.eqb ch dquote then
            let '(out, rest') := scanString rest EmptyString in
            ts <-r tokenize_loop fuel' formula rest' ;;
            Ok ({| type := TString; value := out |} :: ts)
          else if isTwoCharOp (Str.slice2 s) then
            ts <-r tokenize_loop fuel' formula (Str.drop2 s) ;;
            Ok ({| type := TOp; value := Str.slice2 s |} :: ts)
          else if isSingleOp ch then
            ts <-r tokenize_loop fuel' formula rest ;;
            Ok ({| type := TOp; value := String ch EmptyString |} :: ts)
          else if Char.isDigit ch ||
                  (Char.eqb ch "." &&
                   match rest with String d _ => Char.isDigit d | EmptyString => false end)
          then
            let '(body, rest') := Str.span isNumberPart rest in
            ts <-r tokenize_loop fuel' formula rest' ;;
            Ok ({| type := TNumber; value := String ch body |} :: ts)
          else if isIdentStart ch then
            let '(body, rest') := Str.span isIdentPart rest in
            ts <-r tokenize_loop fuel' formula rest' ;;
            Ok ({| type := TIdent; value := String ch body |} :: ts)
          else
            Throw ("Unexpected char '" +:+ String ch EmptyString +:+ "' in formula: " +:+ formula)
      end
  end.

Definition tokenize (formula : string) : result (list token) :=
  let s := Str.trim formula in
  tokenize_loop (S (String.length s)) formula s.

(** ** Parser *)

Inductive ast : Type :=
| Num (value : spec_float)
| Str (value : string)
| Cell (ref : string)
| Range (ref : string)
| Name (name : string)
| Unary (op : string) (expr : ast)
| Bin (op : string) (left right : ast)
| Call (name : string) (args : list ast).

Definition isOp (t : token) (op : string) : bool :=
  match type t with
  | TOp => String.eqb (value t) op
  | _ => false
  end.

(** [ops.includes(peek().value)] for an operator token *)
Definition isOpIn (t : token) (ops : list string) : bool :=
  match type t with
  | TOp => existsb (String.eqb (value t)) ops
  | _ => false
  end.

(** [acceptOp(op)]: the tokens after the operator, when it is next. *)
Definition acceptOp (op : string) (ts : list token) : option (list token) :=
  match ts with
  | t :: r => if isOp t op then Some r else None
  | [] => None
  end.

(** [/^\$?[A-Z]{1,3}\$?\d+$/.test(ident)] *)
Definition isCellRef (ident : string) : bool :=
  let s1 := match ident with String "$" r => r | _ => ident end in
  let '(letters, s2) := Str.span Char.isUpper s1 in
  let s3 := match s2 with String "$" r => r | _ => s2 end in
  (1 <=? String.length letters)%nat && (String.length letters <=? 3)%nat &&
  negb (Str.isEmpty s3) && Str.forallb Char.isDigit s3.

(** [JSON.stringify(t)] for an operator token (its text needs no escape). *)
Definition JSON_stringify_op (t : token) : string :=
  let q := String dquote EmptyString in
  "{" +:+ q +:+ "type" +:+ q +:+ ":" +:+ q +:+ "op" +:+ q +:+ "," +:+
  q +:+ "value" +:+ q +:+ ":" +:+ q +:+ value t +:+ q +:+ "}".

Section Parser.

Variable formula : string.

Definition expected (op : string) : string :=
  "Expected '" +:+ op +:+ "' in formula: " +:+ formula.

(** The parsing functions return the node and the tokens from [pos] on.
    Each [while] loop is a function of its own, named after the function
    it belongs to. *)
Fixpoint parseExpr (fuel : nat) (ts : list token) : result (ast * list token) :=
  match fuel with
  | O => Fuel
  | S fuel' => parseCompare fuel' ts
  end

with parseCompare (fuel : nat) (ts : list token) : result (ast * list token) :=
  match fuel with
  | O => Fuel
  | S fuel' =>
      p <-r parseConcat fuel' ts ;;
      parseCompare_loop fuel' (fst p) (snd p)
  end

with parseCompare_loop (fuel : nat) (node : ast) (ts : list token)
  : result (ast * list token) :=
  match fuel with
  | O => Fuel
  | S fuel' =>
      match ts with
      | t :: r =>
          if isOpIn t ["="; "<>"; "<"; ">"; "<="; ">="] then
            p <-r parseConcat fuel' r ;;
            parseCompare_loop fuel' (Bin (value t) node (fst p)) (snd p)
          else Ok (node, ts)
      | [] => Ok (node, ts)
      end
  end

with parseConcat (fuel : nat) (ts : list token) : result (ast * list token) :=
  match fuel with
  | O => Fuel
  | S fuel' =>
      p <-r parseAdd fuel' ts ;;
      parseConcat_loop fuel' (fst p) (snd p)
  end

with parseConcat_loop (fuel : nat) (node : ast) (ts : list token)
  : result (ast * list token) :=
  match fuel with
  | O => Fuel
  | S fuel' =>
      match acceptOp "&" ts with
      | Some r =>
          p <-r parseAdd fuel' r ;;
          parseConcat_loop fuel' (Bin "&" node (fst p)) (snd p)
      | None => Ok (node, ts)
      end
  end

with parseAdd (fuel : nat) (ts : list token) : result (ast * list token) :=
  match fuel with
  | O => Fuel
  | S fuel' =>
      p <-r parseMul fuel' ts ;;
      parseAdd_loop fuel' (fst p) (snd p)
  end

with parseAdd_loop (fuel : nat) (node : ast) (ts : list token)
  : result (ast * list token) :=
  match fuel with
  | O => Fuel
  | S fuel' =>
      match ts with
      | t :: r =>
          if isOpIn t ["+"; "-"] then
            p <-r parseMul fuel' r ;;
            parseAdd_loop fuel' (Bin (value t) node (fst p)) (snd p)
          else Ok (node, ts)
      | [] => Ok (node, ts)
      end
  end

with parseMul (fuel : nat) (ts : list token) : result (ast * list token) :=
  match fuel with
  | O => Fuel
  | S fuel' =>
      p <-r parseUnary fuel' ts ;;
      parseMul_loop fuel' (fst p) (snd p)
  end

with parseMul_loop (fuel : nat) (node : ast) (ts : list token)
  : result (ast * list token) :=
  match fuel with
  | O => Fuel
  | S fuel' =>
      match ts with
      | t :: r =>
          if isOpIn t ["*"; "/"] then
            p <-r parseUnary fuel' r ;;
            parseMul_loop fuel' (Bin (value t) node (fst p)) (snd p)
          else Ok (node, ts)
      | [] => Ok (node, ts)
      end
  end

with parseUnary (fuel : nat) (ts : list token) : result (ast * list token) :=
  match fuel with
  | O => Fuel
  | S fuel' =>
      match ts with
      | t :: r =>
          if isOpIn t ["+"; "-"] then
            p <-r parseUnary fuel' r ;;
            Ok (Unary (value t) (fst p), snd p)
          else parsePrimary fuel' ts
      | [] => parsePrimary fuel' ts
      end
  end

with parsePrimary (fuel : nat) (ts : list token) : result (ast * list token) :=
  match fuel with
  | O => Fuel
  | S fuel' =>
      match ts with
      | [] => Throw ("Unexpected end of formula: " +:+ formula)
      | t :: r =>
          if isOp t "(" then
            p <-r parseExpr fuel' r ;;
            match acceptOp ")" (snd p) with
            | Some r' => Ok (fst p, r')
            | None => Throw (expected ")")
            end
          else
            match type t with
            | TNumber => Ok (Num (Num.ofString (value t)), r)
            | TString => Ok (Str (value t), r)
            | TIdent =>
                let raw := value t in
                let ident := Str.toUpperCase raw in
                match acceptOp "(" r with
                | Some r1 =>
                    match acceptOp ")" r1 with
                    | Some r2 => Ok (Call ident [], r2)
                    | None =>
                        p <-r parseArgs fuel' [] r1 ;;
                        Ok (Call ident (fst p), snd p)
                    end
                | None =>
                    match acceptOp ":" r with
                    | Some r1 =>
                        match r1 with
                        | t2 :: r2 =>
                            match type t2 with
                            | TIdent => Ok (Range (raw +:+ ":" +:+ value t2), r2)
                            | _ => Throw ("Bad range in formula: " +:+ formula)
                            end
                        | [] => Throw ("Bad range in formula: " +:+ formula)
                        end
                    | None =>
                        if isCellRef ident then Ok (Cell raw, r)
                        else Ok (Name ident, r)
                    end
                end
            | TOp => Throw ("Unexpected token in formula: " +:+ JSON_stringify_op t)
            end
      end
  end

(** The [while (true)] loop that collects the arguments of a call. *)
with parseArgs (fuel : nat) (args : list ast) (ts : list token)
  : result (list ast * list token) :=
  match fuel with
  | O => Fuel
  | S fuel' =>
      p <-r parseExpr fuel' ts ;;
      match acceptOp ")" (snd p) with
      | Some r => Ok (args ++ [fst p], r)
      | None =>
          match acceptOp "," (snd p) with
          | Some r => parseArgs fuel' (args ++ [fst p]) r
          | None => Throw (expected ",")
          end
      end
  end.

End Parser.

(** Nine calls per token are more than the descent ever nests. *)
Definition parse_fuel (tokens : list token) : nat := (9 * List.length tokens + 9)%nat.

Definition parse (formula : string) : result ast :=
  tokens <-r tokenize formula ;;
  p <-r parseExpr formula (parse_fuel tokens) tokens ;;
  match snd p with
  | [] => Ok (fst p)
  | _ :: _ => Throw ("Could not fully parse formula: " +:+ formula)
  end.

(** ** Evaluation: the [SheetEvaluator] class *)

(** A cell record [{v, f}] of the sheet model; [f] is absent ([None]) or
    the text of a formula. *)
Record cellrec := { v : jsval; f : option string }.

(** The names every object inherits from [Object.prototype]. *)
Definition inheritedNames : list string :=
  ["constructor"; "hasOwnProperty"; "isPrototypeOf"; "propertyIsEnumerable";
   "toLocaleString"; "toString"; "valueOf"; "__proto__";
   "__defineGetter__"; "__defineSetter__"; "__lookupGetter__"; "__lookupSetter__"].

(** The fields set once by the constructor. *)
Record SheetEvaluator := {
  cells : gmap string cellrec;      (* this.sheetModel.cells *)
  overrides : gmap string jsval     (* this.overrides *)
}.

(** The two [Map]s the methods update. *)
Record session := {
  cache : gmap string jsval;
  astCache : gmap string ast
}.

Definition fresh : session := {| cache := ∅; astCache := ∅ |}.

(** [Object.fromEntries(Object.entries(overrides).map(...))]: a later entry
    replaces an earlier one with the same normalized key. *)
Definition normalizeOverrides (entries : list (string * jsval)) : gmap string jsval :=
  fold_left (fun m kv => <[normalizeRef (fst kv) := snd kv]> m) entries ∅.

Definition new_SheetEvaluator (sheetCells : gmap string cellrec)
    (entries : list (string * jsval)) : SheetEvaluator :=
  {| cells := sheetCells; overrides := normalizeOverrides entries |}.

(** Methods that update the session: a state monad over [result]. *)
Definition M (A : Type) : Type := session -> result A * session.

Definition ret {A} (a : A) : M A := fun st => (Ok a, st).

Definition throw {A} (msg : string) : M A := fun st => (Throw msg, st).

Definition bind {A B} (m : M A) (k : A -> M B) : M B :=
  fun st =>
    match m st with
    | (Ok a, st') => k a st'
    | (Throw msg, st') => (Throw msg, st')
    | (Fuel, st') => (Fuel, st')
    end.

Notation "x <- e ;; k" := (bind e (fun x => k))
  (at level 100, e at next level, right associativity).

Definition lift {A} (r : result A) : M A := fun st => (r, st).

Definition cache_set (nref : string) (out : jsval) : M unit :=
  fun st => (Ok tt, {| cache := <[nref := out]> (cache st); astCache := astCache st |}).

Definition astCache_set (src : string) (a : ast) : M unit :=
  fun st => (Ok tt, {| cache := cache st; astCache := <[src := a]> (astCache st) |}).

Section Methods.

Variable this : SheetEvaluator.

(** [this.sheetModel.cells[key]]: a cell of the table or, for a name that
    every object inherits, the inherited function, which is truthy and
    has neither [v] nor [f]. *)
Definition cellAt (key : string) : option cellrec :=
  match cells this !! key with
  | Some c => Some c
  | None =>
      if existsb (String.eqb key) inheritedNames
      then Some {| v := VUndefined; f := None |}
      else None
  end.

(** [this.sheetModel.cells[nref] || this.sheetModel.cells[ref] || null] *)
Definition lookupCell (nref ref : string) : option cellrec :=
  match cellAt nref with
  | Some c => Some c
  | None => cellAt ref
  end.

Definition getCellRaw (ref : string) : jsval :=
  let nref := normalizeRef ref in
  match overrides this !! nref with
  | Some o => o
  | None =>
      match lookupCell nref ref with
      | Some c => v c
      | None => VNull
      end
  end.

Definition getCellFormula (ref : string) : option string :=
  let nref := normalizeRef ref in
  match lookupCell nref ref with
  | Some c => f c
  | None => None
  end.

(** [!f] *)
Definition noFormula (fo : option string) : bool :=
  match fo with
  | None => true
  | Some src => Str.isEmpty src
  end.

(** [isNumberLike(v) ? Number(v) : (v ?? "")] *)
Definition rawOut (x : jsval) : jsval :=
  if isNumberLike x then VNum (Number_ x)
  else match x with
       | VNull | VUndefined => VStr EmptyString
       | _ => x
       end.

Definition typeError : string :=
  "TypeError: Cannot read properties of undefined (reading 'type')".

Section EvalAst.

(** The method [evalCell], as [evalAst] calls it. *)
Variable evalCell : string -> list string -> M jsval.

(** [refs.map((r) => this.evalCell(r, stack))] *)
Fixpoint evalCells (refs : list string) (stack : list string) : M (list jsval) :=
  match refs with
  | [] => ret []
  | r :: rest =>
      x <- evalCell r stack ;;
      xs <- evalCells rest stack ;;
      ret (x :: xs)
  end.

(** [sum += toNumber(x)] for the elements of an array or for a scalar *)
Definition addTo (sum : spec_float) (x : jsval) : spec_float :=
  match x with
  | VArr xs => fold_left (fun acc y => Num.add acc (toNumber y)) xs sum
  | _ => Num.add sum (toNumber x)
  end.

Definition binop (op : string) (l r : jsval) : jsval :=
  if String.eqb op "&" then VStr (toText l +:+ toText r)
  else if String.eqb op "+" then VNum (Num.add (toNumber l) (toNumber r))
  else if String.eqb op "-" then VNum (Num.sub (toNumber l) (toNumber r))
  else if String.eqb op "*" then VNum (Num.mul (toNumber l) (toNumber r))
  else if String.eqb op "/" then VNum (Num.div (toNumber l) (toNumber r))
  else if String.eqb op "=" then VBool (String.eqb (toText l) (toText r))
  else if String.eqb op "<>" then VBool (negb (String.eqb (toText l) (toText r)))
  else if String.eqb op "<" then VBool (Num.ltb (toNumber l) (toNumber r))
  else if String.eqb op ">" then VBool (Num.ltb (toNumber r) (toNumber l))
  else if String.eqb op "<=" then VBool (Num.leb (toNumber l) (toNumber r))
  else if String.eqb op ">=" then VBool (Num.leb (toNumber r) (toNumber l))
  else VStr EmptyString.

Definition unop (op : string) (x : jsval) : jsval :=
  if String.eqb op "+" then VNum (toNumber x)
  else if String.eqb op "-" then VNum (Num.neg (toNumber x))
  else VNum Num.zero.

Fixpoint evalAst (node : ast) (stack : list string) {struct node} : M jsval :=
  match node with
  | Num value => ret (VNum value)
  | Str value => ret (VStr value)
  | Cell ref => evalCell ref stack
  | Range ref =>
      refs <- lift (expandRange ref) ;;
      xs <- evalCells refs stack ;;
      ret (VArr xs)
  | Name _ => ret (VStr EmptyString)
  | Unary op expr =>
      x <- evalAst expr stack ;;
      ret (unop op x)
  | Bin op lhs rhs =>
      l <- evalAst lhs stack ;;
      r <- evalAst rhs stack ;;
      ret (binop op l r)
  | Call name args =>
      if String.eqb name "IF" then
        match args with
        | [] => throw typeError
        | c :: branches =>
            cond <- evalAst c stack ;;
            if truthyExcel cond then
              match branches with
              | t :: _ => evalAst t stack
              | [] => throw typeError
              end
            else
              match branches with
              | _ :: e :: _ => evalAst e stack
              | _ => ret (VStr EmptyString)
              end
        end
      else if String.eqb name "SUM" then
        (fix sumArgs (rest : list ast) (sum : spec_float) : M jsval :=
           match rest with
           | [] => ret (VNum sum)
           | arg :: rest' =>
               x <- evalAst arg stack ;;
               sumArgs rest' (addTo sum x)
           end) args Num.zero
      else if String.eqb name "TRIM" then
        match args with
        | a :: _ =>
            x <- evalAst a stack ;;
            ret (VStr (trimExcel x))
        | [] => throw typeError
        end
      else ret (VStr EmptyString)
  end.

End EvalAst.

(** [this.astCache.get(f)], parsing and storing the tree on a miss. *)
Definition parseCached (src : string) : M ast :=
  fun st =>
    match astCache st !! src with
    | Some a => (Ok a, st)
    | None =>
        (a <- lift (parse src) ;;
         _ <- astCache_set src a ;;
         ret a) st
    end.

(** [stack.includes(nref)] *)
Definition includes (stack : list string) (nref : string) : bool :=
  existsb (String.eqb nref) stack.

(** [evalCell(ref, stack)]; [fuel] bounds the nesting of [evalCell]
    calls through formulas. *)
Fixpoint evalCell (fuel : nat) (ref : string) (stack : list string) : M jsval :=
  fun st =>
    match fuel with
    | O => (Fuel, st)
    | S fuel' =>
        let nref := normalizeRef ref in
        match cache st !! nref with
        | Some out => (Ok out, st)
        | None =>
            if includes stack nref then (Ok (VStr EmptyString), st)
            else
              let fo := getCellFormula nref in
              if noFormula fo then
                (let out := rawOut (getCellRaw nref) in
                 _ <- cache_set nref out ;;
                 ret out) st
              else
                let src := default EmptyString fo in
                (a <- parseCached src ;;
                 out <- evalAst (evalCell fuel') a (stack ++ [nref]) ;;
                 _ <- cache_set nref out ;;
                 ret out) st
        end
    end.

End Methods.

(** ** Shapes the statements below speak of *)

(** One or more capital letters followed by one or more digits. *)
Definition refShape (s : string) : Prop :=
  exists letters digits : string,
    s = letters +:+ digits /\ letters <> "" /\ digits <> "" /\
    Str.forallb Char.isUpper letters = true /\
    Str.forallb Char.isDigit digits = true.


(** Characters other than the range separator, and the characters of a
    normalized reference. *)
Definition noColon (c : ascii) : bool := negb (Char.eqb c ":").

Definition refChar (c : ascii) : bool := Char.isUpper c || Char.isDigit c.

(** What a number token looks like: a digit, or a point followed by a
    digit, and then digits and points in any number. *)
Definition numberTokenShape (s : string) : Prop :=
  match s with
  | EmptyString => False
  | String c body =>
      Str.forallb isNumberPart body = true /\
      (Char.isDigit c = true \/
       (c = "."%char /\ exists d rest, body = String d rest /\ Char.isDigit d = true))
  end.

(** ** Sample sheets and formulas for the examples *)

(** A text between double quotes, as a string literal is written in a
    formula. *)
Definition quoted (s : string) : string :=
  String dquote (s +:+ String dquote EmptyString).

Definition formulaCell (src : string) : cellrec := {| v := VNull; f := Some src |}.

Definition valueCell (x : jsval) : cellrec := {| v := x; f := None |}.

(** [new SheetEvaluator(sheetModel, overrides).evalCell(ref)]: a fresh
    session, the default empty stack, and a bound on the nesting of cells
    that no sheet of [n] cells reaches. *)
Definition evaluateCell (sheetCells : list (string * cellrec))
    (entries : list (string * jsval)) (ref : string) : result jsval * session :=
  evalCell (new_SheetEvaluator (list_to_map sheetCells) entries)
    (S (List.length sheetCells)) ref [] fresh.

(** The value of a formula put alone in cell A1. *)
Definition evalFormula (src : string) : result jsval :=
  fst (evaluateCell [("A1", formulaCell src)] [] "A1").

Definition one : spec_float := Num.ofZ 1.

(** A parsing function that returns, returns fewer than [n] tokens. *)
Definition below {A : Type} (n : nat) (r : result (A * list token)) : Prop :=
  match r with
  | Ok p => (List.length (snd p) < n)%nat
  | _ => True
  end.

(** Induction on trees, with the arguments of a call as a list of trees
    that all satisfy the property. *)
Section AstInd.

Variable P : ast -> Prop.
Hypothesis HNum : forall x, P (Num x).
Hypothesis HStr : forall s, P (Str s).
Hypothesis HCell : forall r, P (Cell r).
Hypothesis HRange : forall r, P (Range r).
Hypothesis HName : forall n, P (Name n).
Hypothesis HUnary : forall op e, P e -> P (Unary op e).
Hypothesis HBin : forall op l r, P l -> P r -> P (Bin op l r).
Hypothesis HCall : forall n args, Forall P args -> P (Call n args).

Fixpoint ast_nested_ind (a : ast) : P a :=
  match a with
  | Num x => HNum x
  | Str s => HStr s
  | Cell r => HCell r
  | Range r => HRange r
  | Name n => HName n
  | Unary op e => HUnary op e (ast_nested_ind e)
  | Bin op l r => HBin op l r (ast_nested_ind l) (ast_nested_ind r)
  | Call n args =>
      HCall n args
        ((fix all (l : list ast) : Forall P l :=
            match l with
            | [] => List.Forall_nil P
            | x :: r => @List.Forall_cons _ P x r (ast_nested_ind x) (all r)
            end) args)
  end.

End AstInd.

(** ** Further shapes and helpers for the statements below *)

(** The significand of the double that holds the integer [p] below [2^53]:
    [p] shifted to 53 bits. *)
Definition mantissa (p : positive) : positive :=
  Z.to_pos (Z.pos p * 2 ^ (53 - Z.pos (digits2_pos p))).

(** A character a normalized reference can hold: not an anchor marker and
    not a small letter. *)
Definition normalizedChar (c : ascii) : bool :=
  negb (Char.eqb c "$") && negb (Char.isLower c).

(** The operators and punctuation marks of the formula language. *)
Definition operators : list string :=
  ["+"; "-"; "*"; "/"; "&"; "("; ")"; ","; ":"; "<"; ">"; "="; "<>"; "<="; ">="].

(** What an identifier token looks like. *)
Definition identTokenShape (s : string) : Prop :=
  match s with
  | EmptyString => False
  | String c body => isIdentStart c = true /\ Str.forallb isIdentPart body = true
  end.

Definition tokenShape (t : token) : Prop :=
  match type t with
  | TOp => In (value t) operators
  | TIdent => identTokenShape (value t)
  | TNumber => numberTokenShape (value t)
  | TString => True
  end.

(** The text of a string literal for [t]: every double quote of [t] is
    written twice, and the whole stands between double quotes. *)
Fixpoint escapeQuotes (t : string) : string :=
  match t with
  | EmptyString => EmptyString
  | String c r =>
      if Char.eqb c dquote then String dquote (String dquote (escapeQuotes r))
      else String c (escapeQuotes r)
  end.

Definition stringLiteral (t : string) : string :=
  String dquote (escapeQuotes t +:+ String dquote EmptyString).

Definition notQuote (c : ascii) : bool := negb (Char.eqb c dquote).

(** The operators a tree can carry. *)
Definition binaryOps : list string :=
  ["="; "<>"; "<"; ">"; "<="; ">="; "&"; "+"; "-"; "*"; "/"].

Definition unaryOps : list string := ["+"; "-"].

Definition isIdentText (s : string) : bool :=
  match s with
  | EmptyString => false
  | String c body => isIdentStart c && Str.forallb isIdentPart body
  end.

(** A well-formed tree: operators of the two lists; a cell node whose
    reference has the shape of a cell reference once in upper case; a range
    node made of two identifiers around one colon; function and bare names
    in upper case, a bare name not having the shape of a cell reference. *)
Fixpoint wellFormed (a : ast) : bool :=
  match a with
  | Num _ => true
  | Str _ => true
  | Cell ref => isCellRef (Str.toUpperCase ref)
  | Range ref =>
      match Str.split ":" ref with
      | [x; y] => isIdentText x && isIdentText y
      | _ => false
      end
  | Name name => String.eqb (Str.toUpperCase name) name && negb (isCellRef name)
  | Unary op e => existsb (String.eqb op) unaryOps && wellFormed e
  | Bin op l r => existsb (String.eqb op) binaryOps && wellFormed l && wellFormed r
  | Call name args => String.eqb (Str.toUpperCase name) name && forallb wellFormed args
  end.

(** The references of the cell nodes of a tree. *)
Fixpoint cellRefs (a : ast) : list string :=
  match a with
  | Cell ref => [ref]
  | Unary _ e => cellRefs e
  | Bin _ l r => cellRefs l ++ cellRefs r
  | Call _ args => flat_map cellRefs args
  | _ => []
  end.

(** A parsing function that returns, returns a good result and tokens that
    are still well formed. *)
Definition okResult {A : Type} (good : A -> Prop) (r : result (A * list token)) : Prop :=
  match r with
  | Ok p => good (fst p) /\ Forall tokenShape (snd p)
  | _ => True
  end.

(** A character other than the anchor marker. *)
Definition notDollar (c : ascii) : bool := negb (Char.eqb c "$").

(** ** Sessions *)

(** [null] and [undefined]. *)
Definition isBlankValue (x : jsval) : bool :=
  match x with
  | VNull | VUndefined => true
  | _ => false
  end.

(** Every tree of the AST cache is the parse of its key. *)
Definition astCacheSound (st : session) : Prop :=
  forall src a, astCache st !! src = Some a -> parse src = Ok a.

(** No cached value is [null] or [undefined]. *)
Definition cacheDefined (st : session) : Prop :=
  forall k x, cache st !! k = Some x -> isBlankValue x = false.

(** [st'] extends [st] around [stack]: the two caches of [st] are kept,
    entry for entry, and no reference of [stack] has been given a value. *)
Definition extends (stack : list string) (st st' : session) : Prop :=
  (forall k x, cache st !! k = Some x -> cache st' !! k = Some x) /\
  (forall k, k ∈ stack -> cache st !! k = None -> cache st' !! k = None) /\
  (forall src a, astCache st !! src = Some a -> astCache st' !! src = Some a).

(** The sessions that calls of [evalCell] lead to. *)
Inductive reachable (this : SheetEvaluator) (st : session) : session -> Prop :=
| reachable_refl : reachable this st st
| reachable_step (st1 : session) (fuel : nat) (ref : string) (stack : list string) :
    reachable this st st1 ->
    reachable this st (snd (evalCell this fuel ref stack st1)).

(** What a method promises about the session it returns and the value it
    answers: from a session that satisfies [P], a session that satisfies
    [P] and is related to the first by [R], and a value that satisfies [V]
    or an exception that satisfies [E]. *)
Definition post {A : Type} (P : session -> Prop) (R : session -> session -> Prop)
    (V : A -> Prop) (E : string -> Prop) (st : session)
    (out : result A * session) : Prop :=
  P st ->
  P (snd out) /\ R st (snd out) /\
  match fst out with
  | Ok a => V a
  | Throw msg => E msg
  | Fuel => True
  end.

(** The [RangeError]s of the engine when a resource runs out: the call
    stack, the length of a string, the length of an array. The model bounds
    none of them and never raises these. *)
Definition engineLimit (msg : string) : Prop :=
  msg = "Maximum call stack size exceeded" \/
  msg = "Invalid string length" \/
  msg = "Invalid array length".

(** The exceptions of an evaluation: the [TypeError] of a call without its
    first argument, the exception of [splitRef], the exceptions of
    [parse], and the engine's when a resource runs out. *)
Definition evalException (msg : string) : Prop :=
  msg = typeError \/
  (exists r, msg = "Bad cell ref: " +:+ r) \/
  (exists src, parse src = Throw msg) \/
  engineLimit msg.

(** ** The overrides: from an edit of the page to the evaluator *)

(** The value the constructor keeps for a normalized key: that of the last
    entry whose key normalizes to it. *)
Definition overrideFor (entries : list (string * jsval)) (key : string) : option jsval :=
  snd <$> last (List.filter (fun kv => String.eqb (normalizeRef (fst kv)) key) entries).

(** [parseUserInput(raw, type)] of the page; [raw] is the text of the input
    field, [None] when it is [null] or [undefined]. *)
Definition parseUserInput (raw : option string) (type : string) : jsval :=
  if String.eqb type "number" then
    let s := Str.trim (default EmptyString raw) in
    if Str.isEmpty s then VStr EmptyString
    else
      let n := Num.ofString s in
      if Num.isNaN n then VStr EmptyString else VNum n
  else VStr (default EmptyString raw).

(** The handler [render] gives to [renderInputs]: the stored overrides with
    the entry of [cell] set to [value], and that entry deleted when the
    value is the empty text, [null] or [undefined]. *)
Definition onChange (stored : gmap string jsval) (cell : string) (value : jsval) :
    gmap string jsval :=
  let next := <[cell := value]> stored in
  match value with
  | VStr EmptyString | VNull | VUndefined => delete cell next
  | _ => next
  end.

(** Every key is a normalized reference, as [renderInputs] makes the keys
    it hands to [onChange]. *)
Definition keysNormalized (m : gmap string jsval) : Prop :=
  forall k o, m !! k = Some o -> normalizeRef k = k.

(** ** Spacing of a text *)

Definition startsSpace (s : string) : bool :=
  match s with
  | String c _ => Char.isSpace c
  | EmptyString => false
  end.

Fixpoint endsSpace (s : string) : bool :=
  match s with
  | EmptyString => false
  | String c r =>
      match r with
      | EmptyString => Char.isSpace c
      | String _ _ => endsSpace r
      end
  end.

(** After a character that is white space ([prev]) or is not: every white
    space character of [s] is a space and follows a character that is not
    white space, and [s] does not end, nor the text before it, with white
    space. *)
Fixpoint singleSpaced_from (prev : bool) (s : string) : bool :=
  match s with
  | EmptyString => negb prev
  | String c r =>
      if Char.isSpace c then Char.eqb c " " && negb prev && singleSpaced_from true r
      else singleSpaced_from false r
  end.

(** No white space at either end, and between two words one space. *)
Definition singleSpaced (s : string) : bool :=
  negb (startsSpace s) && singleSpaced_from false s.

(** ** Precedence *)

(** How tightly a binary operator binds: comparisons least, then [&], then
    [+] and [-], then [*] and [/]. *)
Definition level (op : string) : nat :=
  if existsb (String.eqb op) ["*"; "/"] then 4
  else if existsb (String.eqb op) ["+"; "-"] then 3
  else if String.eqb op "&" then 2
  else 1.

Definition opToken (op : string) : token := {| type := TOp; value := op |}.

(** A number or a string token, and the tree [parsePrimary] makes of it. *)
Definition isLeafToken (t : token) : bool :=
  match type t with
  | TNumber | TString => true
  | _ => false
  end.

Definition leaf (t : token) : ast :=
  match type t with
  | TNumber => Num (Num.ofString (value t))
  | _ => Str (value t)
  end.
(** * Theorems *)

(** ** Strings *)

Local Arguments String.append : simpl nomatch.

Lemma append_nil_r (s : string) : s +:+ "" = s.
Proof. induction s as [|c s IH]; simpl; [reflexivity | now rewrite IH]. Qed.

Lemma append_assoc (a b c : string) : (a +:+ b) +:+ c = a +:+ (b +:+ c).
Proof. induction a as [|x a IH]; simpl; [reflexivity | now rewrite IH]. Qed.

Lemma append_cons (c : ascii) (a b : string) : String c a +:+ b = String c (a +:+ b).
Proof. reflexivity. Qed.

Lemma Char_eqb_eq (a b : ascii) : Char.eqb a b = true <-> a = b.
Proof. unfold Char.eqb. apply Ascii.eqb_eq. Qed.

Lemma charCode_range (c : ascii) : 0 <= Char.charCode c < 256.
Proof.
  unfold Char.charCode. pose proof (N_ascii_bounded c). lia.
Qed.

Lemma charCode_fromCharCode (z : Z) :
  0 <= z < 256 -> Char.charCode (Char.fromCharCode z) = z.
Proof.
  intros Hz. unfold Char.charCode, Char.fromCharCode.
  rewrite N_ascii_embedding by lia. lia.
Qed.

Lemma forallb_app (p : ascii -> bool) (a b : string) :
  Str.forallb p (a +:+ b) = Str.forallb p a && Str.forallb p b.
Proof.
  induction a as [|c a IH]; simpl; [reflexivity|].
  rewrite IH. now rewrite andb_assoc.
Qed.

Lemma span_append (p : ascii -> bool) (s : string) :
  fst (Str.span p s) +:+ snd (Str.span p s) = s.
Proof.
  induction s as [|c s IH]; simpl; [reflexivity|].
  destruct (p c); [|reflexivity].
  destruct (Str.span p s) as [a b]. simpl in *. now rewrite IH.
Qed.

Lemma span_forallb (p : ascii -> bool) (s : string) :
  Str.forallb p (fst (Str.span p s)) = true.
Proof.
  induction s as [|c s IH]; simpl; [reflexivity|].
  destruct (p c) eqn:Hc; [|reflexivity].
  destruct (Str.span p s) as [a b]. simpl in *. now rewrite Hc, IH.
Qed.

(** What follows the span starts with a character outside the class. *)
Lemma span_rest (p : ascii -> bool) (s : string) :
  match snd (Str.span p s) with
  | EmptyString => True
  | String c _ => p c = false
  end.
Proof.
  induction s as [|c s IH]; simpl; [exact I|].
  destruct (p c) eqn:Hc; [|exact Hc].
  destruct (Str.span p s) as [a b]. exact IH.
Qed.

(** The span of [a +:+ b] is [(a, b)] when [a] is in the class and [b]
    does not start in it. *)
Lemma span_exact (p : ascii -> bool) (a b : string) :
  Str.forallb p a = true ->
  match b with EmptyString => True | String c _ => p c = false end ->
  Str.span p (a +:+ b) = (a, b).
Proof.
  intros Ha Hb. induction a as [|c a IH]; simpl in *.
  - destruct b as [|c b]; simpl; [reflexivity | now rewrite Hb].
  - apply andb_true_iff in Ha as [Hc Ha]. rewrite Hc, (IH Ha). reflexivity.
Qed.

(** ** Numbers that hold an integer *)

Lemma pow2_53 : 2 ^ 53 = 9007199254740992.
Proof. reflexivity. Qed.

Lemma pow2_split (e k : Z) : 0 <= e -> 0 <= k -> 2 ^ (e + k) = 2 ^ k * 2 ^ e.
Proof. intros He Hk. rewrite Z.pow_add_r by lia. lia. Qed.

Lemma rne_exact (q den : Z) : 0 < den -> Num.rne (q * den) den = q.
Proof.
  intros Hd. unfold Num.rne. rewrite Z.mod_mul, Z.div_mul by lia.
  rewrite Z.mul_0_r. destruct (Z.compare_spec 0 den); [lia | reflexivity | lia].
Qed.

Lemma rne_one (a : Z) : Num.rne a 1 = a.
Proof. rewrite <- (Z.mul_1_r a) at 1. apply rne_exact. lia. Qed.

Lemma rne_cases (num den : Z) :
  (Num.rne num den = num / den /\ 2 * (num mod den) <= den) \/
  (Num.rne num den = num / den + 1 /\ den <= 2 * (num mod den)).
Proof.
  unfold Num.rne. destruct (Z.compare_spec (2 * (num mod den)) den) as [H|H|H].
  - destruct (Z.even (num / den)); [left | right]; split; auto; lia.
  - left. split; [reflexivity | lia].
  - right. split; [reflexivity | lia].
Qed.

Lemma rne_low (num den : Z) :
  2 * (num mod den) < den -> Num.rne num den = num / den.
Proof.
  intros H. unfold Num.rne.
  destruct (Z.compare_spec (2 * (num mod den)) den); [lia | reflexivity | lia].
Qed.

(** *** Rounding to the nearest double *)

Lemma roundAbs_small (a : Z) : 0 <= a < 2 ^ 53 -> Num.roundAbs a = a.
Proof.
  intros Ha. unfold Num.roundAbs.
  assert (He : Z.max 0 (Z.log2 a - 52) = 0).
  { destruct (Z.eq_dec a 0) as [->|Hn]; [reflexivity|].
    assert (Z.log2 a < 53) by (apply Z.log2_lt_pow2; lia). lia. }
  rewrite He. change (2 ^ 0) with 1. rewrite Z.mul_1_r, rne_one.
  destruct (Z.leb_spec Num.infZ a) as [H|H]; [|reflexivity].
  exfalso. assert (2 ^ 53 < Num.infZ) by reflexivity. lia.
Qed.

Lemma roundAbs_safe (a : Z) : 0 <= a <= 2 ^ 53 -> Num.roundAbs a = a.
Proof.
  intros Ha. destruct (Z.eq_dec a (2 ^ 53)) as [->|Hn]; [reflexivity|].
  apply roundAbs_small. lia.
Qed.

(** From [2^53] on a double is a significand of 53 bits times a power of
    two. *)
Lemma roundAbs_large (a : Z) :
  2 ^ 53 <= a ->
  let e := Z.log2 a - 52 in
  let q := Num.rne a (2 ^ e) in
  1 <= e /\ 2 ^ 52 <= q <= 2 ^ 53 /\
  2 ^ 52 * 2 ^ e <= a < 2 ^ 53 * 2 ^ e /\
  Num.roundAbs a = if Num.infZ <=? q * 2 ^ e then Num.infZ else q * 2 ^ e.
Proof.
  intros Ha e q.
  assert (Hpos : 0 < a) by (rewrite pow2_53 in Ha; lia).
  assert (HL : 53 <= Z.log2 a).
  { change 53 with (Z.log2 (2 ^ 53)). now apply Z.log2_le_mono. }
  assert (He : 1 <= e) by (unfold e; lia).
  destruct (Z.log2_spec a Hpos) as [Hlo Hhi].
  replace (Z.log2 a) with (e + 52) in Hlo by (unfold e; lia).
  replace (Z.succ (Z.log2 a)) with (e + 53) in Hhi by (unfold e; lia).
  rewrite pow2_split in Hlo, Hhi by lia.
  assert (Hp : 0 < 2 ^ e) by (apply Z.pow_pos_nonneg; lia).
  assert (Hq : 2 ^ 52 <= a / 2 ^ e < 2 ^ 53).
  { split; [apply Z.div_le_lower_bound; lia | apply Z.div_lt_upper_bound; lia]. }
  split; [exact He|]. split.
  - unfold q. destruct (rne_cases a (2 ^ e)) as [[-> _]|[-> _]]; lia.
  - split; [lia|]. unfold Num.roundAbs. fold e.
    replace (Z.max 0 e) with e by lia. reflexivity.
Qed.

Lemma roundAbs_nonneg (a : Z) : 0 <= a -> 0 <= Num.roundAbs a.
Proof.
  intros Ha. destruct (Z.lt_ge_cases a (2 ^ 53)) as [H|H].
  - rewrite roundAbs_small; lia.
  - destruct (roundAbs_large a H) as (He & Hq & _ & ->).
    destruct (Z.leb_spec Num.infZ (Num.rne a (2 ^ (Z.log2 a - 52)) * 2 ^ (Z.log2 a - 52)));
      [unfold Num.infZ; apply Z.pow_nonneg; lia|].
    apply Z.mul_nonneg_nonneg; [|apply Z.pow_nonneg; lia].
    assert (0 < 2 ^ 52) by reflexivity. lia.
Qed.

(** What is [2^53] or more stays so. *)
Lemma roundAbs_big (a : Z) : 2 ^ 53 <= a -> 2 ^ 53 <= Num.roundAbs a.
Proof.
  intros H. destruct (roundAbs_large a H) as (He & Hq & _ & ->).
  set (e := Z.log2 a - 52) in *. set (q := Num.rne a (2 ^ e)) in *.
  destruct (Z.leb_spec Num.infZ (q * 2 ^ e)); [now vm_compute|].
  assert (2 ^ 1 <= 2 ^ e) by (apply Z.pow_le_mono_r; lia).
  change (2 ^ 1) with 2 in *. change (2 ^ 53) with (2 ^ 52 * 2).
  assert (0 < 2 ^ 52) by reflexivity. nia.
Qed.

Lemma roundAbs_pos (a : Z) : 0 < a -> 0 < Num.roundAbs a.
Proof.
  intros Ha. destruct (Z.lt_ge_cases a (2 ^ 53)) as [H|H].
  - rewrite roundAbs_small; lia.
  - pose proof (roundAbs_big a H). rewrite pow2_53 in *. lia.
Qed.

Lemma roundZ_nonneg (z : Z) : 0 <= z -> Num.roundZ z = Num.roundAbs z.
Proof.
  intros Hz. unfold Num.roundZ. rewrite Z.abs_eq by exact Hz.
  destruct (Z.eq_dec z 0) as [->|Hn]; [reflexivity|].
  rewrite Z.sgn_pos by lia. lia.
Qed.

Lemma roundZ_safe (z : Z) : - 2 ^ 53 <= z <= 2 ^ 53 -> Num.roundZ z = z.
Proof.
  intros Hz. unfold Num.roundZ. rewrite roundAbs_safe by lia.
  destruct (Z.abs_spec z) as [[? ->]|[? ->]].
  - destruct (Z.eq_dec z 0) as [->|]; [reflexivity|]. rewrite Z.sgn_pos by lia. lia.
  - rewrite Z.sgn_neg by lia. lia.
Qed.

Lemma roundZ_pos (z : Z) : 0 < z -> 0 < Num.roundZ z.
Proof. intros Hz. rewrite roundZ_nonneg by lia. now apply roundAbs_pos. Qed.

Lemma roundZ_ge0 (z : Z) : 0 <= z -> 0 <= Num.roundZ z.
Proof. intros Hz. rewrite roundZ_nonneg by lia. now apply roundAbs_nonneg. Qed.

Lemma roundZ_big (z : Z) : 2 ^ 53 <= z -> 2 ^ 53 <= Num.roundZ z.
Proof.
  intros Hz. rewrite roundZ_nonneg by (rewrite pow2_53 in Hz; lia).
  now apply roundAbs_big.
Qed.

Lemma roundAbs_infZ : Num.roundAbs Num.infZ = Num.infZ.
Proof. reflexivity. Qed.

(** A double rounds to itself. *)
Lemma roundAbs_idem (a : Z) :
  0 <= a -> Num.roundAbs (Num.roundAbs a) = Num.roundAbs a.
Proof.
  intros Ha. destruct (Z.lt_ge_cases a (2 ^ 53)) as [H|H].
  { now rewrite !roundAbs_small by (rewrite ?roundAbs_small; lia). }
  destruct (roundAbs_large a H) as (He & Hq & _ & ->).
  set (e := Z.log2 a - 52) in *. set (q := Num.rne a (2 ^ e)) in *.
  destruct (Z.leb_spec Num.infZ (q * 2 ^ e)) as [Hs|Hs]; [apply roundAbs_infZ|].
  assert (Hp : 0 < 2 ^ e) by (apply Z.pow_pos_nonneg; lia).
  assert (H52 : 0 < 2 ^ 52) by reflexivity.
  unfold Num.roundAbs.
  destruct (Z.eq_dec q (2 ^ 53)) as [Hq53|Hq53].
  - assert (HL : Z.log2 (q * 2 ^ e) = 53 + e).
    { rewrite Hq53, <- Z.pow_add_r by lia. apply Z.log2_pow2. lia. }
    rewrite HL. replace (Z.max 0 (53 + e - 52)) with (e + 1) by lia.
    assert (Ht : q * 2 ^ e = 2 ^ 52 * 2 ^ (e + 1)).
    { rewrite Hq53, Z.pow_add_r by lia. change (2 ^ 53) with (2 ^ 52 * 2 ^ 1). lia. }
    assert (Hrne : Num.rne (q * 2 ^ e) (2 ^ (e + 1)) = 2 ^ 52).
    { rewrite Ht. apply rne_exact. apply Z.pow_pos_nonneg; lia. }
    rewrite Hrne, <- Ht. destruct (Z.leb_spec Num.infZ (q * 2 ^ e)); [lia | reflexivity].
  - assert (HL : Z.log2 (q * 2 ^ e) = 52 + e).
    { apply Z.log2_unique; [lia|].
      replace (Z.succ (52 + e)) with (e + 53) by lia.
      replace (52 + e) with (e + 52) by lia.
      rewrite !pow2_split by lia. split; nia. }
    rewrite HL. replace (Z.max 0 (52 + e - 52)) with e by lia.
    rewrite rne_exact by exact Hp.
    destruct (Z.leb_spec Num.infZ (q * 2 ^ e)); [lia | reflexivity].
Qed.

Lemma roundZ_idem (z : Z) : 0 <= z -> Num.roundZ (Num.roundZ z) = Num.roundZ z.
Proof.
  intros Hz. rewrite (roundZ_nonneg z Hz).
  rewrite roundZ_nonneg by now apply roundAbs_nonneg.
  now apply roundAbs_idem.
Qed.

(** From [2^54] on the doubles are four apart or more: adding one to a
    double rounds back to it. *)
Lemma roundAbs_stuck (r : Z) :
  2 ^ 54 <= r -> Num.roundAbs r = r -> Num.roundAbs (r + 1) = r.
Proof.
  intros Hr Hrep.
  assert (H53 : 2 ^ 53 <= r) by (change (2 ^ 54) with (2 * 2 ^ 53) in Hr; rewrite pow2_53 in *; lia).
  destruct (roundAbs_large r H53) as (_ & Hq & Hb & Hform).
  assert (HL : 54 <= Z.log2 r).
  { change 54 with (Z.log2 (2 ^ 54)). now apply Z.log2_le_mono. }
  set (e := Z.log2 r - 52) in *. set (q := Num.rne r (2 ^ e)) in *.
  assert (He : 2 <= e) by (unfold e; lia).
  assert (Hp : 2 ^ 2 <= 2 ^ e) by (apply Z.pow_le_mono_r; lia).
  change (2 ^ 2) with 4 in Hp.
  assert (H52 : 0 < 2 ^ 52) by reflexivity.
  rewrite Hrep in Hform.
  assert (Hk : exists k, r = k * 2 ^ e /\ (Num.infZ <= r -> r = Num.infZ)).
  { destruct (Z.leb_spec Num.infZ (q * 2 ^ e)) as [Hs|Hs].
    - exists (2 ^ 52). split; [|auto]. unfold e. rewrite Hform. reflexivity.
    - exists q. split; [exact Hform | lia]. }
  destruct Hk as (k & Hk & Hinf).
  assert (HL1 : Z.log2 (r + 1) = Z.log2 r).
  { apply Z.log2_unique; [lia|].
    replace (Z.log2 r) with (e + 52) by (unfold e; lia).
    replace (Z.succ (e + 52)) with (e + 53) by lia.
    rewrite !pow2_split by lia. split; [lia|].
    assert (k < 2 ^ 53) by nia. nia. }
  unfold Num.roundAbs. rewrite HL1. fold e.
  replace (Z.max 0 e) with e by lia.
  assert (Hd : (r + 1) / 2 ^ e = k).
  { symmetry. apply Z.div_unique with (r := 1); lia. }
  assert (Hm : (r + 1) mod 2 ^ e = 1).
  { symmetry. apply Z.mod_unique with (q := k); lia. }
  rewrite rne_low by (rewrite Hm; lia). rewrite Hd, <- Hk.
  destruct (Z.leb_spec Num.infZ r) as [Hs|Hs]; [symmetry; auto | reflexivity].
Qed.

(** Adding one to a double never gives less than the double. *)
Lemma roundAbs_succ_ge (r : Z) :
  0 <= r -> Num.roundAbs r = r -> r <= Num.roundAbs (r + 1).
Proof.
  intros Hr Hrep.
  destruct (Z.lt_ge_cases r (2 ^ 53)) as [Hs|H53].
  { rewrite roundAbs_safe by lia. lia. }
  destruct (roundAbs_large r H53) as (He & Hq & Hb & Hform).
  set (e := Z.log2 r - 52) in *. set (q := Num.rne r (2 ^ e)) in *.
  assert (Hp : 2 ^ 1 <= 2 ^ e) by (apply Z.pow_le_mono_r; lia).
  change (2 ^ 1) with 2 in Hp.
  assert (H52 : 0 < 2 ^ 52) by reflexivity.
  rewrite Hrep in Hform.
  assert (Hk : exists k, r = k * 2 ^ e /\ (Num.infZ <= r -> r = Num.infZ)).
  { destruct (Z.leb_spec Num.infZ (q * 2 ^ e)) as [Hs|Hs].
    - exists (2 ^ 52). split; [|auto]. unfold e. rewrite Hform. reflexivity.
    - exists q. split; [exact Hform | lia]. }
  destruct Hk as (k & Hk & Hinf).
  assert (HL1 : Z.log2 (r + 1) = Z.log2 r).
  { apply Z.log2_unique; [lia|].
    replace (Z.log2 r) with (e + 52) by (unfold e; lia).
    replace (Z.succ (e + 52)) with (e + 53) by lia.
    rewrite !pow2_split by lia. split; [lia|].
    assert (k < 2 ^ 53) by nia. nia. }
  unfold Num.roundAbs. rewrite HL1. fold e.
  replace (Z.max 0 e) with e by lia.
  assert (Hd : (r + 1) / 2 ^ e = k).
  { symmetry. apply Z.div_unique with (r := 1); lia. }
  assert (Hge : k <= Num.rne (r + 1) (2 ^ e)).
  { destruct (rne_cases (r + 1) (2 ^ e)) as [[-> _]|[-> _]]; lia. }
  destruct (Z.leb_spec Num.infZ (Num.rne (r + 1) (2 ^ e) * 2 ^ e)) as [Hs|Hs].
  - destruct (Z.le_gt_cases Num.infZ r) as [Hi|Hi]; [rewrite (Hinf Hi); lia | lia].
  - nia.
Qed.

Lemma roundZ_succ_ge (r : Z) : 0 <= r -> Num.roundZ r = r -> r <= Num.roundZ (r + 1).
Proof.
  intros Hr Hrep. rewrite roundZ_nonneg in * by lia. now apply roundAbs_succ_ge.
Qed.

(** The rounding written out in [Num.roundZ], [Num.floorDiv] and
    [Num.toStringInt] is that of binary64: on the samples the three agree
    with the conversion, the division and the printing of doubles. *)
Example rounding_is_binary64 :
  List.forallb (fun z => Num.roundZ z =? Num.toZ (Num.ofZ z)) Num.roundingSamples = true /\
  List.forallb (fun z => String.eqb (Num.toStringInt (Num.roundZ z))
                           (Num.toString (Num.ofZ z))) Num.roundingSamples = true /\
  List.forallb (fun m => Num.floorDiv m 26 =? Num.toZ (Num.div (Num.ofZ m) (Num.ofZ 26)))
    (List.filter (Z.leb 0) (List.map Num.roundZ Num.roundingSamples)) = true.
Proof. repeat split; vm_compute; reflexivity. Qed.

(** *** The quotient by 26 *)

Lemma floorDiv_safe (m : Z) : 0 <= m < 2 ^ 53 -> Num.floorDiv m 26 = m / 26.
Proof.
  intros Hm. unfold Num.floorDiv.
  destruct (Z.leb_spec Num.infZ m) as [Hi|_].
  { exfalso. assert (2 ^ 53 < Num.infZ) by reflexivity. lia. }
  destruct (Z.ltb_spec m 26) as [Hlt|Hge]; [now rewrite Z.div_small by lia|].
  assert (Hq : 0 < m / 26) by (apply Z.div_str_pos; lia).
  assert (HL : Z.log2 (m / 26) < 49).
  { apply Z.log2_lt_pow2; [exact Hq|]. apply Z.div_lt_upper_bound; [lia|].
    rewrite pow2_53 in Hm. change (2 ^ 49) with 562949953421312. lia. }
  pose proof (Z.log2_nonneg (m / 26)) as HL0.
  set (sh := 52 - Z.log2 (m / 26)).
  assert (Hsh : 4 <= sh) by (unfold sh; lia).
  destruct (Z.leb_spec 0 sh) as [_|]; [|lia].
  assert (HS : 2 ^ 4 <= 2 ^ sh) by (apply Z.pow_le_mono_r; lia).
  change (2 ^ 4) with 16 in HS. set (S := 2 ^ sh) in *.
  pose proof (Z.div_mod m 26 ltac:(lia)) as Hdm.
  pose proof (Z.mod_pos_bound m 26 ltac:(lia)) as Hr.
  set (q := m / 26) in *. set (rho := m mod 26) in *.
  pose proof (Z.div_mod (m * S) 26 ltac:(lia)) as HX.
  pose proof (Z.mod_pos_bound (m * S) 26 ltac:(lia)) as Hb.
  set (a := (m * S) / 26) in *. set (b := (m * S) mod 26) in *.
  assert (HmS : m * S = 26 * (q * S) + rho * S) by (rewrite Hdm; ring).
  assert (HrS : 0 <= rho * S <= 25 * S) by nia.
  destruct (rne_cases (m * S) 26) as [[-> _]|[-> Hup]]; fold a.
  - symmetry. apply Z.div_unique with (r := a - q * S); lia.
  - fold b in Hup. symmetry. apply Z.div_unique with (r := a + 1 - q * S); lia.
Qed.

Lemma floorDiv_nonneg (m : Z) : 0 <= m -> 0 <= Num.floorDiv m 26.
Proof.
  intros Hm. unfold Num.floorDiv.
  destruct (Z.leb_spec Num.infZ m); [now vm_compute|].
  destruct (Z.ltb_spec m 26); [lia|].
  assert (Hr : forall num den, 0 <= num -> 0 < den -> 0 <= Num.rne num den).
  { intros num den Hn Hd. pose proof (Z.div_pos num den Hn Hd).
    destruct (rne_cases num den) as [[-> _]|[-> _]]; lia. }
  destruct (Z.leb_spec 0 (52 - Z.log2 (m / 26))).
  - apply Z.div_pos; [|apply Z.pow_pos_nonneg; lia].
    apply Hr; [|lia]. apply Z.mul_nonneg_nonneg; [lia|]. apply Z.pow_nonneg. lia.
  - apply Z.mul_nonneg_nonneg; [|apply Z.pow_nonneg; lia].
    apply Hr; [lia|]. apply Z.mul_pos_pos; [lia|]. apply Z.pow_pos_nonneg; lia.
Qed.

(** *** Decimal numerals *)

Lemma string_of_uint_digits (d : Decimal.uint) :
  Str.forallb Char.isDigit (NilEmpty.string_of_uint d) = true.
Proof. induction d; simpl; auto. Qed.

Lemma digitsToZ_from_acc (d : Decimal.uint) :
  forall acc : positive,
    digitsToZ_from (Z.pos acc) (NilEmpty.string_of_uint d) = Z.pos (Pos.of_uint_acc d acc).
Proof.
  induction d; intros acc; simpl; try reflexivity;
    match goal with
    | |- digitsToZ_from ?z _ = Z.pos (Pos.of_uint_acc _ ?q) =>
        replace z with (Z.pos q) by (unfold Char.charCode; simpl; lia)
    end; apply IHd.
Qed.

Lemma digitsToZ_string_of_uint (d : Decimal.uint) :
  digitsToZ (NilEmpty.string_of_uint d) = Z.of_N (Pos.of_uint d).
Proof.
  unfold digitsToZ. induction d; simpl; try reflexivity; try exact IHd;
    match goal with
    | |- digitsToZ_from ?z _ = Z.pos (Pos.of_uint_acc _ ?q) =>
        replace z with (Z.pos q) by (unfold Char.charCode; simpl; lia)
    end; apply digitsToZ_from_acc.
Qed.

(** The numeral of a natural row number: digits, at least one, that
    [digitsToZ] reads back. *)
Lemma Z_toString_row (r : Z) :
  0 <= r ->
  Str.forallb Char.isDigit (Z_toString r) = true /\
  Z_toString r <> "" /\
  digitsToZ (Z_toString r) = r.
Proof.
  intros Hr. unfold Z_toString. destruct r as [|p|p]; [repeat split; discriminate | | lia].
  simpl. pose proof (Unsigned.to_uint_nonnil p) as Hn.
  pose proof (Unsigned.of_to p) as Hback.
  pose proof (digitsToZ_string_of_uint (Pos.to_uint p)) as Hdig.
  pose proof (string_of_uint_digits (Pos.to_uint p)) as Hall.
  rewrite Hback in Hdig.
  destruct (Pos.to_uint p); try congruence; simpl in *; repeat split; auto; discriminate.
Qed.

Lemma digitsToZ_from_nonneg (s : string) :
  Str.forallb Char.isDigit s = true -> forall n, 0 <= n -> 0 <= digitsToZ_from n s.
Proof.
  induction s as [|c s IH]; intros Hs n Hn; simpl; [exact Hn|].
  simpl in Hs. apply andb_true_iff in Hs as [Hc Hs].
  apply IH; [exact Hs|]. unfold Char.isDigit in Hc. lia.
Qed.

(** *** [String] of a number that holds an integer *)

Lemma candidateInt_spec (z n k s p : Z) :
  0 <= z ->
  Num.candidateInt z n k = Some (s, p) ->
  0 <= s /\ Num.roundZ (s * 10 ^ p) = z.
Proof.
  intros Hz. unfold Num.candidateInt.
  assert (Hd : 0 <= 10 ^ (n - k)) by (apply Z.pow_nonneg; lia).
  pose proof (Z_div_nonneg_nonneg z (10 ^ (n - k)) Hz Hd) as Hlo.
  destruct (Z.eqb_spec (Num.roundZ (z / 10 ^ (n - k) * 10 ^ (n - k))) z) as [E1|E1];
    destruct (Z.eqb_spec (Num.roundZ ((z / 10 ^ (n - k) + 1) * 10 ^ (n - k))) z) as [E2|E2];
    simpl; try discriminate.
  - destruct (match 2 * (z mod 10 ^ (n - k)) ?= 10 ^ (n - k) with
              | Lt => false | Gt => true | Eq => Z.odd (z / 10 ^ (n - k)) end);
      intros [= <- <-]; split; auto; lia.
  - intros [= <- <-]. split; auto.
  - intros [= <- <-]. split; auto; lia.
Qed.

Lemma shortestInt_spec (fuel : nat) :
  forall z n k s p,
    0 <= z ->
    Num.shortestInt fuel z n k = (s, p) ->
    0 <= s /\ (Num.roundZ (s * 10 ^ p) = z \/ s * 10 ^ p = z).
Proof.
  induction fuel as [|fuel IH]; intros z n k s p Hz; simpl.
  - intros [= <- <-]. split; [exact Hz | right; simpl; lia].
  - destruct (Num.candidateInt z n k) as [[s' p']|] eqn:E.
    + intros [= <- <-]. destruct (candidateInt_spec _ _ _ _ _ Hz E). auto.
    + apply IH. exact Hz.
Qed.

(** Up to [2^53] a number prints as the numeral of the integer it holds. *)
Lemma toStringNat_safe (z : Z) : 0 <= z < 2 ^ 53 -> Num.toStringNat z = Z_toString z.
Proof.
  intros Hz. unfold Num.toStringNat.
  destruct (Z.leb_spec Num.infZ z) as [Hi|_].
  { exfalso. assert (2 ^ 53 < Num.infZ) by reflexivity. lia. }
  destruct (Z.eqb_spec z 0) as [->|Hn]; [reflexivity|].
  destruct (Num.shortestInt _ z _ 1) as [s p] eqn:E.
  destruct (shortestInt_spec _ z _ _ _ _ (proj1 Hz) E) as [Hs Hv].
  destruct (Z.ltb_spec z (10 ^ 21)) as [_|Hbig].
  2:{ exfalso. assert (2 ^ 53 < 10 ^ 21) by reflexivity. lia. }
  f_equal. destruct Hv as [Hv|Hv]; [|exact Hv].
  assert (Hp : 0 <= 10 ^ p) by (apply Z.pow_nonneg; lia).
  assert (H0 : 0 <= s * 10 ^ p) by (apply Z.mul_nonneg_nonneg; lia).
  destruct (Z.lt_ge_cases (s * 10 ^ p) (2 ^ 53)) as [H|H].
  - rewrite roundZ_safe in Hv by (rewrite pow2_53 in *; lia). exact Hv.
  - apply roundZ_big in H. lia.
Qed.

(** Below [10^21] a number prints as digits. *)
Lemma toStringNat_digits (z : Z) :
  0 <= z < 10 ^ 21 ->
  Str.forallb Char.isDigit (Num.toStringNat z) = true /\ Num.toStringNat z <> "".
Proof.
  intros Hz. unfold Num.toStringNat.
  destruct (Z.leb_spec Num.infZ z) as [Hi|_].
  { exfalso. assert (10 ^ 21 < Num.infZ) by reflexivity. lia. }
  destruct (Z.eqb_spec z 0) as [->|Hn]; [split; [reflexivity | discriminate]|].
  destruct (Num.shortestInt _ z _ 1) as [s p] eqn:E.
  destruct (shortestInt_spec _ z _ _ _ _ (proj1 Hz) E) as [Hs _].
  destruct (Z.ltb_spec z (10 ^ 21)) as [_|Hbig]; [|lia].
  assert (Hp : 0 <= 10 ^ p) by (apply Z.pow_nonneg; lia).
  destruct (Z_toString_row (s * 10 ^ p) ltac:(apply Z.mul_nonneg_nonneg; lia))
    as (H1 & H2 & _).
  auto.
Qed.

Lemma toStringInt_nonneg (z : Z) : 0 <= z -> Num.toStringInt z = Num.toStringNat z.
Proof.
  intros Hz. unfold Num.toStringInt. destruct (Z.ltb_spec z 0); [lia | reflexivity].
Qed.
(** ** Reference codec *)

Lemma colToNum_from_app (n : Z) (a b : string) :
  colToNum_from n (a +:+ b) = colToNum_from (colToNum_from n a) b.
Proof.
  revert n. induction a as [|c a IH]; intros n; simpl; [reflexivity | apply IH].
Qed.

Lemma numToCol_loop_acc (fuel : nat) (n : Z) (s : string) :
  numToCol_loop fuel n s = numToCol_loop fuel n "" +:+ s.
Proof.
  revert n s. induction fuel as [|fuel IH]; intros n s; simpl; [reflexivity|].
  destruct (0 <? n); [|reflexivity].
  rewrite IH. rewrite (IH _ (String _ "")).
  now rewrite append_assoc.
Qed.

(** One turn of the loop, read from the result: the letters of the quotient
    followed by the letter of the remainder. *)
Lemma numToCol_loop_step (fuel : nat) (n : Z) :
  0 < n ->
  numToCol_loop (S fuel) n "" =
  numToCol_loop fuel (Num.floorDiv (Num.roundZ (n - 1)) 26) "" +:+
  String (Char.fromCharCode (65 + Z.rem (Num.roundZ (n - 1)) 26)) "".
Proof.
  intros Hn. simpl.
  destruct (Z.ltb_spec 0 n) as [_|]; [|lia].
  apply numToCol_loop_acc.
Qed.

(** Up to [2^53] nothing is rounded. *)
Lemma numToCol_loop_step_safe (fuel : nat) (n : Z) :
  0 < n <= 2 ^ 53 ->
  numToCol_loop (S fuel) n "" =
  numToCol_loop fuel ((n - 1) / 26) "" +:+
  String (Char.fromCharCode (65 + (n - 1) mod 26)) "".
Proof.
  intros Hn. rewrite numToCol_loop_step by lia.
  rewrite roundZ_safe by (rewrite pow2_53 in *; lia).
  rewrite floorDiv_safe by (rewrite pow2_53 in *; lia).
  rewrite Z.rem_mod_nonneg by lia. reflexivity.
Qed.

Lemma colToNum_numToCol_loop (fuel : nat) :
  forall n, 0 <= n < 2 ^ Z.of_nat fuel -> n <= 2 ^ 53 ->
  colToNum (numToCol_loop fuel n "") = n.
Proof.
  induction fuel as [|fuel IH]; intros n Hn Hs.
  - simpl in *. unfold colToNum. simpl. lia.
  - destruct (Z.eq_dec n 0) as [->|Hn0]; [reflexivity|].
    rewrite numToCol_loop_step_safe by lia.
    unfold colToNum in *. rewrite colToNum_from_app. cbn [colToNum_from].
    pose proof (Z.mod_pos_bound (n - 1) 26 ltac:(lia)) as Hr.
    pose proof (Z.div_mod (n - 1) 26 ltac:(lia)) as Hdm.
    assert (Hq : 0 <= (n - 1) / 26 < 2 ^ Z.of_nat fuel).
    { split; [apply Z.div_pos; lia|].
      apply Z.div_lt_upper_bound; [lia|].
      rewrite Nat2Z.inj_succ, Z.pow_succ_r in Hn by lia. lia. }
    rewrite (IH _ Hq) by lia.
    rewrite charCode_fromCharCode by lia.
    rewrite pow2_53 in Hs.
    rewrite (roundZ_safe ((n - 1) / 26 * 26)) by (rewrite pow2_53; lia).
    rewrite roundZ_safe by (rewrite pow2_53; lia). lia.
Qed.

(** C4 (as the code has it). For every positive integer [n] up to [2^53],
    decoding the column letters produced for [n] gives [n] back:
    [colToNum (numToCol n) = n], in the bijective base-26 numbering where
    ["A"] is 1. *)
Theorem colToNum_numToCol (n : Z) : 0 < n <= 2 ^ 53 -> colToNum (numToCol n) = n.
Proof.
  intros Hn. unfold numToCol. apply colToNum_numToCol_loop; [|lia].
  split; [lia|].
  rewrite Nat2Z.inj_succ, Z2Nat.id by apply Z.log2_nonneg.
  apply Z.log2_spec. lia.
Qed.

Lemma colToNum_numToCol_witness :
  0 < 703 <= 2 ^ 53 /\ colToNum (numToCol 703) = 703.
Proof.
  assert (H : 0 < 703 <= 2 ^ 53) by (rewrite pow2_53; lia).
  split; [exact H | exact (colToNum_numToCol 703 H)].
Defined.

(** C4, counterexample. The number 2^53 + 2 is a positive integer that a
    double holds. [numToCol] first takes one off: 2^53 + 1 is no double
    and rounds to 2^53, whose remainder gives the last letter G and whose
    quotient the letters before it. [colToNum] reads 2^53 off these twelve
    letters, not 2^53 + 2. *)
Lemma colToNum_numToCol_above_2_53 :
  Num.roundZ (2 ^ 53 + 2) = 2 ^ 53 + 2 /\
  Num.roundZ (2 ^ 53 + 2 - 1) = 2 ^ 53 /\
  numToCol (2 ^ 53 + 2) = "BKTXHSOGHKKG" /\
  colToNum "BKTXHSOGHKKG" = 2 ^ 53 /\
  colToNum (numToCol (2 ^ 53 + 2)) <> 2 ^ 53 + 2.
Proof.
  do 4 (split; [vm_compute; reflexivity|]).
  vm_compute. intros H. discriminate H.
Qed.

(** *** [normalizeRef] *)

Lemma toUpper_idem (c : ascii) : Char.toUpper (Char.toUpper c) = Char.toUpper c.
Proof. destruct c as [[] [] [] [] [] [] [] []]; reflexivity. Qed.

Lemma toUpper_dollar (c : ascii) : Char.eqb (Char.toUpper c) "$" = Char.eqb c "$".
Proof. destruct c as [[] [] [] [] [] [] [] []]; reflexivity. Qed.

Lemma normalizeRef_idem (s : string) : normalizeRef (normalizeRef s) = normalizeRef s.
Proof.
  unfold normalizeRef, Str.toUpperCase.
  induction s as [|c s IH]; simpl; [reflexivity|].
  destruct (Char.eqb c "$") eqn:Ec; simpl; [exact IH|].
  rewrite toUpper_dollar, Ec. simpl. now rewrite toUpper_idem, IH.
Qed.

Lemma toUpper_not_lower (c : ascii) : Char.isLower (Char.toUpper c) = false.
Proof. destruct c as [[] [] [] [] [] [] [] []]; reflexivity. Qed.

Lemma normalizeRef_chars (s : string) :
  Str.forallb normalizedChar (normalizeRef s) = true.
Proof.
  unfold normalizeRef, Str.toUpperCase.
  induction s as [|c s IH]; simpl; [reflexivity|].
  destruct (Char.eqb c "$") eqn:Ec; simpl; [exact IH|].
  unfold normalizedChar at 1. rewrite toUpper_dollar, Ec, toUpper_not_lower. exact IH.
Qed.

Lemma normalizeRef_fixed (s : string) :
  Str.forallb normalizedChar s = true -> normalizeRef s = s.
Proof.
  unfold normalizeRef, Str.toUpperCase.
  induction s as [|c s IH]; simpl; [reflexivity|].
  intros H. apply andb_true_iff in H as [Hc Hs]. unfold normalizedChar in Hc.
  apply andb_true_iff in Hc as [Hd Hl]. rewrite Hd. simpl.
  rewrite (IH Hs). unfold Char.toUpper.
  apply negb_true_iff in Hl. now rewrite Hl.
Qed.

(** *** [splitRef] *)

Lemma isDigit_not_isUpper (c : ascii) : Char.isDigit c = true -> Char.isUpper c = false.
Proof. unfold Char.isDigit, Char.isUpper. lia. Qed.

Lemma isEmpty_false (s : string) : Str.isEmpty s = false <-> s <> "".
Proof. destruct s; simpl; split; congruence. Qed.

(** [matchRef] answers the two groups exactly on the texts made of one or
    more capital letters followed by one or more digits. *)
Lemma matchRef_Some (s l d : string) :
  matchRef s = Some (l, d) <->
  s = l +:+ d /\ l <> "" /\ d <> "" /\
  Str.forallb Char.isUpper l = true /\ Str.forallb Char.isDigit d = true.
Proof.
  unfold matchRef. split.
  - pose proof (span_append Char.isUpper s) as Happ.
    pose proof (span_forallb Char.isUpper s) as Hup.
    destruct (Str.span Char.isUpper s) as [l' d']. simpl in *.
    destruct (Str.isEmpty l') eqn:El; [discriminate|].
    destruct (Str.isEmpty d') eqn:Ed; [discriminate|].
    destruct (Str.forallb Char.isDigit d') eqn:Hd; [|discriminate].
    simpl. intros [= <- <-].
    repeat split; auto; now apply isEmpty_false.
  - intros (-> & Hl & Hd & Hup & Hdig).
    rewrite span_exact; auto.
    + apply isEmpty_false in Hl, Hd. now rewrite Hl, Hd, Hdig.
    + destruct d as [|c d]; [exact I|]. simpl in Hdig.
      apply andb_true_iff in Hdig as [Hc _]. now apply isDigit_not_isUpper.
Qed.

Lemma matchRef_None (s : string) : matchRef s = None <-> ~ refShape s.
Proof.
  split.
  - intros Hn (l & d & H). apply (matchRef_Some s l d) in H. congruence.
  - intros Hn. destruct (matchRef s) as [[l d]|] eqn:E; [|reflexivity].
    exfalso. apply Hn. exists l, d. now apply matchRef_Some.
Qed.



(** *** Range expansion *)

Lemma split_noColon (s : string) :
  Str.forallb noColon s = true -> Str.split ":" s = [s].
Proof.
  induction s as [|c s IH]; simpl; [reflexivity|].
  intros H. apply andb_true_iff in H as [Hc Hs]. unfold noColon in Hc.
  apply negb_true_iff in Hc. rewrite Hc, (IH Hs). reflexivity.
Qed.

Lemma split_pair (a b : string) :
  Str.forallb noColon a = true -> Str.forallb noColon b = true ->
  Str.split ":" (a +:+ ":" +:+ b) = [a; b].
Proof.
  intros Ha Hb. induction a as [|c a IH]; simpl in *.
  - now rewrite split_noColon.
  - apply andb_true_iff in Ha as [Hc Ha]. unfold noColon in Hc.
    apply negb_true_iff in Hc. rewrite Hc, (IH Ha). reflexivity.
Qed.

Lemma normalizeRef_refChar_noColon (s : string) :
  Str.forallb refChar (normalizeRef s) = true -> Str.forallb noColon s = true.
Proof.
  unfold normalizeRef, Str.toUpperCase.
  induction s as [|c s IH]; simpl; [reflexivity|].
  destruct (Char.eqb c "$") eqn:Ed; simpl.
  - intros H. rewrite (IH H), andb_true_r.
    apply Char_eqb_eq in Ed. subst c. reflexivity.
  - intros H. apply andb_true_iff in H as [Hc Hs]. rewrite (IH Hs), andb_true_r.
    unfold noColon. destruct (Char.eqb c ":") eqn:Ec; [|reflexivity].
    apply Char_eqb_eq in Ec. subst c. discriminate Hc.
Qed.

Lemma forallb_impl (p q : ascii -> bool) (s : string) :
  (forall c, p c = true -> q c = true) ->
  Str.forallb p s = true -> Str.forallb q s = true.
Proof.
  intros Hpq. induction s as [|c s IH]; simpl; [reflexivity|].
  intros H. apply andb_true_iff in H as [Hc Hs]. now rewrite (Hpq _ Hc), IH.
Qed.

Lemma splitRef_Ok_noColon (s : string) (p : cellpos) :
  splitRef (normalizeRef s) = Ok p -> Str.forallb noColon s = true.
Proof.
  unfold splitRef. intros H.
  destruct (matchRef (normalizeRef s)) as [[l d]|] eqn:E; [|discriminate].
  apply matchRef_Some in E as (Hs & _ & _ & Hl & Hd).
  apply normalizeRef_refChar_noColon. rewrite Hs, forallb_app.
  apply andb_true_iff. split.
  - eapply forallb_impl; [|exact Hl]. intros c Hc. unfold refChar. now rewrite Hc.
  - eapply forallb_impl; [|exact Hd]. intros c Hc. unfold refChar. rewrite Hc. apply orb_true_r.
Qed.

Lemma Zrange_length (lo hi : Z) : List.length (Zrange lo hi) = Z.to_nat (hi - lo + 1).
Proof. unfold Zrange. now rewrite List.length_map, List.length_seq. Qed.

Lemma Zrange_nth (lo hi : Z) (i : nat) (d : Z) :
  (i < Z.to_nat (hi - lo + 1))%nat -> nth i (Zrange lo hi) d = lo + Z.of_nat i.
Proof.
  intros Hi. unfold Zrange.
  rewrite (nth_indep _ d (lo + Z.of_nat 0)) by now rewrite List.length_map, List.length_seq.
  rewrite (List.map_nth (fun i => lo + Z.of_nat i)), List.seq_nth by exact Hi.
  reflexivity.
Qed.

(** In a concatenation of rows of the same width [w], the element at
    [i * w + j] is the [j]-th of the [i]-th row. *)
Lemma nth_flat_map_rows {A B : Type} (g : A -> list B) (w : nat) (l : list A)
    (da : A) (db : B) :
  (forall x, List.length (g x) = w) ->
  forall i j, (i < List.length l)%nat -> (j < w)%nat ->
  nth (i * w + j) (flat_map g l) db = nth j (g (nth i l da)) db.
Proof.
  intros Hw. induction l as [|x l IH]; intros i j Hi Hj; simpl in *; [lia|].
  destruct i as [|i]; simpl.
  - rewrite List.app_nth1 by (rewrite Hw; exact Hj). reflexivity.
  - rewrite List.app_nth2 by (rewrite Hw; lia).
    rewrite Hw. replace (w + i * w + j - w)%nat with (i * w + j)%nat by lia.
    apply IH; lia.
Qed.

Lemma length_flat_map_rows {A B : Type} (g : A -> list B) (w : nat) (l : list A) :
  (forall x, List.length (g x) = w) ->
  List.length (flat_map g l) = (List.length l * w)%nat.
Proof.
  intros Hw. induction l as [|x l IH]; simpl; [reflexivity|].
  now rewrite List.length_app, Hw, IH.
Qed.

Lemma Zrange_cons (lo hi : Z) : lo <= hi -> Zrange lo hi = lo :: Zrange (lo + 1) hi.
Proof.
  intros H. unfold Zrange.
  replace (Z.to_nat (hi - lo + 1)) with (S (Z.to_nat (hi - (lo + 1) + 1))) by lia.
  cbn [seq List.map]. f_equal; [lia|].
  rewrite <- List.seq_shift, List.map_map. apply List.map_ext. intros i. lia.
Qed.

Lemma Zrange_nil (lo hi : Z) : hi < lo -> Zrange lo hi = [].
Proof.
  intros H. unfold Zrange. now replace (Z.to_nat (hi - lo + 1)) with 0%nat by lia.
Qed.

(** The loops count without rounding as long as the last column and the
    last row are below [2^53]; they then return the references of the
    box. *)
Lemma expandRange_cols_safe (fuel : nat) :
  forall r c colEnd out,
    0 <= c <= colEnd + 1 -> colEnd < 2 ^ 53 ->
    (Z.to_nat (colEnd - c + 2) <= fuel)%nat ->
    expandRange_cols fuel r c colEnd out =
    Ok (out ++ List.map (fun c => numToCol c +:+ Num.toStringInt r) (Zrange c colEnd)).
Proof.
  induction fuel as [|fuel IH]; intros r c colEnd out Hc He Hf; [lia|].
  simpl. destruct (Z.leb_spec c colEnd) as [Hle|Hgt].
  - rewrite roundZ_safe by (rewrite pow2_53 in *; lia).
    rewrite IH by lia. rewrite (Zrange_cons c colEnd) by exact Hle.
    cbn [List.map]. now rewrite <- List.app_assoc.
  - rewrite Zrange_nil by lia. cbn [List.map]. now rewrite List.app_nil_r.
Qed.

Lemma expandRange_rows_safe (fuel colFuel : nat) (colStart colEnd : Z) :
  0 <= colStart <= colEnd -> colEnd < 2 ^ 53 ->
  (Z.to_nat (colEnd - colStart + 2) <= colFuel)%nat ->
  forall r rowEnd out,
    0 <= r <= rowEnd + 1 -> rowEnd < 2 ^ 53 ->
    (Z.to_nat (rowEnd - r + 2) <= fuel)%nat ->
    expandRange_rows fuel colFuel r rowEnd colStart colEnd out =
    Ok (out ++
        flat_map (fun r =>
          List.map (fun c => numToCol c +:+ Num.toStringInt r) (Zrange colStart colEnd))
        (Zrange r rowEnd)).
Proof.
  intros Hc Hce Hcf.
  induction fuel as [|fuel IH]; intros r rowEnd out Hr He Hf; [lia|].
  simpl. destruct (Z.leb_spec r rowEnd) as [Hle|Hgt].
  - rewrite expandRange_cols_safe by lia. cbn [rbind].
    rewrite roundZ_safe by (rewrite pow2_53 in *; lia).
    rewrite IH by lia. rewrite (Zrange_cons r rowEnd) by exact Hle.
    cbn [flat_map]. now rewrite <- List.app_assoc.
  - rewrite (Zrange_nil r rowEnd) by lia. cbn [flat_map]. now rewrite List.app_nil_r.
Qed.

(** The letters [numToCol] produces are capital letters. *)
Lemma numToCol_loop_upper (fuel : nat) :
  forall n s, Str.forallb Char.isUpper s = true ->
  Str.forallb Char.isUpper (numToCol_loop fuel n s) = true.
Proof.
  induction fuel as [|fuel IH]; intros n s Hs; simpl; [exact Hs|].
  destruct (Z.ltb_spec 0 n) as [Hn|_]; [|exact Hs].
  apply IH. simpl. rewrite Hs, andb_true_r.
  pose proof (roundZ_ge0 (n - 1) ltac:(lia)) as Hm.
  rewrite Z.rem_mod_nonneg by lia.
  pose proof (Z.mod_pos_bound (Num.roundZ (n - 1)) 26 ltac:(lia)) as Hr.
  unfold Char.isUpper. rewrite charCode_fromCharCode by lia.
  apply andb_true_iff. split; apply Z.leb_le; lia.
Qed.

Lemma numToCol_upper (n : Z) : Str.forallb Char.isUpper (numToCol n) = true.
Proof. apply numToCol_loop_upper. reflexivity. Qed.

Lemma numToCol_nonempty (c : Z) : 0 < c -> numToCol c <> "".
Proof.
  intros Hc H. unfold numToCol in H. rewrite numToCol_loop_step in H by exact Hc.
  destruct (numToCol_loop _ _ ""); discriminate.
Qed.

Lemma isUpper_code (c : ascii) :
  Char.isUpper c = true -> 1 <= Char.charCode c - 64 <= 26.
Proof. unfold Char.isUpper. lia. Qed.

Lemma colToNum_from_pos (s : string) :
  Str.forallb Char.isUpper s = true ->
  forall n, 0 <= n -> 0 <= colToNum_from n s /\ (s <> "" -> 0 < colToNum_from n s).
Proof.
  induction s as [|c s IH]; intros Hs n Hn; simpl.
  - split; [lia | congruence].
  - simpl in Hs. apply andb_true_iff in Hs as [Hc Hs].
    pose proof (isUpper_code c Hc).
    pose proof (roundZ_ge0 (n * 26) ltac:(lia)) as H1.
    pose proof (roundZ_pos (Num.roundZ (n * 26) + (Char.charCode c - 64)) ltac:(lia)) as H2.
    destruct (IH Hs _ (Z.lt_le_incl _ _ H2)) as [H3 H4].
    split; [exact H3|]. intros _.
    destruct s as [|c' s']; [exact H2 | apply H4; discriminate].
Qed.

(** What [splitRef] answers: letters that decode to a column from 1 on,
    and a row from 0 on. *)
Lemma splitRef_Ok_bounds (s : string) (p : cellpos) :
  splitRef s = Ok p -> 0 < colToNum (col p) /\ 0 <= row p.
Proof.
  unfold splitRef. destruct (matchRef s) as [[l d]|] eqn:E; [|discriminate].
  intros [= <-]. apply matchRef_Some in E as (_ & Hl & _ & Hup & Hdig). simpl. split.
  - unfold colToNum. now apply (colToNum_from_pos l Hup 0).
  - apply roundZ_ge0. unfold digitsToZ. now apply digitsToZ_from_nonneg.
Qed.

Lemma expandRange_cols_not_Throw (fuel : nat) :
  forall r c colEnd out msg, expandRange_cols fuel r c colEnd out <> Throw msg.
Proof.
  induction fuel as [|fuel IH]; intros r c colEnd out msg; simpl; [discriminate|].
  destruct (c <=? colEnd); [apply IH | discriminate].
Qed.

Lemma expandRange_rows_not_Throw (fuel colFuel : nat) :
  forall r rowEnd colStart colEnd out msg,
    expandRange_rows fuel colFuel r rowEnd colStart colEnd out <> Throw msg.
Proof.
  induction fuel as [|fuel IH]; intros r rowEnd colStart colEnd out msg; simpl;
    [discriminate|].
  destruct (r <=? rowEnd); [|discriminate].
  destruct (expandRange_cols colFuel r colStart colEnd out) as [out'|m|] eqn:E; simpl.
  - apply IH.
  - now destruct (expandRange_cols_not_Throw _ _ _ _ _ _ E).
  - discriminate.
Qed.

(** The rows and columns of the box are the bounds of the two loops,
    whichever corner is written first. *)
Lemma expandRange_corners (a b : string) (pa pb : cellpos) :
  splitRef (normalizeRef a) = Ok pa ->
  splitRef (normalizeRef b) = Ok pb ->
  let c0 := Z.min (colToNum (col pa)) (colToNum (col pb)) in
  let c1 := Z.max (colToNum (col pa)) (colToNum (col pb)) in
  let r0 := Z.min (row pa) (row pb) in
  let r1 := Z.max (row pa) (row pb) in
  expandRange (a +:+ ":" +:+ b) =
  expandRange_rows (loopFuel r0 r1) (loopFuel c0 c1) r0 r1 c0 c1 [] /\
  expandRange (b +:+ ":" +:+ a) =
  expandRange_rows (loopFuel r0 r1) (loopFuel c0 c1) r0 r1 c0 c1 [].
Proof.
  intros Ha Hb c0 c1 r0 r1.
  pose proof (splitRef_Ok_noColon _ _ Ha) as Na.
  pose proof (splitRef_Ok_noColon _ _ Hb) as Nb.
  split.
  - unfold expandRange. rewrite split_pair by assumption. cbn [List.map nth].
    rewrite Ha. cbn [rbind]. rewrite Hb. reflexivity.
  - unfold expandRange. rewrite split_pair by assumption. cbn [List.map nth].
    rewrite Hb. cbn [rbind]. rewrite Ha. cbn [rbind].
    rewrite (Z.min_comm (colToNum (col pb))), (Z.max_comm (colToNum (col pb))),
      (Z.min_comm (row pb)), (Z.max_comm (row pb)).
    reflexivity.
Qed.

Lemma flat_map_ext_In {A B : Type} (g1 g2 : A -> list B) (l : list A) :
  (forall x, In x l -> g1 x = g2 x) -> flat_map g1 l = flat_map g2 l.
Proof.
  induction l as [|x l IH]; intros H; simpl; [reflexivity|].
  rewrite (H x) by now left. rewrite IH; [reflexivity|].
  intros y Hy. apply H. now right.
Qed.

(** With the last column and the last row below [2^53] the loops return
    the box. *)
Lemma expandRange_box (a b : string) (pa pb : cellpos) :
  splitRef (normalizeRef a) = Ok pa ->
  splitRef (normalizeRef b) = Ok pb ->
  let c0 := Z.min (colToNum (col pa)) (colToNum (col pb)) in
  let c1 := Z.max (colToNum (col pa)) (colToNum (col pb)) in
  let r0 := Z.min (row pa) (row pb) in
  let r1 := Z.max (row pa) (row pb) in
  c1 < 2 ^ 53 -> r1 < 2 ^ 53 ->
  expandRange (a +:+ ":" +:+ b) =
  Ok (flat_map (fun r => List.map (fun c => numToCol c +:+ Z_toString r) (Zrange c0 c1))
        (Zrange r0 r1)).
Proof.
  intros Ha Hb c0 c1 r0 r1 Hc1 Hr1.
  destruct (splitRef_Ok_bounds _ _ Ha) as [Hca Hra].
  destruct (splitRef_Ok_bounds _ _ Hb) as [Hcb Hrb].
  rewrite (proj1 (expandRange_corners a b pa pb Ha Hb)). fold c0 c1 r0 r1.
  unfold loopFuel.
  rewrite (expandRange_rows_safe _ _ c0 c1) by (unfold c0, c1, r0, r1 in *; lia).
  cbn [app]. f_equal. apply flat_map_ext_In. intros r Hr.
  unfold Zrange in Hr. apply List.in_map_iff in Hr as (i & <- & Hi).
  apply List.in_seq in Hi.
  rewrite toStringInt_nonneg, toStringNat_safe by (unfold r0, r1 in *; lia).
  reflexivity.
Qed.

(** C5 (as the code has it). For corner references [a] and [b] that
    [splitRef] accepts once normalized, [expandRange] does the same
    whichever corner is written first. When the last column and the last
    row of the box are below [2^53] and the box has fewer than [2^32]
    cells, the most an array holds, it returns the references of the box
    [min col, max col] x [min row, max row], row by row, each row from the
    first column to the last. In particular A1:C3 and C3:A1 both expand to
    A1,B1,C1,A2,B2,C2,A3,B3,C3. *)
Theorem expandRange_corner_order :
  (forall (a b : string) (pa pb : cellpos),
      splitRef (normalizeRef a) = Ok pa ->
      splitRef (normalizeRef b) = Ok pb ->
      let c0 := Z.min (colToNum (col pa)) (colToNum (col pb)) in
      let c1 := Z.max (colToNum (col pa)) (colToNum (col pb)) in
      let r0 := Z.min (row pa) (row pb) in
      let r1 := Z.max (row pa) (row pb) in
      let w := Z.to_nat (c1 - c0 + 1) in
      let h := Z.to_nat (r1 - r0 + 1) in
      expandRange (a +:+ ":" +:+ b) = expandRange (b +:+ ":" +:+ a) /\
      (c1 < 2 ^ 53 -> r1 < 2 ^ 53 -> Z.of_nat h * Z.of_nat w < 2 ^ 32 ->
       exists out : list string,
         expandRange (a +:+ ":" +:+ b) = Ok out /\
         expandRange (b +:+ ":" +:+ a) = Ok out /\
         List.length out = (h * w)%nat /\
         forall i j : nat, (i < h)%nat -> (j < w)%nat ->
           nth (i * w + j) out "" =
           numToCol (c0 + Z.of_nat j) +:+ Z_toString (r0 + Z.of_nat i))) /\
  expandRange "A1:C3" = Ok ["A1"; "B1"; "C1"; "A2"; "B2"; "C2"; "A3"; "B3"; "C3"] /\
  expandRange "C3:A1" = Ok ["A1"; "B1"; "C1"; "A2"; "B2"; "C2"; "A3"; "B3"; "C3"].
Proof.
  split; [|split; vm_compute; reflexivity].
  intros a b pa pb Ha Hb c0 c1 r0 r1 w h.
  destruct (expandRange_corners a b pa pb Ha Hb) as [Hab Hba].
  split; [now rewrite Hab, Hba|].
  intros Hc1 Hr1 _.
  set (g := fun r : Z => List.map (fun c => numToCol c +:+ Z_toString r) (Zrange c0 c1)).
  exists (flat_map g (Zrange r0 r1)).
  assert (Hw : forall x, List.length (g x) = w).
  { intros x. unfold g. now rewrite List.length_map, Zrange_length. }
  assert (Hbox : expandRange (a +:+ ":" +:+ b) = Ok (flat_map g (Zrange r0 r1)))
    by now apply expandRange_box.
  split; [exact Hbox|]. split; [rewrite Hba, <- Hab; exact Hbox|]. split.
  - rewrite (length_flat_map_rows g w) by exact Hw. now rewrite Zrange_length.
  - intros i j Hi Hj.
    rewrite (nth_flat_map_rows g w _ 0 "") by (try rewrite Zrange_length; assumption).
    rewrite Zrange_nth by exact Hi. unfold g.
    rewrite (nth_indep _ "" ((fun c => numToCol c +:+ Z_toString (r0 + Z.of_nat i)) 0))
      by (rewrite List.length_map, Zrange_length; exact Hj).
    rewrite (List.map_nth (fun c => numToCol c +:+ Z_toString (r0 + Z.of_nat i))).
    rewrite Zrange_nth by exact Hj.
    reflexivity.
Qed.

Lemma expandRange_corner_order_witness :
  expandRange ("$a$1" +:+ ":" +:+ "C3") = expandRange ("C3" +:+ ":" +:+ "$a$1") /\
  exists out : list string,
    expandRange ("$a$1" +:+ ":" +:+ "C3") = Ok out /\
    List.length out = 9%nat.
Proof.
  destruct (proj1 expandRange_corner_order "$a$1" "C3"
              {| col := "A"; row := 1 |} {| col := "C"; row := 3 |}
              eq_refl eq_refl) as (H0 & H).
  split; [exact H0|].
  destruct H as (out & H1 & _ & H2 & _);
    [vm_compute; reflexivity | vm_compute; reflexivity | vm_compute; reflexivity |].
  exists out. split; assumption.
Defined.

(** C5, counterexample. A9007199254740992 is a well-formed reference whose
    row is 2^53. The row counter of [expandRange] cannot pass it: 2^53 + 1
    rounds back to 2^53, so the outer loop tests the same row again and
    again and the expansion never returns, whatever bound the model is
    given. *)
Lemma expandRange_never_returns :
  splitRef (normalizeRef "A9007199254740992") = Ok {| col := "A"; row := 2 ^ 53 |} /\
  Num.roundZ (2 ^ 53 + 1) = 2 ^ 53 /\
  expandRange "A9007199254740992:A9007199254740992" = Fuel /\
  (forall (fuel colFuel : nat) (out : list string),
      expandRange_rows fuel colFuel (2 ^ 53) (2 ^ 53) 1 1 out = Fuel).
Proof.
  split; [vm_compute; reflexivity|]. split; [vm_compute; reflexivity|].
  split; [vm_compute; reflexivity|].
  intros fuel colFuel. induction fuel as [|fuel IH]; intros out; [reflexivity|].
  cbn [expandRange_rows]. rewrite Z.leb_refl.
  destruct (expandRange_cols colFuel (2 ^ 53) 1 1 out) as [out'|msg|] eqn:E; cbn [rbind].
  - replace (Num.roundZ (2 ^ 53 + 1)) with (2 ^ 53) by (vm_compute; reflexivity).
    apply IH.
  - now destruct (expandRange_cols_not_Throw _ _ _ _ _ _ E).
  - reflexivity.
Qed.
(** ** Tokenizer *)

Lemma rbind_Ok {A B} (r : result A) (k : A -> result B) (b : B) :
  rbind r k = Ok b -> exists a, r = Ok a /\ k a = Ok b.
Proof. destruct r; simpl; intros H; try discriminate. eauto. Qed.

Lemma span_length (p : ascii -> bool) (s : string) :
  (String.length (snd (Str.span p s)) <= String.length s)%nat.
Proof.
  induction s as [|c s IH]; simpl; [lia|].
  destruct (p c); simpl; [|lia].
  destruct (Str.span p s) as [a b]. simpl in *. lia.
Qed.

Lemma scanString_length_aux (n : nat) :
  forall s out, (String.length s <= n)%nat ->
  (String.length (snd (scanString s out)) <= String.length s)%nat.
Proof.
  induction n as [|n IH]; intros s out Hs.
  - destruct s; simpl in *; lia.
  - destruct s as [|c r]; simpl in *; [lia|].
    destruct (Char.eqb c dquote).
    + destruct r as [|c' r']; simpl in *; [lia|].
      destruct (Char.eqb c' dquote); simpl; [|lia].
      pose proof (IH r' (out +:+ String dquote "") ltac:(lia)). lia.
    + pose proof (IH r (out +:+ String c "") ltac:(lia)). lia.
Qed.

Lemma scanString_length (s out : string) :
  (String.length (snd (scanString s out)) <= String.length s)%nat.
Proof. apply (scanString_length_aux (String.length s)). lia. Qed.

Lemma drop2_length (s : string) :
  (String.length (Str.drop2 s) <= String.length s)%nat.
Proof. destruct s as [|a [|b r]]; simpl; lia. Qed.

(** The bound of [tokenize] is never reached: every turn of the loop
    consumes at least one character. *)
Lemma tokenize_loop_total (formula : string) (fuel : nat) :
  forall s, (String.length s < fuel)%nat -> tokenize_loop fuel formula s <> Fuel.
Proof.
  induction fuel as [|fuel IH]; intros s Hs; [lia|].
  assert (Hb : forall (t : token) s', (String.length s' < fuel)%nat ->
            (ts <-r tokenize_loop fuel formula s' ;; Ok (t :: ts)) <> Fuel).
  { intros t s' Hs'. specialize (IH s' Hs').
    destruct (tokenize_loop fuel formula s'); simpl; congruence. }
  simpl. destruct s as [|ch rest]; [discriminate|]. simpl in Hs.
  destruct (Char.isSpace ch); [apply IH; lia|].
  destruct (Char.eqb ch dquote).
  { pose proof (scanString_length rest "") as Hl.
    destruct (scanString rest "") as [out rest']. simpl in Hl. apply Hb. lia. }
  destruct (isTwoCharOp (Str.slice2 (String ch rest))).
  { apply Hb. pose proof (drop2_length (String ch rest)) as Hl.
    destruct rest; simpl in *; lia. }
  destruct (isSingleOp ch); [apply Hb; lia|].
  destruct (Char.isDigit ch || _).
  { pose proof (span_length isNumberPart rest) as Hl.
    destruct (Str.span isNumberPart rest) as [body rest']. simpl in Hl. apply Hb. lia. }
  destruct (isIdentStart ch); [|discriminate].
  pose proof (span_length isIdentPart rest) as Hl.
  destruct (Str.span isIdentPart rest) as [body rest']. simpl in Hl. apply Hb. lia.
Qed.

Lemma tokenize_total (formula : string) : tokenize formula <> Fuel.
Proof. unfold tokenize. apply tokenize_loop_total. lia. Qed.

Lemma tokenize_loop_numbers (formula : string) (fuel : nat) :
  forall s ts, tokenize_loop fuel formula s = Ok ts ->
  Forall (fun t => type t = TNumber -> numberTokenShape (value t)) ts.
Proof.
  induction fuel as [|fuel IH]; intros s ts H; [discriminate|].
  simpl in H. destruct s as [|ch rest]; [injection H as <-; constructor|].
  destruct (Char.isSpace ch); [eapply IH; eassumption|].
  destruct (Char.eqb ch dquote).
  { destruct (scanString rest "") as [out rest'].
    apply rbind_Ok in H as (ts' & H1 & [= <-]).
    constructor; [discriminate | eapply IH; eassumption]. }
  destruct (isTwoCharOp (Str.slice2 (String ch rest))).
  { apply rbind_Ok in H as (ts' & H1 & [= <-]).
    constructor; [discriminate | eapply IH; eassumption]. }
  destruct (isSingleOp ch).
  { apply rbind_Ok in H as (ts' & H1 & [= <-]).
    constructor; [discriminate | eapply IH; eassumption]. }
  destruct (Char.isDigit ch || _) eqn:Hnum.
  { pose proof (span_forallb isNumberPart rest) as Hbody.
    destruct (Str.span isNumberPart rest) as [body rest'] eqn:Hspan. simpl in Hbody.
    apply rbind_Ok in H as (ts' & H1 & [= <-]).
    constructor; [|eapply IH; eassumption].
    intros _. simpl. split; [exact Hbody|].
    apply orb_true_iff in Hnum as [Hd|Hdot]; [now left | right].
    apply andb_true_iff in Hdot as [Hc Hd]. apply Char_eqb_eq in Hc.
    split; [exact Hc|].
    destruct rest as [|d rest0]; [discriminate|].
    simpl in Hspan. unfold isNumberPart at 1 in Hspan. rewrite Hd in Hspan. simpl in Hspan.
    destruct (Str.span isNumberPart rest0) as [a b]. injection Hspan as <- <-. eauto. }
  destruct (isIdentStart ch); [|discriminate].
  destruct (Str.span isIdentPart rest) as [body rest'].
  apply rbind_Ok in H as (ts' & H1 & [= <-]).
  constructor; [discriminate | eapply IH; eassumption].
Qed.

(** C7 (as the code has it). Every number token the tokenizer produces is
    a digit, or a point immediately followed by a digit, and then any run
    of digits and points; the points are not counted. *)
Theorem tokenize_number_tokens (formula : string) (ts : list token) (t : token) :
  tokenize formula = Ok ts -> In t ts -> type t = TNumber ->
  numberTokenShape (value t).
Proof.
  intros H Hin Hty. unfold tokenize in H.
  apply tokenize_loop_numbers in H.
  rewrite List.Forall_forall in H. now apply H.
Qed.

Lemma tokenize_number_tokens_witness :
  numberTokenShape ".5" /\ numberTokenShape "1.2.3".
Proof.
  split.
  - apply (tokenize_number_tokens "2*.5"
             [ {| type := TNumber; value := "2" |}; {| type := TOp; value := "*" |};
               {| type := TNumber; value := ".5" |} ]
             {| type := TNumber; value := ".5" |});
      [reflexivity | simpl; tauto | reflexivity].
  - apply (tokenize_number_tokens "1.2.3" [ {| type := TNumber; value := "1.2.3" |} ]
             {| type := TNumber; value := "1.2.3" |});
      [reflexivity | simpl; tauto | reflexivity].
Defined.

(** C7, counterexample. The formula 1.2.3 is one number token with two
    points. *)
Lemma tokenize_two_points :
  tokenize "1.2.3" = Ok [ {| type := TNumber; value := "1.2.3" |} ] /\
  Str.count "." "1.2.3" = 2%nat.
Proof. split; reflexivity. Qed.

(** ** Parser: the bound on the descent is never reached *)

Lemma below_bind {A B : Type} (n m : nat) (r : result (A * list token))
    (k : A * list token -> result (B * list token)) :
  below n r ->
  (forall p, (List.length (snd p) < n)%nat -> below m (k p)) ->
  below m (rbind r k).
Proof. destruct r as [p| |]; simpl; auto. Qed.

Lemma below_mono {A : Type} (n m : nat) (r : result (A * list token)) :
  (n <= m)%nat -> below n r -> below m r.
Proof. destruct r as [p| |]; simpl; auto. lia. Qed.

Lemma acceptOp_Some (op : string) (ts r : list token) :
  acceptOp op ts = Some r -> exists t, ts = t :: r.
Proof.
  destruct ts as [|t ts]; simpl; [discriminate|].
  destruct (isOp t op); [|discriminate]. intros [= <-]. eauto.
Qed.

Section ParserBounds.

Variable formula : string.

(** Every parsing function consumes at least one token when it returns;
    the loops return no more tokens than they were given. *)
Lemma parse_consumes (fuel : nat) :
  (forall ts, below (List.length ts) (parseExpr formula fuel ts)) /\
  (forall ts, below (List.length ts) (parseCompare formula fuel ts)) /\
  (forall node ts, below (S (List.length ts)) (parseCompare_loop formula fuel node ts)) /\
  (forall ts, below (List.length ts) (parseConcat formula fuel ts)) /\
  (forall node ts, below (S (List.length ts)) (parseConcat_loop formula fuel node ts)) /\
  (forall ts, below (List.length ts) (parseAdd formula fuel ts)) /\
  (forall node ts, below (S (List.length ts)) (parseAdd_loop formula fuel node ts)) /\
  (forall ts, below (List.length ts) (parseMul formula fuel ts)) /\
  (forall node ts, below (S (List.length ts)) (parseMul_loop formula fuel node ts)) /\
  (forall ts, below (List.length ts) (parseUnary formula fuel ts)) /\
  (forall ts, below (List.length ts) (parsePrimary formula fuel ts)) /\
  (forall args ts, below (List.length ts) (parseArgs formula fuel args ts)).
Proof.
  induction fuel as [|fuel IH]; [repeat split; intros; exact I|].
  destruct IH as (HE & HC & HCl & HK & HKl & HA & HAl & HM & HMl & HU & HP & HG).
  assert (Hloop : forall (first : nat -> list token -> result (ast * list token))
                    (loop : nat -> ast -> list token -> result (ast * list token))
                    (mk : ast -> ast) r n,
             (forall ts, below (List.length ts) (first fuel ts)) ->
             (forall node ts, below (S (List.length ts)) (loop fuel node ts)) ->
             (List.length r < n)%nat ->
             below n (p <-r first fuel r ;; loop fuel (mk (fst p)) (snd p))).
  { intros first loop mk r n Hf Hl Hn.
    apply (below_bind (List.length r)); [apply Hf|].
    intros p Hp. eapply below_mono; [|apply Hl]. lia. }
  repeat split.
  - intros ts. apply HC.
  - intros ts. simpl. apply (below_bind (List.length ts)); [apply HK|].
    intros p Hp. eapply below_mono; [|apply HCl]. lia.
  - intros node ts. simpl. destruct ts as [|t r]; [simpl; lia|].
    destruct (isOpIn t _); [|simpl; lia].
    apply (Hloop (parseConcat formula) (parseCompare_loop formula) (Bin (value t) node));
      auto; simpl; lia.
  - intros ts. simpl. apply (below_bind (List.length ts)); [apply HA|].
    intros p Hp. eapply below_mono; [|apply HKl]. lia.
  - intros node ts. simpl. destruct (acceptOp "&" ts) as [r|] eqn:E; [|simpl; lia].
    apply acceptOp_Some in E as [t ->].
    apply (Hloop (parseAdd formula) (parseConcat_loop formula) (Bin "&" node));
      auto; simpl; lia.
  - intros ts. simpl. apply (below_bind (List.length ts)); [apply HM|].
    intros p Hp. eapply below_mono; [|apply HAl]. lia.
  - intros node ts. simpl. destruct ts as [|t r]; [simpl; lia|].
    destruct (isOpIn t _); [|simpl; lia].
    apply (Hloop (parseMul formula) (parseAdd_loop formula) (Bin (value t) node));
      auto; simpl; lia.
  - intros ts. simpl. apply (below_bind (List.length ts)); [apply HU|].
    intros p Hp. eapply below_mono; [|apply HMl]. lia.
  - intros node ts. simpl. destruct ts as [|t r]; [simpl; lia|].
    destruct (isOpIn t _); [|simpl; lia].
    apply (Hloop (parseUnary formula) (parseMul_loop formula) (Bin (value t) node));
      auto; simpl; lia.
  - intros ts. simpl. destruct ts as [|t r]; [apply HP|].
    destruct (isOpIn t _); [|apply HP].
    apply (below_bind (List.length r)); [apply HU|].
    intros p Hp. simpl. lia.
  - intros ts. simpl. destruct ts as [|t r]; [exact I|].
    destruct (isOp t "(").
    { apply (below_bind (List.length r)); [apply HE|].
      intros p Hp. destruct (acceptOp ")" (snd p)) as [r'|] eqn:E; [|exact I].
      apply acceptOp_Some in E as [t' E]. rewrite E in Hp. simpl in *. lia. }
    destruct (type t); try (simpl; lia).
    destruct (acceptOp "(" r) as [r1|] eqn:E1.
    { apply acceptOp_Some in E1 as [t1 ->].
      destruct (acceptOp ")" r1) as [r2|] eqn:E2.
      - apply acceptOp_Some in E2 as [t2 ->]. simpl. lia.
      - apply (below_bind (List.length r1)); [apply HG|].
        intros p Hp. simpl. lia. }
    destruct (acceptOp ":" r) as [r1|] eqn:E2.
    { apply acceptOp_Some in E2 as [t1 ->].
      destruct r1 as [|t2 r2]; [exact I|].
      destruct (type t2); try exact I. simpl. lia. }
    destruct (isCellRef _); simpl; lia.
  - intros args ts. simpl. apply (below_bind (List.length ts)); [apply HE|].
    intros p Hp. destruct (acceptOp ")" (snd p)) as [r|] eqn:E.
    { apply acceptOp_Some in E as [t E]. rewrite E in Hp. simpl in *. lia. }
    destruct (acceptOp "," (snd p)) as [r|] eqn:E'; [|exact I].
    apply acceptOp_Some in E' as [t E']. rewrite E' in Hp. simpl in Hp.
    eapply below_mono; [|apply HG]. lia.
Qed.

End ParserBounds.

Lemma rbind_not_Fuel {A B : Type} (r : result A) (k : A -> result B) :
  r <> Fuel -> (forall a, r = Ok a -> k a <> Fuel) -> rbind r k <> Fuel.
Proof. destruct r as [a| |]; simpl; intros H1 H2; auto; discriminate. Qed.

Section ParserTotal.

Variable formula : string.

Lemma parse_never_Fuel (fuel : nat) :
  (forall ts, (9 * List.length ts + 7 <= fuel)%nat -> parseExpr formula fuel ts <> Fuel) /\
  (forall ts, (9 * List.length ts + 6 <= fuel)%nat -> parseCompare formula fuel ts <> Fuel) /\
  (forall node ts, (9 * List.length ts + 1 <= fuel)%nat ->
                   parseCompare_loop formula fuel node ts <> Fuel) /\
  (forall ts, (9 * List.length ts + 5 <= fuel)%nat -> parseConcat formula fuel ts <> Fuel) /\
  (forall node ts, (9 * List.length ts + 1 <= fuel)%nat ->
                   parseConcat_loop formula fuel node ts <> Fuel) /\
  (forall ts, (9 * List.length ts + 4 <= fuel)%nat -> parseAdd formula fuel ts <> Fuel) /\
  (forall node ts, (9 * List.length ts + 1 <= fuel)%nat ->
                   parseAdd_loop formula fuel node ts <> Fuel) /\
  (forall ts, (9 * List.length ts + 3 <= fuel)%nat -> parseMul formula fuel ts <> Fuel) /\
  (forall node ts, (9 * List.length ts + 1 <= fuel)%nat ->
                   parseMul_loop formula fuel node ts <> Fuel) /\
  (forall ts, (9 * List.length ts + 2 <= fuel)%nat -> parseUnary formula fuel ts <> Fuel) /\
  (forall ts, (9 * List.length ts + 1 <= fuel)%nat -> parsePrimary formula fuel ts <> Fuel) /\
  (forall args ts, (9 * List.length ts + 8 <= fuel)%nat ->
                   parseArgs formula fuel args ts <> Fuel).
Proof.
  induction fuel as [|fuel IH]; [repeat split; intros; lia|].
  destruct IH as (HE & HC & HCl & HK & HKl & HA & HAl & HM & HMl & HU & HP & HG).
  destruct (parse_consumes formula fuel)
    as (LE & LC & LCl & LK & LKl & LA & LAl & LM & LMl & LU & LP & LG).
  (* a level: its first operand, then its loop on what is left *)
  assert (Hlevel : forall (first : nat -> list token -> result (ast * list token))
                     (loop : nat -> ast -> list token -> result (ast * list token))
                     (mk : ast -> ast) (c : nat) r,
             (forall ts, (9 * List.length ts + c <= fuel)%nat -> first fuel ts <> Fuel) ->
             (forall ts, below (List.length ts) (first fuel ts)) ->
             (forall node ts, (9 * List.length ts + 1 <= fuel)%nat -> loop fuel node ts <> Fuel) ->
             (9 * List.length r + c <= fuel)%nat ->
             (p <-r first fuel r ;; loop fuel (mk (fst p)) (snd p)) <> Fuel).
  { intros first loop mk c r Hf Hb Hl Hr.
    apply rbind_not_Fuel; [now apply Hf|].
    intros p Hp. apply Hl. specialize (Hb r). rewrite Hp in Hb. simpl in Hb. lia. }
  repeat split.
  - intros ts H. apply HC. lia.
  - intros ts H. simpl.
    apply (Hlevel (parseConcat formula) (parseCompare_loop formula) (fun a => a) 5%nat); auto; lia.
  - intros node ts H. simpl. destruct ts as [|t r]; [discriminate|].
    destruct (isOpIn t _); [|discriminate]. simpl in H.
    apply (Hlevel (parseConcat formula) (parseCompare_loop formula) (Bin (value t) node) 5%nat);
      auto; lia.
  - intros ts H. simpl.
    apply (Hlevel (parseAdd formula) (parseConcat_loop formula) (fun a => a) 4%nat); auto; lia.
  - intros node ts H. simpl. destruct (acceptOp "&" ts) as [r|] eqn:E; [|discriminate].
    apply acceptOp_Some in E as [t ->]. simpl in H.
    apply (Hlevel (parseAdd formula) (parseConcat_loop formula) (Bin "&" node) 4%nat);
      auto; lia.
  - intros ts H. simpl.
    apply (Hlevel (parseMul formula) (parseAdd_loop formula) (fun a => a) 3%nat); auto; lia.
  - intros node ts H. simpl. destruct ts as [|t r]; [discriminate|].
    destruct (isOpIn t _); [|discriminate]. simpl in H.
    apply (Hlevel (parseMul formula) (parseAdd_loop formula) (Bin (value t) node) 3%nat);
      auto; lia.
  - intros ts H. simpl.
    apply (Hlevel (parseUnary formula) (parseMul_loop formula) (fun a => a) 2%nat); auto; lia.
  - intros node ts H. simpl. destruct ts as [|t r]; [discriminate|].
    destruct (isOpIn t _); [|discriminate]. simpl in H.
    apply (Hlevel (parseUnary formula) (parseMul_loop formula) (Bin (value t) node) 2%nat);
      auto; lia.
  - intros ts H. simpl. destruct ts as [|t r]; [apply HP; simpl in *; lia|].
    destruct (isOpIn t _); [|apply HP; lia]. simpl in H.
    apply rbind_not_Fuel; [apply HU; lia | discriminate].
  - intros ts H. simpl. destruct ts as [|t r]; [discriminate|]. simpl in H.
    destruct (isOp t "(").
    { apply rbind_not_Fuel; [apply HE; lia|].
      intros p _. destruct (acceptOp ")" (snd p)); discriminate. }
    destruct (type t); try discriminate.
    destruct (acceptOp "(" r) as [r1|] eqn:E1.
    { apply acceptOp_Some in E1 as [t1 ->]. simpl in H.
      destruct (acceptOp ")" r1); [discriminate|].
      apply rbind_not_Fuel; [apply HG; lia | discriminate]. }
    destruct (acceptOp ":" r) as [r1|].
    { destruct r1 as [|t2 r2]; [discriminate|]. destruct (type t2); discriminate. }
    destruct (isCellRef _); discriminate.
  - intros args ts H. simpl.
    apply rbind_not_Fuel; [apply HE; lia|].
    intros p Hp. specialize (LE ts). rewrite Hp in LE. simpl in LE.
    destruct (acceptOp ")" (snd p)); [discriminate|].
    destruct (acceptOp "," (snd p)) as [r|] eqn:E; [|discriminate].
    apply acceptOp_Some in E as [t E]. rewrite E in LE. simpl in LE.
    apply HG. lia.
Qed.

End ParserTotal.

(** [parse] always returns a tree or throws. *)
Lemma parse_total (formula : string) : parse formula <> Fuel.
Proof.
  unfold parse. apply rbind_not_Fuel; [apply tokenize_total|].
  intros tokens _. apply rbind_not_Fuel.
  - apply parse_never_Fuel. unfold parse_fuel. lia.
  - intros p _. destruct (snd p); discriminate.
Qed.
(** ** Evaluation *)

(** A normalized reference holds no small letter, every inherited name has
    one: a normalized reference is never an inherited name. *)
Lemma normalizeRef_not_inherited (ref : string) :
  existsb (String.eqb (normalizeRef ref)) inheritedNames = false.
Proof.
  destruct (existsb _ inheritedNames) eqn:E; [|reflexivity].
  apply existsb_exists in E as (name & Hin & Heq).
  apply String.eqb_eq in Heq.
  pose proof (normalizeRef_chars ref) as Hc. rewrite Heq in Hc.
  assert (Hall : List.forallb (fun n => negb (Str.forallb normalizedChar n)) inheritedNames = true)
    by reflexivity.
  rewrite List.forallb_forall in Hall. specialize (Hall name Hin).
  rewrite Hc in Hall. discriminate.
Qed.

Lemma cellAt_normalized (this : SheetEvaluator) (ref : string) :
  cellAt this (normalizeRef ref) = cells this !! normalizeRef ref.
Proof.
  unfold cellAt. rewrite normalizeRef_not_inherited.
  now destruct (cells this !! normalizeRef ref).
Qed.

(** Looking a normalized reference up tries one key only. *)
Lemma lookupCell_normalized (this : SheetEvaluator) (ref : string) :
  lookupCell this (normalizeRef (normalizeRef ref)) (normalizeRef ref) =
  cells this !! normalizeRef ref.
Proof.
  unfold lookupCell. rewrite normalizeRef_idem, cellAt_normalized.
  now destruct (cells this !! normalizeRef ref).
Qed.

Lemma getCellFormula_normalized (this : SheetEvaluator) (ref : string) :
  getCellFormula this (normalizeRef ref) =
  match cells this !! normalizeRef ref with Some c => f c | None => None end.
Proof. unfold getCellFormula. now rewrite lookupCell_normalized. Qed.

Lemma getCellRaw_normalized (this : SheetEvaluator) (ref : string) :
  getCellRaw this (normalizeRef ref) =
  match overrides this !! normalizeRef ref with
  | Some o => o
  | None => match cells this !! normalizeRef ref with Some c => v c | None => VNull end
  end.
Proof. unfold getCellRaw. now rewrite lookupCell_normalized, normalizeRef_idem. Qed.

(** A call of [evalCell] on a reference that is neither cached nor on the
    stack and has no formula: the raw value is converted, cached and
    returned. *)
Lemma evalCell_raw (this : SheetEvaluator) (ref : string) (fuel : nat)
    (stack : list string) (st : session) :
  cache st !! normalizeRef ref = None ->
  includes stack (normalizeRef ref) = false ->
  noFormula (getCellFormula this (normalizeRef ref)) = true ->
  evalCell this (S fuel) ref stack st =
  (Ok (rawOut (getCellRaw this (normalizeRef ref))),
   {| cache := <[normalizeRef ref := rawOut (getCellRaw this (normalizeRef ref))]> (cache st);
      astCache := astCache st |}).
Proof. intros Hm Hs Hf. simpl. now rewrite Hm, Hs, Hf. Qed.

(** The re-entrant call: a reference on the stack (and not cached) is
    answered by the empty text, and the session is left as it was. *)
Lemma evalCell_on_stack (this : SheetEvaluator) (ref : string) (fuel : nat)
    (stack : list string) (st : session) :
  cache st !! normalizeRef ref = None ->
  includes stack (normalizeRef ref) = true ->
  evalCell this (S fuel) ref stack st = (Ok (VStr ""), st).
Proof. intros Hm Hs. simpl. now rewrite Hm, Hs. Qed.

(** C10. For a reference whose normalized form is in neither the cell table
    nor the overrides, [evalCell] answers the empty text (no exception) and
    stores it in the cache under the normalized reference; this holds in
    every session where the reference is not cached yet, the fresh one
    included. *)
Theorem evalCell_absent (this : SheetEvaluator) (ref : string) (fuel : nat)
    (st : session) :
  cells this !! normalizeRef ref = None ->
  overrides this !! normalizeRef ref = None ->
  cache st !! normalizeRef ref = None ->
  evalCell this (S fuel) ref [] st =
  (Ok (VStr ""),
   {| cache := <[normalizeRef ref := VStr ""]> (cache st); astCache := astCache st |}).
Proof.
  intros Hc Ho Hm.
  rewrite evalCell_raw; auto.
  - now rewrite getCellRaw_normalized, Ho, Hc.
  - now rewrite getCellFormula_normalized, Hc.
Qed.

Lemma evalCell_absent_witness :
  evalCell (new_SheetEvaluator ∅ []) 1 "$q$7" [] fresh =
  (Ok (VStr ""), {| cache := <["Q7" := VStr ""]> ∅; astCache := ∅ |}).
Proof.
  apply (evalCell_absent (new_SheetEvaluator ∅ []) "$q$7" 0 fresh); reflexivity.
Defined.

(** A call of [evalCell] on a reference that is neither cached nor on the
    stack and has a formula: the tree of the formula is evaluated with the
    reference pushed on the stack, and the value is cached. *)
Lemma evalCell_formula (this : SheetEvaluator) (ref src : string) (fuel : nat)
    (stack : list string) (st : session) :
  cache st !! normalizeRef ref = None ->
  includes stack (normalizeRef ref) = false ->
  getCellFormula this (normalizeRef ref) = Some src ->
  src <> "" ->
  evalCell this (S fuel) ref stack st =
  (a <- parseCached src ;;
   out <- evalAst (evalCell this fuel) a (stack ++ [normalizeRef ref]) ;;
   _ <- cache_set (normalizeRef ref) out ;;
   ret out) st.
Proof.
  intros Hm Hs Hf Hne. simpl. rewrite Hm, Hs, Hf. simpl.
  apply isEmpty_false in Hne. now rewrite Hne.
Qed.


(** *** Extensionality of [evalAst] *)

(** [evalAst] hands the stack it was given to every call of [evalCell]. *)
Section EvalAstExt.

Variables ec1 ec2 : string -> list string -> M jsval.
Variable stack : list string.
Hypothesis Hec : forall r st, ec1 r stack st = ec2 r stack st.

Lemma evalCells_ext (refs : list string) (st : session) :
  evalCells ec1 refs stack st = evalCells ec2 refs stack st.
Proof.
  revert st. induction refs as [|r refs IH]; intros st; simpl; [reflexivity|].
  unfold bind. rewrite Hec. destruct (ec2 r stack st) as [[x| |] st']; try reflexivity.
  now rewrite IH.
Qed.

Lemma evalAst_ext (node : ast) :
  forall st, evalAst ec1 node stack st = evalAst ec2 node stack st.
Proof.
  induction node as [x|s|r|r|n|op e IH|op l r IHl IHr|n args IH] using ast_nested_ind;
    intros st; simpl; try reflexivity.
  - apply Hec.
  - unfold bind. destruct (lift (expandRange r) st) as [[refs| |] st']; try reflexivity.
    now rewrite evalCells_ext.
  - unfold bind. now rewrite IH.
  - unfold bind. rewrite IHl. destruct (evalAst ec2 l stack st) as [[x| |] st']; try reflexivity.
    now rewrite IHr.
  - destruct (String.eqb n "IF").
    { destruct IH as [|c branches Hc Hb]; [reflexivity|].
      unfold bind. rewrite Hc.
      destruct (evalAst ec2 c stack st) as [[x| |] st']; try reflexivity.
      destruct (truthyExcel x).
      - destruct Hb as [|t rest Ht _]; [reflexivity | apply Ht].
      - destruct Hb as [|t rest _ Hb]; [reflexivity|].
        destruct Hb as [|e rest' He _]; [reflexivity | apply He]. }
    destruct (String.eqb n "SUM").
    { generalize Num.zero. revert st.
      induction IH as [|arg rest Harg _ IHrest]; intros st sum; [reflexivity|].
      unfold bind. rewrite Harg.
      destruct (evalAst ec2 arg stack st) as [[x| |] st']; try reflexivity.
      apply IHrest. }
    destruct (String.eqb n "TRIM"); [|reflexivity].
    destruct IH as [|a rest Ha _]; [reflexivity|].
    unfold bind. now rewrite Ha.
Qed.

End EvalAstExt.

(** When a cell has a formula, its override entry is never read: any two
    evaluators with the same cells whose overrides differ at that cell only
    evaluate every reference alike. *)
Lemma evalCell_override_unread (this : SheetEvaluator) (nref : string)
    (ov' : gmap string jsval) :
  normalizeRef nref = nref ->
  noFormula (getCellFormula this nref) = false ->
  (forall k, k <> nref -> ov' !! k = overrides this !! k) ->
  forall fuel ref stack st,
    evalCell {| cells := cells this; overrides := ov' |} fuel ref stack st =
    evalCell this fuel ref stack st.
Proof.
  intros Hn Hf Hov. induction fuel as [|fuel IH]; intros ref stack st; [reflexivity|].
  simpl. destruct (cache st !! normalizeRef ref); [reflexivity|].
  destruct (includes stack (normalizeRef ref)); [reflexivity|].
  change (getCellFormula {| cells := cells this; overrides := ov' |} (normalizeRef ref))
    with (getCellFormula this (normalizeRef ref)).
  destruct (noFormula (getCellFormula this (normalizeRef ref))) eqn:Hnf.
  - assert (Hne : normalizeRef ref <> nref) by (intros E; rewrite E in Hnf; congruence).
    assert (Hraw : getCellRaw {| cells := cells this; overrides := ov' |} (normalizeRef ref)
                   = getCellRaw this (normalizeRef ref)).
    { unfold getCellRaw. simpl. rewrite normalizeRef_idem, (Hov _ Hne). reflexivity. }
    now rewrite Hraw.
  - unfold bind. destruct (parseCached _ st) as [[a| |] st']; try reflexivity.
    rewrite (evalAst_ext _ _ _ (fun r st2 => IH r _ st2) a). reflexivity.
Qed.

(** C1 (as the code has it). Let the normalized reference have an override
    [o]. When the cell table has no formula for it, [evalCell] in a fresh
    session answers [o] -- number-like text turned into a number, [null]
    and [undefined] into the empty text -- caches it and parses nothing.
    When the cell table has a formula for it, the tree of that formula is
    what is evaluated and the override is not read: the answer and the
    session are the same whatever the overrides hold for that reference. *)
Theorem evalCell_override (this : SheetEvaluator) (ref : string) (o : jsval) :
  overrides this !! normalizeRef ref = Some o ->
  (noFormula (getCellFormula this (normalizeRef ref)) = true ->
   forall fuel,
     evalCell this (S fuel) ref [] fresh =
     (Ok (rawOut o), {| cache := <[normalizeRef ref := rawOut o]> ∅; astCache := ∅ |})) /\
  (forall src,
     getCellFormula this (normalizeRef ref) = Some src -> src <> "" ->
     forall fuel,
       evalCell this (S fuel) ref [] fresh =
       (a <- parseCached src ;;
        out <- evalAst (evalCell this fuel) a [normalizeRef ref] ;;
        _ <- cache_set (normalizeRef ref) out ;;
        ret out) fresh) /\
  (noFormula (getCellFormula this (normalizeRef ref)) = false ->
   forall (ov' : gmap string jsval) fuel stack st,
     (forall k, k <> normalizeRef ref -> ov' !! k = overrides this !! k) ->
     evalCell {| cells := cells this; overrides := ov' |} fuel ref stack st =
     evalCell this fuel ref stack st).
Proof.
  intros Ho. split; [|split].
  - intros Hf fuel. rewrite evalCell_raw; auto.
    now rewrite getCellRaw_normalized, Ho.
  - intros src Hf Hne fuel.
    apply (evalCell_formula this ref src fuel [] fresh); auto.
  - intros Hf ov' fuel stack st Hov.
    apply evalCell_override_unread with (nref := normalizeRef ref);
      auto using normalizeRef_idem.
Qed.

Lemma evalCell_override_witness :
  evalCell (new_SheetEvaluator {[ "D4" := valueCell (VNum (Num.ofZ 2)) ]} [("$d$4", VStr "10")])
    1 "d4" [] fresh =
  (Ok (VNum (Num.ofZ 10)), {| cache := <["D4" := VNum (Num.ofZ 10)]> ∅; astCache := ∅ |}).
Proof.
  refine (proj1 (evalCell_override
                   (new_SheetEvaluator {[ "D4" := valueCell (VNum (Num.ofZ 2)) ]}
                      [("$d$4", VStr "10")])
                   "d4" (VStr "10") _) _ 0%nat);
    vm_compute; reflexivity.
Defined.

(** C1, counterexample. Cell A1 holds the formula 2+3 and is overridden by
    99: a fresh session answers 5, the value of the formula, not 99. *)
Lemma evalCell_formula_beats_override :
  let this := new_SheetEvaluator {[ "A1" := {| v := VNum one; f := Some "2+3" |} ]}
                [("A1", VNum (Num.ofZ 99))] in
  overrides this !! normalizeRef "A1" = Some (VNum (Num.ofZ 99)) /\
  fst (evalCell this 1 "A1" [] fresh) = Ok (VNum (Num.ofZ 5)) /\
  Ok (VNum (Num.ofZ 5)) <> Ok (VNum (Num.ofZ 99)).
Proof.
  repeat split; try reflexivity. discriminate.
Qed.

(** ** The bound on the nesting of cells *)

Lemma includes_false (stack : list string) (x : string) :
  includes stack x = false -> x ∉ stack.
Proof.
  unfold includes. induction stack as [|y stack IH]; simpl; intros H.
  - apply not_elem_of_nil.
  - apply orb_false_iff in H as [Hy Hs]. apply not_elem_of_cons. split; [|auto].
    apply String.eqb_neq in Hy. exact Hy.
Qed.

(** The cells that have a record and are not on the stack bound the
    nesting: every formula that is entered takes one of them away. A bound
    above their number is as good as any larger one. *)
Lemma evalCell_bound_stable (this : SheetEvaluator) (fuel : nat) :
  forall ref stack st,
    (size (dom (cells this) ∖ list_to_set stack : gset string) < fuel)%nat ->
    evalCell this (S fuel) ref stack st = evalCell this fuel ref stack st.
Proof.
  induction fuel as [|fuel IH]; intros ref stack st Hsz; [lia|].
  remember (S fuel) as n eqn:Hn. simpl. subst n. simpl.
  destruct (cache st !! normalizeRef ref); [reflexivity|].
  destruct (includes stack (normalizeRef ref)) eqn:Hin; [reflexivity|].
  destruct (noFormula (getCellFormula this (normalizeRef ref))) eqn:Hnf; [reflexivity|].
  unfold bind. destruct (parseCached _ st) as [[a| |] st1]; try reflexivity.
  rewrite (evalAst_ext (evalCell this (S fuel)) (evalCell this fuel)
             (stack ++ [normalizeRef ref])); [reflexivity|].
  intros r st2. apply IH.
  assert (Hdom : normalizeRef ref ∈ dom (cells this)).
  { apply elem_of_dom. rewrite getCellFormula_normalized in Hnf.
    destruct (cells this !! normalizeRef ref); [eauto | discriminate]. }
  apply includes_false in Hin.
  assert (Hsub : ({[normalizeRef ref]} : gset string)
                 ⊆ dom (cells this) ∖ list_to_set stack).
  { apply singleton_subseteq_l, elem_of_difference. split; [exact Hdom|].
    now rewrite elem_of_list_to_set. }
  assert (Heq : (dom (cells this) ∖ list_to_set (stack ++ [normalizeRef ref]) : gset string)
                = (dom (cells this) ∖ list_to_set stack) ∖ {[normalizeRef ref]}).
  { rewrite list_to_set_app_L. simpl. rewrite union_empty_r_L.
    apply set_eq. intros x.
    rewrite !elem_of_difference, elem_of_union. tauto. }
  rewrite Heq, size_difference by exact Hsub.
  rewrite size_singleton.
  assert (0 < size (dom (cells this) ∖ list_to_set stack : gset string))%nat.
  { apply (subseteq_size) in Hsub. rewrite size_singleton in Hsub. lia. }
  lia.
Qed.

(** Any two bounds above the number of cells give the same answer and the
    same session: [evalCell] on the empty stack is a function of the
    evaluator, the reference and the session, and when it answers [Fuel]
    a range loop that never ends is the cause, not the bound. *)
Lemma evalCell_bound_irrelevant (this : SheetEvaluator) (fuel fuel' : nat)
    (ref : string) (st : session) :
  (size (cells this) < fuel)%nat -> (size (cells this) < fuel')%nat ->
  evalCell this fuel ref [] st = evalCell this fuel' ref [] st.
Proof.
  assert (Hle : forall m n, (size (cells this) < m)%nat -> (m <= n)%nat ->
                            evalCell this n ref [] st = evalCell this m ref [] st).
  { intros m n Hm Hmn. induction Hmn as [|n Hmn IH]; [reflexivity|].
    rewrite evalCell_bound_stable; [exact IH|].
    simpl. rewrite difference_empty_L, size_dom. lia. }
  intros H H'.
  destruct (Nat.le_ge_cases fuel fuel') as [Hl|Hl].
  - symmetry. now apply Hle.
  - now apply Hle.
Qed.

(** ** Cycles *)



(** ** Operators and functions *)




(** C9. [toNumber] answers 0 for both booleans (TRUE is not 1), so the
    arithmetic and the ordering operators treat a boolean operand as 0; the
    formulas TRUE + 1 and (1=1) + 1 are 1, and so is B1 + 1 when B1 holds
    the boolean true. *)
Theorem toNumber_boolean_zero :
  (forall b : bool, toNumber (VBool b) = Num.zero) /\
  Forall (fun op =>
            forall (b : bool) (x : jsval),
              binop op (VBool b) x = binop op (VNum Num.zero) x /\
              binop op x (VBool b) = binop op x (VNum Num.zero))
    ["+"; "-"; "*"; "/"; "<"; ">"; "<="; ">="] /\
  Forall (fun op => forall b : bool, unop op (VBool b) = unop op (VNum Num.zero))
    ["+"; "-"] /\
  evalFormula "TRUE + 1" = Ok (VNum one) /\
  evalFormula "(1=1) + 1" = Ok (VNum one) /\
  evalFormula "(1=1)" = Ok (VBool true) /\
  fst (evaluateCell [("A1", formulaCell "B1 + 1"); ("B1", valueCell (VBool true))] [] "A1")
  = Ok (VNum one).
Proof.
  split; [intros b; reflexivity|].
  split; [repeat constructor|].
  split; [repeat constructor|].
  repeat split; vm_compute; reflexivity.
Qed.

(** ** The worked examples of the specification *)

Example SUM_range :
  fst (evaluateCell [("A1", formulaCell "SUM(D4:D5)");
                     ("D4", valueCell (VNum (Num.ofZ 2)));
                     ("D5", valueCell (VNum (Num.ofZ 3)))] [] "A1")
  = Ok (VNum (Num.ofZ 5)).
Proof. vm_compute. reflexivity. Qed.

(** An override of a summed cell shows in the next session. *)
Example SUM_range_overridden :
  fst (evaluateCell [("A1", formulaCell "SUM(D4:D5)");
                     ("D4", valueCell (VNum (Num.ofZ 2)));
                     ("D5", valueCell (VNum (Num.ofZ 3)))]
         [("$d$4", VStr "10")] "A1")
  = Ok (VNum (Num.ofZ 13)).
Proof. vm_compute. reflexivity. Qed.

Example TRIM_collapses :
  evalFormula ("TRIM(" +:+ quoted "  a   b  " +:+ ")") = Ok (VStr "a b").
Proof. vm_compute. reflexivity. Qed.

Example concat_texts :
  evalFormula (quoted "" +:+ " & " +:+ quoted "") = Ok (VStr "") /\
  evalFormula "1 & 2" = Ok (VStr "12") /\
  evalFormula "1/3 & 100000000000*100000000000" = Ok (VStr "0.33333333333333331e+22").
Proof. repeat split; vm_compute; reflexivity. Qed.

Example precedence :
  evalFormula "1+2*3-4/-8 = 7.5" = Ok (VBool true) /\
  evalFormula "-(2+3)*2 < 1 & 0" = Ok (VBool true).
Proof. repeat split; vm_compute; reflexivity. Qed.

Example division_by_zero :
  evalFormula "1/0" = Ok (VNum (Num.infinity false)) /\
  evalFormula "0/0" = Ok (VNum Num.nan).
Proof. repeat split; vm_compute; reflexivity. Qed.

Example parse_errors :
  evalFormula "(1+2" = Throw "Expected ')' in formula: (1+2" /\
  evalFormula "1 # 2" = Throw "Unexpected char '#' in formula: 1 # 2" /\
  evalFormula "SUM(A1:B)" = Throw "Bad cell ref: B".
Proof. repeat split; vm_compute; reflexivity. Qed.

Example codec_examples :
  List.map numToCol [1; 26; 27; 52; 702; 703; 16384]
  = ["A"; "Z"; "AA"; "AZ"; "ZZ"; "AAA"; "XFD"] /\
  List.map colToNum ["A"; "Z"; "AA"; "AZ"; "ZZ"; "AAA"; "XFD"]
  = [1; 26; 27; 52; 702; 703; 16384].
Proof. split; reflexivity. Qed.
(** * Further properties of the code *)

(** ** Reference codec *)

Lemma fromCharCode_charCode (c : ascii) : Char.fromCharCode (Char.charCode c) = c.
Proof.
  unfold Char.fromCharCode, Char.charCode. rewrite N2Z.id. apply ascii_N_embedding.
Qed.

(** Up to [2^53] the loop of [numToCol] gives the same letters with any
    bound above the number of binary digits of [n]. *)
Lemma numToCol_loop_bound (f1 : nat) :
  forall f2 n s, n <= 2 ^ 53 -> n < 2 ^ Z.of_nat f1 -> n < 2 ^ Z.of_nat f2 ->
  numToCol_loop f1 n s = numToCol_loop f2 n s.
Proof.
  induction f1 as [|f1 IH]; intros f2 n s Hs H1 H2.
  - simpl in H1. destruct f2 as [|f2]; simpl; [reflexivity|].
    destruct (Z.ltb_spec 0 n); [lia | reflexivity].
  - destruct f2 as [|f2]; simpl.
    + simpl in H2. destruct (Z.ltb_spec 0 n); [lia | reflexivity].
    + destruct (Z.ltb_spec 0 n) as [Hn|]; [|reflexivity].
      rewrite Nat2Z.inj_succ, Z.pow_succ_r in H1, H2 by lia.
      rewrite roundZ_safe by (rewrite pow2_53 in *; lia).
      rewrite floorDiv_safe by (rewrite pow2_53 in *; lia).
      apply IH; [apply Z.lt_le_incl|..]; apply Z.div_lt_upper_bound;
        rewrite ?pow2_53 in *; lia.
Qed.

Lemma numToCol_bound (fuel : nat) (n : Z) :
  n <= 2 ^ 53 -> n < 2 ^ Z.of_nat fuel -> numToCol_loop fuel n "" = numToCol n.
Proof.
  intros Hs H. unfold numToCol. apply numToCol_loop_bound; [exact Hs|exact H|].
  destruct (Z.le_gt_cases n 0) as [Hn|Hn].
  - pose proof (Z.pow_pos_nonneg 2 (Z.of_nat (S (Z.to_nat (Z.log2 n)))) ltac:(lia) ltac:(lia)).
    lia.
  - rewrite Nat2Z.inj_succ, Z2Nat.id by apply Z.log2_nonneg.
    now apply Z.log2_spec.
Qed.

(** The letters of [n] are the letters of the quotient followed by the
    letter of the remainder. *)
Lemma numToCol_step (n : Z) :
  0 < n <= 2 ^ 53 ->
  numToCol n =
  numToCol ((n - 1) / 26) +:+ String (Char.fromCharCode (65 + (n - 1) mod 26)) "".
Proof.
  intros Hn. unfold numToCol at 1.
  rewrite numToCol_loop_step_safe by exact Hn. f_equal.
  pose proof (Z.mul_div_le (n - 1) 26 ltac:(lia)) as Hq.
  apply numToCol_bound; [lia|].
  rewrite Z2Nat.id by apply Z.log2_nonneg.
  pose proof (Z.log2_spec n ltac:(lia)) as [_ Hk].
  rewrite Z.pow_succ_r in Hk by apply Z.log2_nonneg.
  lia.
Qed.

Lemma pow26_12 : 26 ^ 12 = 95428956661682176.
Proof. reflexivity. Qed.

(** As long as the letters read so far and the letters still to read stay
    within twelve letters' worth, [colToNum] adds without rounding and
    [numToCol] finds the letters again. *)
Lemma numToCol_colToNum_from (s : string) :
  Str.forallb Char.isUpper s = true ->
  forall n, 0 <= n ->
    (25 * n + 26) * 26 ^ Z.of_nat (String.length s) <= 26 ^ 12 ->
    numToCol (colToNum_from n s) = numToCol n +:+ s.
Proof.
  induction s as [|c s IH]; intros Hs n Hn Hb.
  - simpl. now rewrite append_nil_r.
  - simpl in Hs. apply andb_true_iff in Hs as [Hc Hs].
    pose proof (isUpper_code c Hc) as Hd.
    cbn [String.length] in Hb.
    rewrite Nat2Z.inj_succ, Z.pow_succ_r, pow26_12 in Hb by lia.
    assert (HP : 1 <= 26 ^ Z.of_nat (String.length s))
      by (pose proof (Z.pow_pos_nonneg 26 (Z.of_nat (String.length s))); lia).
    set (P := 26 ^ Z.of_nat (String.length s)) in *.
    set (m := n * 26 + (Char.charCode c - 64)).
    assert (Hm : 25 * m + 26 <= 26 * (25 * n + 26)) by (unfold m; lia).
    assert (HmP : (25 * m + 26) * P <= 95428956661682176) by nia.
    assert (Hm53 : 0 < m <= 2 ^ 53) by (rewrite pow2_53; unfold m; nia).
    cbn [colToNum_from].
    rewrite (roundZ_safe (n * 26)) by (rewrite pow2_53 in *; unfold m in *; lia).
    fold m. rewrite (roundZ_safe m) by (rewrite pow2_53 in *; lia).
    rewrite (IH Hs m) by (rewrite ?pow26_12; fold P; lia).
    rewrite (numToCol_step m) by exact Hm53.
    replace ((m - 1) / 26) with n
      by (apply Z.div_unique with (r := Char.charCode c - 65); unfold m; lia).
    replace ((m - 1) mod 26) with (Char.charCode c - 65)
      by (apply Z.mod_unique with (q := n); unfold m; lia).
    replace (65 + (Char.charCode c - 65)) with (Char.charCode c) by lia.
    rewrite fromCharCode_charCode, append_assoc. reflexivity.
Qed.

(** X1. Encoding the index that [colToNum] reads off a text of at most
    eleven capital letters gives the text back:
    [numToCol (colToNum s) = s]. Eleven letters stay below [2^53]; twelve
    need not, and the sums of [colToNum] are then rounded. *)
Theorem numToCol_colToNum (s : string) :
  Str.forallb Char.isUpper s = true -> (String.length s <= 11)%nat ->
  numToCol (colToNum s) = s.
Proof.
  intros Hs Hl. unfold colToNum.
  rewrite numToCol_colToNum_from; [reflexivity | exact Hs | lia |].
  replace (25 * 0 + 26) with (26 ^ 1) by reflexivity.
  rewrite <- Z.pow_add_r by lia. apply Z.pow_le_mono_r; lia.
Qed.

Lemma numToCol_colToNum_witness : numToCol (colToNum "XFD") = "XFD".
Proof. apply (numToCol_colToNum "XFD"); [reflexivity | simpl; lia]. Defined.

(** Twelve letters: the index of ZZZZZZZZZZZZ is rounded to a multiple of
    16, which is the index of a text of thirteen letters. *)
Example numToCol_colToNum_twelve :
  colToNum "ZZZZZZZZZZZZ" = 99246114928149472 /\
  numToCol (colToNum "ZZZZZZZZZZZZ") = "AAAAAAAAAAAAK".
Proof. split; vm_compute; reflexivity. Qed.

(** X2. [numToCol] answers the empty text exactly for zero and the negative
    integers (no exception), and capital letters only for the others. *)
Theorem numToCol_empty_iff (n : Z) :
  (numToCol n = "" <-> n <= 0) /\ Str.forallb Char.isUpper (numToCol n) = true.
Proof.
  split; [|apply numToCol_upper]. split.
  - intros H. destruct (Z.le_gt_cases n 0) as [Hn|Hn]; [exact Hn|].
    now destruct (numToCol_nonempty n Hn).
  - intros Hn. unfold numToCol. simpl.
    destruct (Z.ltb_spec 0 n); [lia | reflexivity].
Qed.

(** X3. [normalizeRef] is idempotent and its result holds no anchor marker
    and no small letter. Among the texts made of ASCII characters, the ones
    it leaves as they are are exactly the ones that hold neither. *)
Theorem normalizeRef_normal_form (s : string) :
  normalizeRef (normalizeRef s) = normalizeRef s /\
  Str.forallb normalizedChar (normalizeRef s) = true /\
  (Str.forallb Char.isAscii s = true ->
   (normalizeRef s = s <-> Str.forallb normalizedChar s = true)).
Proof.
  split; [apply normalizeRef_idem|]. split; [apply normalizeRef_chars|].
  intros _. split.
  - intros H. rewrite <- H. apply normalizeRef_chars.
  - apply normalizeRef_fixed.
Qed.

Lemma normalizeRef_normal_form_witness :
  normalizeRef "AB12" = "AB12" /\ normalizeRef "$a1" <> "$a1".
Proof.
  split.
  - apply (proj2 (proj2 (normalizeRef_normal_form "AB12")) eq_refl). reflexivity.
  - intros H.
    apply (proj2 (proj2 (normalizeRef_normal_form "$a1")) eq_refl) in H.
    vm_compute in H. discriminate H.
Defined.

(** *** Printing rows and splitting references *)

(** X4. A reference printed from a column index [c] from 1 to [2^53] and
    a row number [r] from 0 up to, but not including, [2^53], the way
    [expandRange] prints them, is split by [splitRef] into the letters of
    [c] and the row [r]; its letters decode to [c], and the row is printed
    with all its digits. *)
Theorem splitRef_printed (c r : Z) :
  0 < c <= 2 ^ 53 -> 0 <= r < 2 ^ 53 ->
  splitRef (numToCol c +:+ Num.toStringInt r) = Ok {| col := numToCol c; row := r |} /\
  colToNum (numToCol c) = c /\
  Num.toStringInt r = Z_toString r.
Proof.
  intros Hc Hr. destruct (Z_toString_row r (proj1 Hr)) as (Hd & Hne & Hback).
  assert (Hp : Num.toStringInt r = Z_toString r)
    by (rewrite toStringInt_nonneg, toStringNat_safe; [reflexivity|lia|lia]).
  split; [|split; [|exact Hp]].
  - rewrite Hp. unfold splitRef.
    assert (E : matchRef (numToCol c +:+ Z_toString r) = Some (numToCol c, Z_toString r)).
    { apply matchRef_Some. repeat split; auto using numToCol_upper.
      apply numToCol_nonempty. lia. }
    rewrite E, Hback, roundZ_safe; [reflexivity|]. rewrite pow2_53 in *. lia.
  - unfold numToCol. apply colToNum_numToCol_loop; [|lia]. split; [lia|].
    rewrite Nat2Z.inj_succ, Z2Nat.id by apply Z.log2_nonneg.
    apply Z.log2_spec. lia.
Qed.

Lemma splitRef_printed_witness :
  splitRef (numToCol 28 +:+ Num.toStringInt 105) = Ok {| col := "AB"; row := 105 |}.
Proof.
  assert (Hc : 0 < 28 <= 2 ^ 53) by (rewrite pow2_53; lia).
  assert (Hr : 0 <= 105 < 2 ^ 53) by (rewrite pow2_53; lia).
  destruct (splitRef_printed 28 105 Hc Hr) as [H _]. exact H.
Defined.

Lemma Zrange_In (lo hi x : Z) : In x (Zrange lo hi) -> lo <= x <= hi.
Proof.
  unfold Zrange. rewrite List.in_map_iff. intros (i & <- & Hi).
  apply List.in_seq in Hi. lia.
Qed.

Lemma refShape_normalized (s : string) : refShape s -> normalizeRef s = s.
Proof.
  intros (l & d & -> & _ & _ & Hl & Hd). apply normalizeRef_fixed.
  rewrite forallb_app. apply andb_true_iff. split.
  - eapply forallb_impl; [|exact Hl]. intros c Hc.
    unfold normalizedChar. unfold Char.isUpper in Hc. unfold Char.isLower.
    destruct (Char.eqb c "$") eqn:E.
    + apply Char_eqb_eq in E. subst c. discriminate Hc.
    + simpl. apply negb_true_iff. lia.
  - eapply forallb_impl; [|exact Hd]. intros c Hc.
    unfold normalizedChar. unfold Char.isDigit in Hc. unfold Char.isLower.
    destruct (Char.eqb c "$") eqn:E.
    + apply Char_eqb_eq in E. subst c. discriminate Hc.
    + simpl. apply negb_true_iff. lia.
Qed.

(** *** The loops of [expandRange], whatever the bounds *)

(** What the inner loop adds to the list when it returns. *)
Lemma expandRange_cols_grow (fuel : nat) :
  forall r c colEnd out out',
    expandRange_cols fuel r c colEnd out = Ok out' ->
    0 < c ->
    exists l, out' = out ++ l /\ (c <= colEnd -> l <> []) /\
      forall x, In x l -> exists c', 0 < c' /\ x = numToCol c' +:+ Num.toStringInt r.
Proof.
  induction fuel as [|fuel IH]; intros r c colEnd out out' H Hc; simpl in H; [discriminate|].
  destruct (Z.leb_spec c colEnd) as [Hle|Hgt].
  - apply IH in H as (l & -> & _ & Hl); [|apply roundZ_pos; lia].
    exists ((numToCol c +:+ Num.toStringInt r) :: l).
    rewrite <- List.app_assoc. split; [reflexivity|]. split; [discriminate|].
    intros x [<-|Hx]; [exists c; auto | auto].
  - injection H as <-. exists []. rewrite List.app_nil_r.
    split; [reflexivity|]. split; [lia|]. intros x [].
Qed.

(** A row from [2^54] on is its own successor: the outer loop that meets
    one within its bounds never returns. *)
Lemma expandRange_rows_stuck (fuel colFuel : nat) (r rowEnd colStart colEnd : Z) :
  2 ^ 54 <= r -> Num.roundZ r = r -> r <= rowEnd ->
  forall out out', expandRange_rows fuel colFuel r rowEnd colStart colEnd out <> Ok out'.
Proof.
  intros Hr Hd Hle.
  assert (H0 : 0 <= r) by (pose proof (Z.pow_pos_nonneg 2 54); lia).
  induction fuel as [|fuel IH]; intros out out'; simpl; [discriminate|].
  destruct (Z.leb_spec r rowEnd); [|lia].
  destruct (expandRange_cols colFuel r colStart colEnd out) as [out1| |]; simpl;
    try discriminate.
  replace (Num.roundZ (r + 1)) with r; [apply IH|].
  symmetry. rewrite roundZ_nonneg in * by lia. now apply roundAbs_stuck.
Qed.

(** What the outer loop adds to the list when it returns: references
    printed from a column from 1 on and a row below [2^54]. *)
Lemma expandRange_rows_grow (fuel colFuel : nat) (rowEnd colStart colEnd : Z) :
  0 < colStart ->
  forall r out out',
    expandRange_rows fuel colFuel r rowEnd colStart colEnd out = Ok out' ->
    0 <= r -> Num.roundZ r = r ->
    exists l, out' = out ++ l /\
      (r <= rowEnd -> colStart <= colEnd -> l <> []) /\
      forall x, In x l ->
        exists c' r', 0 < c' /\ 0 <= r' < 2 ^ 54 /\ x = numToCol c' +:+ Num.toStringInt r'.
Proof.
  intros Hc. induction fuel as [|fuel IH]; intros r out out' H Hr Hd; [discriminate|].
  destruct (Z.le_gt_cases r rowEnd) as [Hle|Hgt].
  - destruct (Z.le_gt_cases (2 ^ 54) r) as [Hbig|Hsmall].
    { now destruct (expandRange_rows_stuck (S fuel) colFuel r rowEnd colStart colEnd
                      Hbig Hd Hle out out'). }
    simpl in H. destruct (Z.leb_spec r rowEnd); [|lia].
    destruct (expandRange_cols colFuel r colStart colEnd out) as [out1| |] eqn:E;
      simpl in H; try discriminate.
    apply expandRange_cols_grow in E as (l1 & -> & Hne & Hl1); [|exact Hc].
    apply IH in H as (l2 & -> & _ & Hl2);
      [|apply roundZ_ge0; lia | apply roundZ_idem; lia].
    exists (l1 ++ l2). rewrite List.app_assoc. split; [reflexivity|]. split.
    + intros _ Hcc E. apply List.app_eq_nil in E as [E _]. now apply Hne.
    + intros x Hx. apply List.in_app_or in Hx as [Hx|Hx]; [|auto].
      destruct (Hl1 x Hx) as (c' & Hc' & ->). exists c', r. auto.
  - simpl in H. destruct (Z.leb_spec r rowEnd); [lia|].
    injection H as <-. exists []. rewrite List.app_nil_r.
    split; [reflexivity|]. split; [lia|]. intros x [].
Qed.

(** *** The bounds of the loops are large enough

    A counter that is a double either stays where it is when one is added,
    and the loop never returns, or grows by one at least: a loop that
    returns at all returns within [loopFuel] turns. *)

Lemma expandRange_cols_stuck (fuel : nat) (r c colEnd : Z) :
  Num.roundZ (c + 1) = c -> c <= colEnd ->
  forall out out', expandRange_cols fuel r c colEnd out <> Ok out'.
Proof.
  intros Hs Hle. induction fuel as [|fuel IH]; intros out out'; simpl; [discriminate|].
  destruct (Z.leb_spec c colEnd); [|lia]. rewrite Hs. apply IH.
Qed.

Lemma expandRange_cols_enough (fuel : nat) :
  forall r c colEnd out out',
    expandRange_cols fuel r c colEnd out = Ok out' ->
    0 <= c -> Num.roundZ c = c ->
    forall fuel', (1 <= fuel')%nat -> (loopFuel c colEnd <= fuel')%nat ->
      expandRange_cols fuel' r c colEnd out = Ok out'.
Proof.
  induction fuel as [|fuel IH]; intros r c colEnd out out' H Hc Hd fuel' H1 Hf;
    [discriminate|].
  destruct fuel' as [|fuel']; [lia|].
  destruct (Z.le_gt_cases c colEnd) as [Hle|Hgt].
  - pose proof (roundZ_succ_ge c Hc Hd) as Hge.
    destruct (Z.eq_dec (Num.roundZ (c + 1)) c) as [Hs|Hs].
    { now destruct (expandRange_cols_stuck (S fuel) r c colEnd Hs Hle out out'). }
    simpl in H |- *. destruct (Z.leb_spec c colEnd); [|lia].
    unfold loopFuel in *.
    apply (IH _ _ _ _ _ H); [lia | apply roundZ_idem; lia | lia | lia].
  - simpl in H |- *. destruct (Z.leb_spec c colEnd); [lia | exact H].
Qed.

Lemma expandRange_rows_enough (fuel colFuel colFuel' : nat) (rowEnd colStart colEnd : Z) :
  0 <= colStart -> Num.roundZ colStart = colStart ->
  (1 <= colFuel')%nat -> (loopFuel colStart colEnd <= colFuel')%nat ->
  forall r out out',
    expandRange_rows fuel colFuel r rowEnd colStart colEnd out = Ok out' ->
    0 <= r -> Num.roundZ r = r ->
    forall fuel', (1 <= fuel')%nat -> (loopFuel r rowEnd <= fuel')%nat ->
      expandRange_rows fuel' colFuel' r rowEnd colStart colEnd out = Ok out'.
Proof.
  intros Hc Hcd Hc1 Hcf.
  induction fuel as [|fuel IH]; intros r out out' H Hr Hd fuel' H1 Hf; [discriminate|].
  destruct fuel' as [|fuel']; [lia|].
  destruct (Z.le_gt_cases r rowEnd) as [Hle|Hgt].
  - pose proof (roundZ_succ_ge r Hr Hd) as Hge.
    destruct (Z.eq_dec (Num.roundZ (r + 1)) r) as [Hs|Hs].
    { exfalso. clear IH. revert out H.
      induction (S fuel) as [|n IHn]; intros out H; simpl in H; [discriminate|].
      destruct (Z.leb_spec r rowEnd); [|lia].
      destruct (expandRange_cols colFuel r colStart colEnd out) as [out1| |];
        simpl in H; try discriminate.
      rewrite Hs in H. exact (IHn _ H). }
    simpl in H |- *. destruct (Z.leb_spec r rowEnd); [|lia].
    destruct (expandRange_cols colFuel r colStart colEnd out) as [out1| |] eqn:E;
      simpl in H; try discriminate.
    rewrite (expandRange_cols_enough _ _ _ _ _ _ E Hc Hcd colFuel' Hc1 Hcf). simpl.
    unfold loopFuel in *.
    apply (IH _ _ _ H); [lia | apply roundZ_idem; lia | lia | lia].
  - simpl in H |- *. destruct (Z.leb_spec r rowEnd); [lia | exact H].
Qed.

Lemma colToNum_from_double (s : string) (n : Z) :
  0 <= n -> Num.roundZ n = n -> Str.forallb Char.isUpper s = true ->
  Num.roundZ (colToNum_from n s) = colToNum_from n s.
Proof.
  revert n. induction s as [|c s IH]; intros n Hn Hd Hs; simpl; [exact Hd|].
  simpl in Hs. apply andb_true_iff in Hs as [Hc Hs].
  pose proof (isUpper_code c Hc).
  pose proof (roundZ_ge0 (n * 26) ltac:(lia)).
  apply IH; [apply roundZ_ge0; lia | apply roundZ_idem; lia | exact Hs].
Qed.

Lemma splitRef_Ok_col (s : string) (p : cellpos) :
  splitRef s = Ok p -> Num.roundZ (colToNum (col p)) = colToNum (col p).
Proof.
  unfold splitRef. destruct (matchRef s) as [[l d]|] eqn:E; [|discriminate].
  intros [= <-]. apply matchRef_Some in E as (_ & _ & _ & Hup & _). simpl.
  unfold colToNum. now apply colToNum_from_double.
Qed.

(** The row [splitRef] answers is a double. *)
Lemma splitRef_Ok_row (s : string) (p : cellpos) :
  splitRef s = Ok p -> Num.roundZ (row p) = row p.
Proof.
  unfold splitRef. destruct (matchRef s) as [[l d]|] eqn:E; [|discriminate].
  intros [= <-]. apply matchRef_Some in E as (_ & _ & _ & _ & Hdig). simpl.
  apply roundZ_idem. unfold digitsToZ. now apply digitsToZ_from_nonneg.
Qed.

(** When [expandRange] answers [Fuel] its loops return with no bound at
    all: the source does not return. *)
Lemma expandRange_Fuel_forever (a b : string) (pa pb : cellpos) :
  splitRef (normalizeRef a) = Ok pa ->
  splitRef (normalizeRef b) = Ok pb ->
  expandRange (a +:+ ":" +:+ b) = Fuel ->
  forall fuel colFuel out,
    expandRange_rows fuel colFuel
      (Z.min (row pa) (row pb)) (Z.max (row pa) (row pb))
      (Z.min (colToNum (col pa)) (colToNum (col pb)))
      (Z.max (colToNum (col pa)) (colToNum (col pb))) [] <> Ok out.
Proof.
  intros Ha Hb HF fuel colFuel out H.
  rewrite (proj1 (expandRange_corners a b pa pb Ha Hb)) in HF.
  destruct (splitRef_Ok_bounds _ _ Ha) as [Hca Hra].
  destruct (splitRef_Ok_bounds _ _ Hb) as [Hcb Hrb].
  pose proof (splitRef_Ok_row _ _ Ha). pose proof (splitRef_Ok_row _ _ Hb).
  pose proof (splitRef_Ok_col _ _ Ha). pose proof (splitRef_Ok_col _ _ Hb).
  rewrite (expandRange_rows_enough fuel colFuel _ _ _ _) with (out' := out) in HF;
    try exact H; try discriminate HF;
    unfold loopFuel; try lia.
  - destruct (Z.min_spec (colToNum (col pa)) (colToNum (col pb))) as [[_ ->]|[_ ->]];
      assumption.
  - destruct (Z.min_spec (row pa) (row pb)) as [[_ ->]|[_ ->]]; assumption.
Qed.

(** X5. Every reference [expandRange] produces is letters followed by
    digits and is already normalized, so it can be handed to [evalCell] and
    to [splitRef] as it is; the list is never empty. *)
Theorem expandRange_refs_wellformed (rangeRef : string) (out : list string) :
  expandRange rangeRef = Ok out ->
  out <> [] /\ forall x, In x out -> refShape x /\ normalizeRef x = x.
Proof.
  unfold expandRange.
  destruct (splitRef (nth 0 _ _)) as [pa| |] eqn:Ea; simpl; try discriminate.
  destruct (splitRef (nth 1 _ _)) as [pb| |] eqn:Eb; simpl; try discriminate.
  intros H.
  destruct (splitRef_Ok_bounds _ _ Ea) as [Hca Hra].
  destruct (splitRef_Ok_bounds _ _ Eb) as [Hcb Hrb].
  pose proof (splitRef_Ok_row _ _ Ea) as Hda.
  pose proof (splitRef_Ok_row _ _ Eb) as Hdb.
  apply expandRange_rows_grow in H as (l & -> & Hne & Hl);
    [|lia|lia|destruct (Z.min_spec (row pa) (row pb)) as [[_ ->]|[_ ->]]; assumption].
  cbn [app]. split; [apply Hne; lia|].
  intros x Hx. destruct (Hl x Hx) as (c' & r' & Hc' & Hr' & ->).
  assert (Hsh : refShape (numToCol c' +:+ Num.toStringInt r')).
  { rewrite toStringInt_nonneg by lia.
    assert (H21 : 0 <= r' < 10 ^ 21).
    { split; [lia|]. assert (2 ^ 54 < 10 ^ 21) by reflexivity. lia. }
    destruct (toStringNat_digits r' H21) as (Hd & Hn).
    exists (numToCol c'), (Num.toStringNat r').
    repeat split; auto using numToCol_upper. now apply numToCol_nonempty. }
  split; [exact Hsh | now apply refShape_normalized].
Qed.

Lemma expandRange_refs_wellformed_witness :
  ["B2"; "C2"; "B3"; "C3"] <> [] /\ refShape "C3" /\ normalizeRef "C3" = "C3".
Proof.
  destruct (expandRange_refs_wellformed "$c$3:b2" ["B2"; "C2"; "B3"; "C3"] eq_refl)
    as [H1 H2].
  split; [exact H1|]. apply H2. simpl. tauto.
Defined.

(** X6. [expandRange] throws when a corner is malformed or missing, and
    its message names the first offender: the first corner if it is not
    letters followed by digits, else the second; a text without a colon has
    no second corner, which is reported as "undefined". Two well-formed
    corners are both split, and when the last column and the last row of
    their box are below [2^53] and the box has fewer than [2^32] cells,
    [expandRange] returns a list of that many references. *)
Theorem expandRange_throws (a b : string) :
  Str.forallb noColon a = true -> Str.forallb noColon b = true ->
  (~ refShape (normalizeRef a) ->
   expandRange (a +:+ ":" +:+ b) = Throw ("Bad cell ref: " +:+ normalizeRef a) /\
   expandRange a = Throw ("Bad cell ref: " +:+ normalizeRef a)) /\
  (refShape (normalizeRef a) -> ~ refShape (normalizeRef b) ->
   expandRange (a +:+ ":" +:+ b) = Throw ("Bad cell ref: " +:+ normalizeRef b)) /\
  (refShape (normalizeRef a) ->
   expandRange a = Throw "Bad cell ref: undefined") /\
  (refShape (normalizeRef a) -> refShape (normalizeRef b) ->
   exists pa pb,
     splitRef (normalizeRef a) = Ok pa /\ splitRef (normalizeRef b) = Ok pb /\
     let w := Z.max (colToNum (col pa)) (colToNum (col pb))
              - Z.min (colToNum (col pa)) (colToNum (col pb)) + 1 in
     let h := Z.max (row pa) (row pb) - Z.min (row pa) (row pb) + 1 in
     (Z.max (colToNum (col pa)) (colToNum (col pb)) < 2 ^ 53 ->
      Z.max (row pa) (row pb) < 2 ^ 53 ->
      h * w < 2 ^ 32 ->
      exists out, expandRange (a +:+ ":" +:+ b) = Ok out /\
                  Z.of_nat (List.length out) = h * w)).
Proof.
  intros Na Nb.
  assert (Hbad : forall s, ~ refShape s -> splitRef s = Throw ("Bad cell ref: " +:+ s)).
  { intros s H. unfold splitRef. apply matchRef_None in H. now rewrite H. }
  assert (Hgood : forall s, refShape s -> exists p, splitRef s = Ok p).
  { intros s (l & d & H). apply (matchRef_Some s l d) in H.
    unfold splitRef. rewrite H. eauto. }
  split; [|split; [|split]].
  - intros Ha. split.
    + unfold expandRange. rewrite split_pair by assumption. simpl.
      now rewrite (Hbad _ Ha).
    + unfold expandRange. rewrite split_noColon by assumption. simpl.
      now rewrite (Hbad _ Ha).
  - intros Ha Hb. unfold expandRange. rewrite split_pair by assumption. simpl.
    destruct (Hgood _ Ha) as [pa ->]. simpl. now rewrite (Hbad _ Hb).
  - intros Ha. unfold expandRange. rewrite split_noColon by assumption. simpl.
    destruct (Hgood _ Ha) as [pa ->]. reflexivity.
  - intros Ha Hb.
    destruct (Hgood _ Ha) as [pa Epa]. destruct (Hgood _ Hb) as [pb Epb].
    exists pa, pb. split; [exact Epa|]. split; [exact Epb|].
    intros w h Hc Hr _.
    rewrite (expandRange_box a b pa pb Epa Epb Hc Hr).
    eexists. split; [reflexivity|].
    destruct (splitRef_Ok_bounds _ _ Epa) as [Hca Hra].
    destruct (splitRef_Ok_bounds _ _ Epb) as [Hcb Hrb].
    rewrite (length_flat_map_rows _ (Z.to_nat w))
      by (intros x; now rewrite List.length_map, Zrange_length).
    rewrite Zrange_length. unfold h, w. lia.
Qed.

Lemma expandRange_throws_witness :
  expandRange "A1" = Throw "Bad cell ref: undefined" /\
  expandRange "A1:b" = Throw "Bad cell ref: B" /\
  exists out, expandRange "A1:$b$2" = Ok out /\ Z.of_nat (List.length out) = 4.
Proof.
  assert (Ha : refShape (normalizeRef "A1")).
  { exists "A", "1". repeat split; discriminate. }
  assert (Hb : ~ refShape (normalizeRef "b")) by (apply matchRef_None; reflexivity).
  assert (Hc : refShape (normalizeRef "$b$2")).
  { exists "B", "2". repeat split; discriminate. }
  destruct (expandRange_throws "A1" "b" eq_refl eq_refl) as (_ & H2 & H3 & _).
  split; [exact (H3 Ha)|]. split; [exact (H2 Ha Hb)|].
  destruct (expandRange_throws "A1" "$b$2" eq_refl eq_refl) as (_ & _ & _ & H4).
  destruct (H4 Ha Hc) as (pa & pb & Epa & Epb & H).
  vm_compute in Epa, Epb. injection Epa as <-. injection Epb as <-.
  apply H; vm_compute; reflexivity.
Defined.
(** ** Tokenizer *)

Lemma rbind_Throw {A B} (r : result A) (k : A -> result B) (msg : string) :
  rbind r k = Throw msg -> r = Throw msg \/ exists a, r = Ok a /\ k a = Throw msg.
Proof.
  destruct r; simpl; intros H; [right; eauto | left; now injection H as -> | discriminate].
Qed.

Lemma isSingleOp_operators (ch : ascii) :
  isSingleOp ch = true -> In (String ch "") operators.
Proof.
  destruct ch as [[] [] [] [] [] [] [] []]; intros H; try discriminate H;
    unfold operators; simpl; tauto.
Qed.

Lemma isTwoCharOp_operators (two : string) :
  isTwoCharOp two = true -> In two operators.
Proof.
  unfold isTwoCharOp. intros H.
  apply orb_true_iff in H as [H|H]; [apply orb_true_iff in H as [H|H]|];
    apply String.eqb_eq in H; subst two; unfold operators; simpl; tauto.
Qed.

Lemma tokenize_loop_shapes (formula : string) (fuel : nat) :
  forall s ts, tokenize_loop fuel formula s = Ok ts -> Forall tokenShape ts.
Proof.
  induction fuel as [|fuel IH]; intros s ts H; [discriminate|].
  simpl in H. destruct s as [|ch rest]; [injection H as <-; constructor|].
  destruct (Char.isSpace ch); [eapply IH; eassumption|].
  destruct (Char.eqb ch dquote).
  { destruct (scanString rest "") as [out rest'].
    apply rbind_Ok in H as (ts' & H1 & [= <-]).
    constructor; [exact I | eapply IH; eassumption]. }
  destruct (isTwoCharOp (Str.slice2 (String ch rest))) eqn:Htwo.
  { apply rbind_Ok in H as (ts' & H1 & [= <-]).
    constructor; [now apply isTwoCharOp_operators | eapply IH; eassumption]. }
  destruct (isSingleOp ch) eqn:Hone.
  { apply rbind_Ok in H as (ts' & H1 & [= <-]).
    constructor; [now apply isSingleOp_operators | eapply IH; eassumption]. }
  destruct (Char.isDigit ch || _) eqn:Hnum.
  { pose proof (span_forallb isNumberPart rest) as Hbody.
    destruct (Str.span isNumberPart rest) as [body rest'] eqn:Hspan. simpl in Hbody.
    apply rbind_Ok in H as (ts' & H1 & [= <-]).
    constructor; [|eapply IH; eassumption].
    unfold tokenShape. simpl. split; [exact Hbody|].
    apply orb_true_iff in Hnum as [Hd|Hdot]; [now left | right].
    apply andb_true_iff in Hdot as [Hc Hd]. apply Char_eqb_eq in Hc.
    split; [exact Hc|].
    destruct rest as [|d rest0]; [discriminate|].
    simpl in Hspan. unfold isNumberPart at 1 in Hspan. rewrite Hd in Hspan. simpl in Hspan.
    destruct (Str.span isNumberPart rest0) as [a b]. injection Hspan as <- <-. eauto. }
  destruct (isIdentStart ch) eqn:Hid; [|discriminate].
  pose proof (span_forallb isIdentPart rest) as Hbody.
  destruct (Str.span isIdentPart rest) as [body rest']. simpl in Hbody.
  apply rbind_Ok in H as (ts' & H1 & [= <-]).
  constructor; [|eapply IH; eassumption].
  unfold tokenShape. simpl. auto.
Qed.

(** X7. Every token the tokenizer produces is well formed: an operator
    token is one of the fifteen operators and punctuation marks, an
    identifier token is a letter, underscore or anchor marker followed by
    letters, digits, underscores and anchor markers, and a number token is
    as in C7. *)
Theorem tokenize_token_shapes (formula : string) (ts : list token) (t : token) :
  tokenize formula = Ok ts -> In t ts -> tokenShape t.
Proof.
  intros H Hin. unfold tokenize in H. apply tokenize_loop_shapes in H.
  rewrite List.Forall_forall in H. now apply H.
Qed.

Lemma tokenize_token_shapes_witness :
  tokenShape {| type := TOp; value := "<=" |} /\
  tokenShape {| type := TIdent; value := "$a$1" |}.
Proof.
  split.
  - apply (tokenize_token_shapes "$a$1<=2"
             [ {| type := TIdent; value := "$a$1" |}; {| type := TOp; value := "<=" |};
               {| type := TNumber; value := "2" |} ]);
      [reflexivity | simpl; tauto].
  - apply (tokenize_token_shapes "$a$1<=2"
             [ {| type := TIdent; value := "$a$1" |}; {| type := TOp; value := "<=" |};
               {| type := TNumber; value := "2" |} ]);
      [reflexivity | simpl; tauto].
Defined.

Lemma tokenize_loop_throws (formula : string) (fuel : nat) :
  forall s msg, tokenize_loop fuel formula s = Throw msg ->
  exists ch : ascii,
    msg = "Unexpected char '" +:+ String ch "" +:+ "' in formula: " +:+ formula /\
    Char.isSpace ch = false /\ Char.eqb ch dquote = false /\ isSingleOp ch = false /\
    Char.isDigit ch = false /\ isIdentStart ch = false.
Proof.
  induction fuel as [|fuel IH]; intros s msg H; [discriminate|].
  assert (Hrec : forall (t : token) s',
             (ts <-r tokenize_loop fuel formula s' ;; Ok (t :: ts)) = Throw msg ->
             tokenize_loop fuel formula s' = Throw msg).
  { intros t s' Hb. apply rbind_Throw in Hb as [Hb|(ts' & _ & Hb)]; [exact Hb | discriminate]. }
  simpl in H. destruct s as [|ch rest]; [discriminate|].
  destruct (Char.isSpace ch) eqn:Hsp; [eapply IH; eassumption|].
  destruct (Char.eqb ch dquote) eqn:Hq.
  { destruct (scanString rest "") as [out rest']. eapply IH, Hrec, H. }
  destruct (isTwoCharOp (Str.slice2 (String ch rest))); [eapply IH, Hrec, H|].
  destruct (isSingleOp ch) eqn:Hone; [eapply IH, Hrec, H|].
  destruct (Char.isDigit ch || _) eqn:Hnum.
  { destruct (Str.span isNumberPart rest) as [body rest']. eapply IH, Hrec, H. }
  destruct (isIdentStart ch) eqn:Hid.
  { destruct (Str.span isIdentPart rest) as [body rest']. eapply IH, Hrec, H. }
  injection H as <-. exists ch. apply orb_false_iff in Hnum as [Hd _]. auto 10.
Qed.

(** X8. The tokenizer has one exception only: "Unexpected char", raised
    at a character that is no white space, quote, operator, digit, letter,
    underscore or anchor marker (a point is such a character when no digit
    follows it); the message quotes the character and the whole formula. *)
Theorem tokenize_only_exception (formula msg : string) :
  tokenize formula = Throw msg ->
  exists ch : ascii,
    msg = "Unexpected char '" +:+ String ch "" +:+ "' in formula: " +:+ formula /\
    Char.isSpace ch = false /\ Char.eqb ch dquote = false /\ isSingleOp ch = false /\
    Char.isDigit ch = false /\ isIdentStart ch = false.
Proof. unfold tokenize. apply tokenize_loop_throws. Qed.

Lemma tokenize_only_exception_witness :
  exists ch : ascii,
    "Unexpected char '.' in formula:  1 + .x" =
    "Unexpected char '" +:+ String ch "" +:+ "' in formula: " +:+ " 1 + .x" /\
    Char.isSpace ch = false /\ Char.eqb ch dquote = false /\ isSingleOp ch = false /\
    Char.isDigit ch = false /\ isIdentStart ch = false.
Proof.
  apply (tokenize_only_exception " 1 + .x" "Unexpected char '.' in formula:  1 + .x").
  reflexivity.
Defined.

(** *** White space and string literals *)

Lemma rev_app_append (a b acc : string) :
  String.rev_app (a +:+ b) acc = String.rev_app b (String.rev_app a acc).
Proof.
  revert acc. induction a as [|c a IH]; intros acc; simpl; [reflexivity | apply IH].
Qed.

Lemma rev_app_rev_app (a b c : string) :
  String.rev_app (String.rev_app a b) c = String.rev_app b (a +:+ c).
Proof.
  revert b c. induction a as [|x a IH]; intros b c; simpl; [reflexivity|].
  rewrite IH. reflexivity.
Qed.

Lemma rev_involutive (s : string) : String.rev (String.rev s) = s.
Proof. unfold String.rev. rewrite rev_app_rev_app. simpl. apply append_nil_r. Qed.

Lemma trim_left_start (c : ascii) (r : string) :
  Char.isSpace c = false -> Str.trim_left (String c r) = String c r.
Proof. intros H. unfold Str.trim_left. simpl. now rewrite H. Qed.

(** A text between two characters that are not white space is its own
    trimmed form. *)
Lemma trim_framed (c1 c2 : ascii) (mid : string) :
  Char.isSpace c1 = false -> Char.isSpace c2 = false ->
  Str.trim (String c1 (mid +:+ String c2 "")) = String c1 (mid +:+ String c2 "").
Proof.
  intros H1 H2. unfold Str.trim. rewrite trim_left_start by exact H1.
  assert (E : String.rev (String c1 (mid +:+ String c2 ""))
              = String c2 (String.rev_app mid (String c1 ""))).
  { unfold String.rev. simpl. now rewrite rev_app_append. }
  rewrite E, trim_left_start by exact H2.
  rewrite <- E. apply rev_involutive.
Qed.

Lemma span_all (p : ascii -> bool) (s : string) :
  Str.forallb p s = true -> Str.span p s = (s, "").
Proof.
  induction s as [|c s IH]; simpl; [reflexivity|].
  intros H. apply andb_true_iff in H as [Hc Hs]. now rewrite Hc, (IH Hs).
Qed.

Lemma trim_blank (s : string) : Str.forallb Char.isSpace s = true -> Str.trim s = "".
Proof.
  intros H. unfold Str.trim, Str.trim_left. now rewrite (span_all _ _ H).
Qed.

Lemma scanString_escaped (t : string) :
  forall out rest,
    match rest with String c _ => Char.eqb c dquote = false | EmptyString => True end ->
    scanString (escapeQuotes t +:+ String dquote rest) out = (out +:+ t, rest).
Proof.
  assert (Hq : Char.eqb dquote dquote = true) by reflexivity.
  induction t as [|c t IH]; intros out rest Hrest.
  - change (escapeQuotes "" +:+ String dquote rest) with (String dquote rest).
    cbn [scanString]. rewrite Hq, append_nil_r.
    destruct rest as [|c' r']; [reflexivity|]. now rewrite Hrest.
  - cbn [escapeQuotes]. destruct (Char.eqb c dquote) eqn:Ec.
    + change (String dquote (String dquote (escapeQuotes t)) +:+ String dquote rest)
        with (String dquote (String dquote (escapeQuotes t +:+ String dquote rest))).
      cbn [scanString]. rewrite Hq.
      rewrite IH by exact Hrest. apply Char_eqb_eq in Ec. subst c.
      now rewrite append_assoc.
    + change (String c (escapeQuotes t) +:+ String dquote rest)
        with (String c (escapeQuotes t +:+ String dquote rest)).
      cbn [scanString]. rewrite Ec, IH by exact Hrest. now rewrite append_assoc.
Qed.

Lemma scanString_unclosed (s : string) :
  Str.forallb notQuote s = true ->
  forall out, scanString s out = (out +:+ s, "").
Proof.
  induction s as [|c s IH]; intros Hs out; simpl.
  - now rewrite append_nil_r.
  - simpl in Hs. apply andb_true_iff in Hs as [Hc Hs]. unfold notQuote in Hc.
    apply negb_true_iff in Hc. rewrite Hc, (IH Hs). now rewrite append_assoc.
Qed.

(** X9. A string literal reads back: for every text [t], the literal that
    writes [t] between double quotes with each of its double quotes doubled
    is tokenized as the single string token [t]. *)
Theorem tokenize_stringLiteral (t : string) :
  tokenize (stringLiteral t) = Ok [ {| type := TString; value := t |} ].
Proof.
  unfold tokenize, stringLiteral.
  rewrite trim_framed by reflexivity.
  cbn [tokenize_loop String.length].
  change (Char.isSpace dquote) with false. cbv iota.
  change (Char.eqb dquote dquote) with true. cbv iota.
  rewrite (scanString_escaped t "" "" I).
  destruct (String.length (escapeQuotes t +:+ String dquote "")) eqn:El.
  - destruct (escapeQuotes t); discriminate El.
  - reflexivity.
Qed.

(** X10. A string literal that is not closed is no error: when the text
    after the opening quote holds no other quote (and the formula ends in
    no white space, which [tokenize] trims first), that text is the string
    token. *)
Theorem tokenize_unclosed_string (s : string) :
  Str.forallb notQuote s = true ->
  Str.trim (String dquote s) = String dquote s ->
  tokenize (String dquote s) = Ok [ {| type := TString; value := s |} ].
Proof.
  intros Hs Ht. unfold tokenize. rewrite Ht.
  cbn [tokenize_loop String.length].
  change (Char.isSpace dquote) with false. cbv iota.
  change (Char.eqb dquote dquote) with true. cbv iota.
  rewrite (scanString_unclosed s Hs ""). 
  destruct (String.length s); reflexivity.
Qed.

Lemma tokenize_unclosed_string_witness :
  tokenize (String dquote "a + b") = Ok [ {| type := TString; value := "a + b" |} ].
Proof. apply (tokenize_unclosed_string "a + b"); reflexivity. Defined.

(** X11. A formula made of white space only (the empty one included) has
    no token, and [parse] throws "Unexpected end of formula" on it. *)
Theorem parse_blank (formula : string) :
  Str.forallb Char.isSpace formula = true ->
  tokenize formula = Ok [] /\
  parse formula = Throw ("Unexpected end of formula: " +:+ formula).
Proof.
  intros H. assert (Ht : tokenize formula = Ok []).
  { unfold tokenize. now rewrite (trim_blank _ H). }
  split; [exact Ht|]. unfold parse. rewrite Ht. reflexivity.
Qed.

Lemma parse_blank_witness :
  parse "   " = Throw "Unexpected end of formula:    ".
Proof. apply (parse_blank "   "). reflexivity. Defined.

(** ** Parser: the trees it builds *)

Lemma okResult_bind {A B : Type} (good : A -> Prop) (good' : B -> Prop)
    (r : result (A * list token)) (k : A * list token -> result (B * list token)) :
  okResult good r ->
  (forall p, good (fst p) -> Forall tokenShape (snd p) -> okResult good' (k p)) ->
  okResult good' (rbind r k).
Proof. destruct r as [p| |]; simpl; [intros [H1 H2] Hk; now apply Hk | auto | auto]. Qed.

Lemma isOpIn_existsb (t : token) (ops : list string) :
  isOpIn t ops = true -> existsb (String.eqb (value t)) ops = true.
Proof. unfold isOpIn. destruct (type t); auto; discriminate. Qed.

Lemma toUpperCase_idem (s : string) :
  Str.toUpperCase (Str.toUpperCase s) = Str.toUpperCase s.
Proof.
  unfold Str.toUpperCase. induction s as [|c s IH]; simpl; [reflexivity|].
  now rewrite toUpper_idem, IH.
Qed.

Lemma identPart_noColon (c : ascii) : isIdentPart c = true -> noColon c = true.
Proof. destruct c as [[] [] [] [] [] [] [] []]; intros H; try reflexivity; discriminate H. Qed.

Lemma identTokenShape_text (s : string) :
  identTokenShape s -> isIdentText s = true /\ Str.forallb noColon s = true.
Proof.
  destruct s as [|c body]; simpl; [tauto|]. intros [Hc Hb]. split.
  - now rewrite Hc, Hb.
  - rewrite identPart_noColon by (unfold isIdentPart; now rewrite Hc). simpl.
    eapply forallb_impl; [|exact Hb]. apply identPart_noColon.
Qed.

Section ParserTrees.

Variable formula : string.

Let good (a : ast) : Prop := wellFormed a = true.
Let goods (l : list ast) : Prop := forallb wellFormed l = true.
Let TS (ts : list token) : Prop := Forall tokenShape ts.

Lemma parse_trees (fuel : nat) :
  (forall ts, TS ts -> okResult good (parseExpr formula fuel ts)) /\
  (forall ts, TS ts -> okResult good (parseCompare formula fuel ts)) /\
  (forall node ts, good node -> TS ts -> okResult good (parseCompare_loop formula fuel node ts)) /\
  (forall ts, TS ts -> okResult good (parseConcat formula fuel ts)) /\
  (forall node ts, good node -> TS ts -> okResult good (parseConcat_loop formula fuel node ts)) /\
  (forall ts, TS ts -> okResult good (parseAdd formula fuel ts)) /\
  (forall node ts, good node -> TS ts -> okResult good (parseAdd_loop formula fuel node ts)) /\
  (forall ts, TS ts -> okResult good (parseMul formula fuel ts)) /\
  (forall node ts, good node -> TS ts -> okResult good (parseMul_loop formula fuel node ts)) /\
  (forall ts, TS ts -> okResult good (parseUnary formula fuel ts)) /\
  (forall ts, TS ts -> okResult good (parsePrimary formula fuel ts)) /\
  (forall args ts, goods args -> TS ts -> okResult goods (parseArgs formula fuel args ts)).
Proof.
  induction fuel as [|fuel IH]; [repeat split; intros; exact I|].
  destruct IH as (HE & HC & HCl & HK & HKl & HA & HAl & HM & HMl & HU & HP & HG).
  assert (Htl : forall t r, TS (t :: r) -> TS r) by (intros t r H; now inversion H).
  assert (Hacc : forall op ts r, acceptOp op ts = Some r -> TS ts -> TS r).
  { intros op ts r E H. apply acceptOp_Some in E as [t ->]. eauto. }
  (* a level: its first operand, then its loop *)
  assert (Hlevel : forall (first : nat -> list token -> result (ast * list token))
                     (loop : nat -> ast -> list token -> result (ast * list token)) ts,
             (forall ts, TS ts -> okResult good (first fuel ts)) ->
             (forall node ts, good node -> TS ts -> okResult good (loop fuel node ts)) ->
             TS ts ->
             okResult good (p <-r first fuel ts ;; loop fuel (fst p) (snd p))).
  { intros first loop ts Hf Hl Hts.
    eapply okResult_bind; [now apply Hf|]. intros p Hp Hs. now apply Hl. }
  (* a turn of a loop: the operator is of the list, the operands are good *)
  assert (Hturn : forall (first : nat -> list token -> result (ast * list token))
                    (loop : nat -> ast -> list token -> result (ast * list token))
                    op node r,
             (forall ts, TS ts -> okResult good (first fuel ts)) ->
             (forall node ts, good node -> TS ts -> okResult good (loop fuel node ts)) ->
             existsb (String.eqb op) binaryOps = true -> good node -> TS r ->
             okResult good (p <-r first fuel r ;; loop fuel (Bin op node (fst p)) (snd p))).
  { intros first loop op node r Hf Hl Hop Hn Hr.
    eapply okResult_bind; [now apply Hf|]. intros p Hp Hs. apply Hl; [|exact Hs].
    unfold good in *. cbn [wellFormed]. now rewrite Hop, Hn, Hp. }
  assert (Hops : forall t ops, isOpIn t ops = true ->
                   (forall op, In op ops -> In op binaryOps) ->
                   existsb (String.eqb (value t)) binaryOps = true).
  { intros t ops H Hsub. apply isOpIn_existsb in H.
    apply List.existsb_exists in H as (op & Hin & Hop).
    apply List.existsb_exists. exists op. auto. }
  repeat split.
  - intros ts Hts. now apply HC.
  - intros ts Hts. simpl. now apply (Hlevel (parseConcat formula) (parseCompare_loop formula)).
  - intros node ts Hn Hts. simpl. destruct ts as [|t r]; [now split|].
    destruct (isOpIn t _) eqn:E; [|now split].
    apply (Hturn (parseConcat formula) (parseCompare_loop formula)); eauto.
    eapply Hops; [exact E|]. unfold binaryOps. simpl. tauto.
  - intros ts Hts. simpl. now apply (Hlevel (parseAdd formula) (parseConcat_loop formula)).
  - intros node ts Hn Hts. simpl. destruct (acceptOp "&" ts) as [r|] eqn:E; [|now split].
    apply (Hturn (parseAdd formula) (parseConcat_loop formula)); eauto.
  - intros ts Hts. simpl. now apply (Hlevel (parseMul formula) (parseAdd_loop formula)).
  - intros node ts Hn Hts. simpl. destruct ts as [|t r]; [now split|].
    destruct (isOpIn t _) eqn:E; [|now split].
    apply (Hturn (parseMul formula) (parseAdd_loop formula)); eauto.
    eapply Hops; [exact E|]. unfold binaryOps. simpl. tauto.
  - intros ts Hts. simpl. now apply (Hlevel (parseUnary formula) (parseMul_loop formula)).
  - intros node ts Hn Hts. simpl. destruct ts as [|t r]; [now split|].
    destruct (isOpIn t _) eqn:E; [|now split].
    apply (Hturn (parseUnary formula) (parseMul_loop formula)); eauto.
    eapply Hops; [exact E|]. unfold binaryOps. simpl. tauto.
  - intros ts Hts. simpl. destruct ts as [|t r]; [now apply HP|].
    destruct (isOpIn t _) eqn:E; [|now apply HP].
    eapply okResult_bind; [apply HU; eauto|]. intros p Hp Hs. split; [|exact Hs].
    unfold good in *. cbn [wellFormed fst]. apply isOpIn_existsb in E.
    unfold unaryOps. now rewrite E, Hp.
  - intros ts Hts. simpl. destruct ts as [|t r]; [exact I|].
    assert (Ht : tokenShape t) by now inversion Hts.
    assert (Hr : TS r) by exact (Htl _ _ Hts).
    destruct (isOp t "(").
    { eapply okResult_bind; [now apply HE|]. intros p Hp Hs.
      destruct (acceptOp ")" (snd p)) as [r'|] eqn:E; [|exact I].
      split; [exact Hp | exact (Hacc _ _ _ E Hs)]. }
    destruct (type t) eqn:Ety; try (now split).
    destruct (acceptOp "(" r) as [r1|] eqn:E1.
    { assert (Hr1 : TS r1) by exact (Hacc _ _ _ E1 Hr).
      destruct (acceptOp ")" r1) as [r2|] eqn:E2.
      - split; [|exact (Hacc _ _ _ E2 Hr1)].
        unfold good. simpl. now rewrite toUpperCase_idem, String.eqb_refl.
      - eapply okResult_bind; [now apply HG|]. intros p Hp Hs. split; [|exact Hs].
        unfold good, goods in *. simpl. now rewrite toUpperCase_idem, String.eqb_refl, Hp. }
    destruct (acceptOp ":" r) as [r1|] eqn:E2.
    { assert (Hr1 : TS r1) by exact (Hacc _ _ _ E2 Hr).
      destruct r1 as [|t2 r2]; [exact I|].
      destruct (type t2) eqn:Ety2; try exact I.
      assert (Ht2 : tokenShape t2) by now inversion Hr1.
      split; [|exact (Htl _ _ Hr1)]. unfold good. cbn [fst wellFormed].
      unfold tokenShape in Ht, Ht2. rewrite Ety in Ht. rewrite Ety2 in Ht2.
      apply identTokenShape_text in Ht as [Hi1 Hn1].
      apply identTokenShape_text in Ht2 as [Hi2 Hn2].
      change (value t +:+ String ":" (value t2)) with (value t +:+ ":" +:+ value t2).
      rewrite split_pair by assumption. now rewrite Hi1, Hi2. }
    destruct (isCellRef _) eqn:Ecell; (split; [|exact Hr]); unfold good; simpl.
    + exact Ecell.
    + now rewrite toUpperCase_idem, String.eqb_refl, Ecell.
  - intros args ts Ha Hts. simpl.
    eapply okResult_bind; [now apply HE|]. intros p Hp Hs.
    assert (Hargs : goods (args ++ [fst p])).
    { unfold goods, good in *. rewrite List.forallb_app. simpl. now rewrite Ha, Hp. }
    destruct (acceptOp ")" (snd p)) as [r|] eqn:E;
      [split; [exact Hargs | exact (Hacc _ _ _ E Hs)]|].
    destruct (acceptOp "," (snd p)) as [r|] eqn:E'; [|exact I].
    apply HG; [exact Hargs | exact (Hacc _ _ _ E' Hs)].
Qed.

End ParserTrees.

Lemma parse_wellFormed (formula : string) (a : ast) :
  parse formula = Ok a -> wellFormed a = true.
Proof.
  unfold parse. intros H.
  apply rbind_Ok in H as (tokens & Ht & H).
  apply rbind_Ok in H as (p & Hp & H).
  unfold tokenize in Ht. apply tokenize_loop_shapes in Ht.
  destruct (parse_trees formula (parse_fuel tokens)) as (HE & _).
  specialize (HE tokens Ht). rewrite Hp in HE. destruct HE as [Hg _].
  destruct (snd p); [|discriminate]. now injection H as <-.
Qed.

(** X12. Every tree [parse] returns is well formed: its binary operators
    are among the eleven of the grammar and its unary ones are + and -, so
    that the fall-through cases of [evalAst] are never taken on it; a cell
    node has the shape of a cell reference; a range node is two identifiers
    around one colon, so that [expandRange] always finds its two corners;
    function names and bare names are in upper case. *)
Theorem parse_builds_wellFormed (formula : string) (a : ast) :
  parse formula = Ok a -> wellFormed a = true.
Proof. apply parse_wellFormed. Qed.

Lemma parse_builds_wellFormed_witness :
  wellFormed (Call "IF" [Bin ">=" (Cell "a1") (Unary "-" (Name "X")); Range "b2:$C$3"]) = true.
Proof.
  apply (parse_builds_wellFormed "if(a1 >= -x, b2:$C$3)"). reflexivity.
Defined.

Lemma filter_append (p : ascii -> bool) (a b : string) :
  Str.filter p (a +:+ b) = Str.filter p a +:+ Str.filter p b.
Proof.
  induction a as [|c a IH]; simpl; [reflexivity|].
  destruct (p c); simpl; now rewrite IH.
Qed.

Lemma filter_all (p : ascii -> bool) (s : string) :
  Str.forallb p s = true -> Str.filter p s = s.
Proof.
  induction s as [|c s IH]; simpl; [reflexivity|].
  intros H. apply andb_true_iff in H as [Hc Hs]. now rewrite Hc, (IH Hs).
Qed.

Lemma filter_toUpperCase (s : string) :
  Str.filter notDollar (Str.toUpperCase s) = Str.toUpperCase (Str.filter notDollar s).
Proof.
  unfold Str.toUpperCase, notDollar. induction s as [|c s IH]; simpl; [reflexivity|].
  rewrite toUpper_dollar. destruct (Char.eqb c "$"); simpl; now rewrite IH.
Qed.

Lemma refChar_notDollar (c : ascii) : refChar c = true -> notDollar c = true.
Proof. destruct c as [[] [] [] [] [] [] [] []]; intros H; try reflexivity; discriminate H. Qed.

(** A text with the shape of a cell reference, its anchor markers taken
    away, is letters followed by digits. *)
Lemma isCellRef_refShape (u : string) :
  isCellRef u = true -> refShape (Str.filter notDollar u).
Proof.
  unfold isCellRef.
  set (s1 := match u with String "$" r => r | _ => u end).
  assert (Hu : Str.filter notDollar u = Str.filter notDollar s1).
  { subst s1. destruct u as [|c r]; [reflexivity|].
    destruct c as [[] [] [] [] [] [] [] []]; reflexivity. }
  pose proof (span_append Char.isUpper s1) as Happ.
  pose proof (span_forallb Char.isUpper s1) as Hup.
  destruct (Str.span Char.isUpper s1) as [letters s2]. simpl in Happ, Hup.
  set (s3 := match s2 with String "$" r => r | _ => s2 end).
  assert (H2 : Str.filter notDollar s2 = Str.filter notDollar s3).
  { subst s3. destruct s2 as [|c r]; [reflexivity|].
    destruct c as [[] [] [] [] [] [] [] []]; reflexivity. }
  intros H. apply andb_true_iff in H as [H Hdig].
  apply andb_true_iff in H as [H Hne]. apply andb_true_iff in H as [Hlen _].
  exists letters, s3.
  assert (Hl : Str.filter notDollar letters = letters).
  { apply filter_all. eapply forallb_impl; [|exact Hup].
    intros c Hc. apply refChar_notDollar. unfold refChar. now rewrite Hc. }
  assert (Hd : Str.filter notDollar s3 = s3).
  { apply filter_all. eapply forallb_impl; [|exact Hdig].
    intros c Hc. apply refChar_notDollar. unfold refChar. rewrite Hc. apply orb_true_r. }
  repeat split.
  - rewrite Hu, <- Happ, filter_append, H2, Hl, Hd. reflexivity.
  - intros ->. discriminate Hlen.
  - apply negb_true_iff, isEmpty_false in Hne. exact Hne.
  - exact Hup.
  - exact Hdig.
Qed.

Lemma wellFormed_cellRefs (a : ast) :
  wellFormed a = true ->
  forall r, In r (cellRefs a) -> isCellRef (Str.toUpperCase r) = true.
Proof.
  induction a as [x|s|r0|r0|n|op e IH|op l r0 IHl IHr|n args IH] using ast_nested_ind;
    simpl; intros Hw r Hin; try contradiction.
  - destruct Hin as [<-|[]]. exact Hw.
  - apply andb_true_iff in Hw as [_ Hw]. now apply IH.
  - apply andb_true_iff in Hw as [Hw Hr]. apply andb_true_iff in Hw as [_ Hl].
    apply List.in_app_or in Hin as [Hin|Hin]; [now apply IHl | now apply IHr].
  - apply andb_true_iff in Hw as [_ Hw].
    apply List.in_flat_map in Hin as (x & Hx & Hin).
    rewrite List.Forall_forall in IH. apply (IH x Hx); [|exact Hin].
    rewrite List.forallb_forall in Hw. now apply Hw.
Qed.

(** X13. Every cell node of a tree [parse] returns carries a reference
    that normalizes to letters followed by digits: [evalCell] is only ever
    asked by a formula for well-formed references. *)
Theorem parse_cellRefs_wellformed (formula : string) (a : ast) (r : string) :
  parse formula = Ok a -> In r (cellRefs a) -> refShape (normalizeRef r).
Proof.
  intros Hp Hin. apply parse_wellFormed in Hp.
  pose proof (wellFormed_cellRefs a Hp r Hin) as Hc.
  apply isCellRef_refShape in Hc.
  rewrite filter_toUpperCase in Hc. exact Hc.
Qed.

Lemma parse_cellRefs_wellformed_witness : refShape (normalizeRef "$ab$12").
Proof.
  apply (parse_cellRefs_wellformed "1 + SUM($ab$12, 2)"
           (Bin "+" (Num one) (Call "SUM" [Cell "$ab$12"; Num (Num.ofZ 2)])) "$ab$12").
  - reflexivity.
  - simpl. tauto.
Defined.

(** X14. [tokenize] and [parse] return or throw on every formula: the
    descent of the parser never nests more than nine calls per token. *)
Theorem parse_terminates (formula : string) :
  tokenize formula <> Fuel /\ parse formula <> Fuel /\
  forall tokens, tokenize formula = Ok tokens ->
    parseExpr formula (9 * List.length tokens + 7) tokens <> Fuel.
Proof.
  split; [apply tokenize_total|]. split; [apply parse_total|].
  intros tokens _. apply parse_never_Fuel. lia.
Qed.
(** ** Sessions: what [evalCell] keeps *)

Lemma noFormula_false (fo : option string) :
  noFormula fo = false -> exists src, fo = Some src /\ src <> "".
Proof.
  destruct fo as [src|]; [|discriminate]. simpl. intros H.
  exists src. split; [reflexivity|]. now apply isEmpty_false.
Qed.

Lemma binop_defined (op : string) (l r : jsval) : isBlankValue (binop op l r) = false.
Proof. unfold binop. repeat (destruct (String.eqb op _); [reflexivity|]). reflexivity. Qed.

Lemma unop_defined (op : string) (x : jsval) : isBlankValue (unop op x) = false.
Proof. unfold unop. repeat (destruct (String.eqb op _); [reflexivity|]). reflexivity. Qed.

Lemma rawOut_defined (x : jsval) : isBlankValue (rawOut x) = false.
Proof. unfold rawOut. destruct (isNumberLike x); [reflexivity|]. now destruct x. Qed.

Section Post.

Variable P : session -> Prop.
Variable R : session -> session -> Prop.
Variable E : string -> Prop.
Hypothesis R_refl : forall st, R st st.
Hypothesis R_trans : forall a b c, R a b -> R b c -> R a c.

Lemma post_lift {A : Type} (V : A -> Prop) (r : result A) (st : session) :
  (forall a, r = Ok a -> V a) -> (forall msg, r = Throw msg -> E msg) ->
  post P R V E st (lift r st).
Proof. intros Ha Hm HP. unfold lift. simpl. repeat split; auto. destruct r; auto. Qed.

Lemma post_ret {A : Type} (V : A -> Prop) (a : A) (st : session) :
  V a -> post P R V E st (ret a st).
Proof. intros Ha. apply (post_lift V (Ok a)); [now intros ? [= <-] | discriminate]. Qed.

Lemma post_throw {A : Type} (V : A -> Prop) (msg : string) (st : session) :
  E msg -> post P R V E st (@throw A msg st).
Proof. intros Hm. apply (post_lift V (Throw msg)); [discriminate | now intros ? [= <-]]. Qed.

Lemma post_bind {A B : Type} (V1 : A -> Prop) (V2 : B -> Prop)
    (m : M A) (k : A -> M B) (st : session) :
  post P R V1 E st (m st) ->
  (forall a st1, V1 a -> post P R V2 E st1 (k a st1)) ->
  post P R V2 E st (bind m k st).
Proof.
  intros Hm Hk HP. unfold bind. specialize (Hm HP).
  destruct (m st) as [[a| |] st1]; simpl in *; try tauto.
  destruct Hm as (HP1 & HR1 & Ha).
  destruct (Hk a st1 Ha HP1) as (HP2 & HR2 & Hb). eauto.
Qed.

Variable V : jsval -> Prop.
Hypothesis V_defined : forall x, isBlankValue x = false -> V x.
Hypothesis E_type : E typeError.
Hypothesis E_range : forall r msg, expandRange r = Throw msg -> E msg.

Variable ec : string -> list string -> M jsval.
Variable stack : list string.
Hypothesis Hec : forall r st, post P R V E st (ec r stack st).

Lemma evalCells_post (refs : list string) (st : session) :
  post P R (fun _ : list jsval => True) E st (evalCells ec refs stack st).
Proof.
  revert st. induction refs as [|r refs IH]; intros st; simpl.
  - now apply post_ret.
  - eapply post_bind; [apply Hec|]. intros x st1 _.
    eapply post_bind; [apply IH|]. intros xs st2 _. now apply post_ret.
Qed.

Lemma evalAst_post (node : ast) :
  forall st, post P R V E st (evalAst ec node stack st).
Proof.
  induction node as [x|s|r|r|n|op e IH|op l r IHl IHr|n args IH] using ast_nested_ind;
    intros st; cbn [evalAst].
  - now apply post_ret, V_defined.
  - now apply post_ret, V_defined.
  - apply Hec.
  - eapply (post_bind (fun _ => True)).
    + apply post_lift; [trivial | apply E_range].
    + intros refs st1 _. eapply post_bind; [apply evalCells_post|].
      intros xs st2 _. now apply post_ret, V_defined.
  - now apply post_ret, V_defined.
  - eapply post_bind; [apply IH|]. intros x st1 _.
    apply post_ret, V_defined, unop_defined.
  - eapply post_bind; [apply IHl|]. intros x st1 _.
    eapply post_bind; [apply IHr|]. intros y st2 _.
    apply post_ret, V_defined, binop_defined.
  - destruct (String.eqb n "IF").
    { destruct IH as [|c branches Hc Hb]; [now apply post_throw|].
      eapply post_bind; [apply Hc|]. intros x st1 _.
      destruct (truthyExcel x).
      - destruct Hb as [|t rest Ht _]; [now apply post_throw | apply Ht].
      - destruct Hb as [|t rest _ Hb]; [now apply post_ret, V_defined|].
        destruct Hb as [|e rest' He _]; [now apply post_ret, V_defined | apply He]. }
    destruct (String.eqb n "SUM").
    { generalize Num.zero. revert st.
      induction IH as [|arg rest Harg _ IHrest]; intros st sum.
      - now apply post_ret, V_defined.
      - eapply post_bind; [apply Harg|]. intros x st1 _. apply IHrest. }
    destruct (String.eqb n "TRIM"); [|now apply post_ret, V_defined].
    destruct IH as [|a rest Ha _]; [now apply post_throw|].
    eapply post_bind; [apply Ha|]. intros x st1 _. now apply post_ret, V_defined.
Qed.

End Post.

Lemma extends_refl (stack : list string) (st : session) : extends stack st st.
Proof. repeat split; auto. Qed.

Lemma extends_trans (stack : list string) (a b c : session) :
  extends stack a b -> extends stack b c -> extends stack a c.
Proof. intros (H1 & H2 & H3) (K1 & K2 & K3). repeat split; auto. Qed.

Lemma extends_weaken (stack : list string) (x : string) (a b : session) :
  extends (stack ++ [x]) a b -> extends stack a b.
Proof.
  intros (H1 & H2 & H3). repeat split; auto.
  intros k Hk. apply H2. apply elem_of_app. now left.
Qed.

Lemma extends_cache_set (stack : list string) (nref : string) (out : jsval)
    (st : session) :
  cache st !! nref = None -> nref ∉ stack ->
  extends stack st {| cache := <[nref := out]> (cache st); astCache := astCache st |}.
Proof.
  intros Hc Hs. repeat split; simpl; auto.
  - intros k x Hk. rewrite lookup_insert_ne; [exact Hk | congruence].
  - intros k Hk Hn. rewrite lookup_insert_ne; [exact Hn | congruence].
Qed.

(** [parseCached] leaves the value cache alone; it adds a tree for a text
    that had none, and the exception of [parse] leaves the session as it
    was. *)
Lemma parseCached_cases (src : string) (st : session) :
  (exists a, astCache st !! src = Some a /\ parseCached src st = (Ok a, st)) \/
  (exists a, astCache st !! src = None /\ parse src = Ok a /\
     parseCached src st =
     (Ok a, {| cache := cache st; astCache := <[src := a]> (astCache st) |})) \/
  (exists msg, astCache st !! src = None /\ parse src = Throw msg /\
     parseCached src st = (Throw msg, st)).
Proof.
  unfold parseCached. destruct (astCache st !! src) as [a|] eqn:Ha.
  - left. eauto.
  - right. unfold bind, lift. destruct (parse src) as [a|msg|] eqn:Hp.
    + left. exists a. auto.
    + right. exists msg. auto.
    + now destruct (parse_total src).
Qed.

Lemma parseCached_extends (src : string) (stack : list string) (st : session) :
  extends stack st (snd (parseCached src st)) /\
  cache (snd (parseCached src st)) = cache st.
Proof.
  destruct (parseCached_cases src st)
    as [(a & Ha & ->)|[(a & Ha & Hp & ->)|(msg & Ha & Hp & ->)]]; simpl;
    try (split; [apply extends_refl | reflexivity]).
  split; [|reflexivity]. repeat split; simpl; auto.
  intros s b Hs. rewrite lookup_insert_ne; [exact Hs | congruence].
Qed.

Lemma evalCell_extends (this : SheetEvaluator) (fuel : nat) :
  forall ref stack st, extends stack st (snd (evalCell this fuel ref stack st)).
Proof.
  induction fuel as [|fuel IH]; intros ref stack st; [apply extends_refl|].
  destruct (cache st !! normalizeRef ref) as [out|] eqn:Hc.
  { cbn [evalCell]. rewrite Hc. apply extends_refl. }
  destruct (includes stack (normalizeRef ref)) eqn:Hi.
  { rewrite evalCell_on_stack by assumption. apply extends_refl. }
  apply includes_false in Hi as Hn.
  destruct (noFormula (getCellFormula this (normalizeRef ref))) eqn:Hf.
  { rewrite evalCell_raw by assumption. now apply extends_cache_set. }
  destruct (noFormula_false _ Hf) as (src & Hsrc & Hne).
  rewrite (evalCell_formula this ref src) by assumption.
  unfold bind at 1.
  destruct (parseCached_extends src stack st) as [H1 Hc1].
  destruct (parseCached src st) as [[a| |] st1]; simpl in H1, Hc1; try exact H1.
  unfold bind at 1.
  assert (Hec : forall r st0,
             post (fun _ => True) (extends (stack ++ [normalizeRef ref]))
               (fun _ : jsval => True) (fun _ => True) st0
               (evalCell this fuel r (stack ++ [normalizeRef ref]) st0)).
  { intros r st0 _. split; [exact I|]. split; [apply IH|].
    now destruct (fst (evalCell this fuel r (stack ++ [normalizeRef ref]) st0)). }
  pose proof (evalAst_post (fun _ => True) (extends (stack ++ [normalizeRef ref]))
                (fun _ => True) (extends_refl _) (extends_trans _)
                (fun _ => True) (fun _ _ => I) I (fun _ _ _ => I)
                (evalCell this fuel) (stack ++ [normalizeRef ref]) Hec
                a st1 I) as (_ & H2 & _).
  assert (Hc2 : cache (snd (evalAst (evalCell this fuel) a (stack ++ [normalizeRef ref]) st1))
                !! normalizeRef ref = None).
  { apply H2; [apply elem_of_app; right; apply list_elem_of_here | congruence]. }
  apply extends_weaken in H2.
  destruct (evalAst (evalCell this fuel) a (stack ++ [normalizeRef ref]) st1)
    as [[out| |] st2]; simpl in *; try exact (extends_trans _ _ _ _ H1 H2).
  eapply extends_trans; [exact H1|]. eapply extends_trans; [exact H2|].
  now apply extends_cache_set.
Qed.

Section Invariant.

Variable this : SheetEvaluator.
Variable P : session -> Prop.
Variable V : jsval -> Prop.
Variable E : string -> Prop.
Hypothesis V_defined : forall x, isBlankValue x = false -> V x.
Hypothesis V_hit : forall st k x, P st -> cache st !! k = Some x -> V x.
Hypothesis P_cache : forall st k x,
  P st -> V x -> P {| cache := <[k := x]> (cache st); astCache := astCache st |}.
Hypothesis P_ast : forall st src a,
  P st -> parse src = Ok a ->
  P {| cache := cache st; astCache := <[src := a]> (astCache st) |}.
Hypothesis E_type : E typeError.
Hypothesis E_range : forall r msg, expandRange r = Throw msg -> E msg.
Hypothesis E_parse : forall src msg, parse src = Throw msg -> E msg.

Let anyStep (_ _ : session) : Prop := True.

Lemma parseCached_post (src : string) (st : session) :
  post P anyStep (fun _ : ast => True) E st (parseCached src st).
Proof.
  intros HP.
  destruct (parseCached_cases src st)
    as [(a & Ha & ->)|[(a & Ha & Hp & ->)|(msg & Ha & Hp & ->)]]; simpl;
    repeat split; eauto.
Qed.

Lemma evalCell_post (fuel : nat) :
  forall ref stack st, post P anyStep V E st (evalCell this fuel ref stack st).
Proof.
  induction fuel as [|fuel IH]; intros ref stack st; [now intros HP|].
  destruct (cache st !! normalizeRef ref) as [out|] eqn:Hc.
  { cbn [evalCell]. rewrite Hc. intros HP. simpl. repeat split; eauto. }
  destruct (includes stack (normalizeRef ref)) eqn:Hi.
  { rewrite evalCell_on_stack by assumption. intros HP. simpl. repeat split; auto. }
  destruct (noFormula (getCellFormula this (normalizeRef ref))) eqn:Hf.
  { rewrite evalCell_raw by assumption. intros HP. simpl.
    pose proof (V_defined _ (rawOut_defined (getCellRaw this (normalizeRef ref)))).
    repeat split; auto. }
  destruct (noFormula_false _ Hf) as (src & Hsrc & Hne).
  rewrite (evalCell_formula this ref src) by assumption.
  assert (Ht : forall a b c : session, anyStep a b -> anyStep b c -> anyStep a c)
    by (intros; exact I).
  eapply (post_bind P anyStep E Ht); [apply parseCached_post|]. intros a st1 _.
  eapply (post_bind P anyStep E Ht).
  { apply (evalAst_post P anyStep E (fun _ => I) Ht V V_defined E_type E_range
             (evalCell this fuel) (stack ++ [normalizeRef ref])).
    intros r st0. apply IH. }
  intros out st2 Hout HP. simpl. repeat split; auto.
Qed.

End Invariant.

Lemma evalCell_astCacheSound (this : SheetEvaluator) (fuel : nat) (ref : string)
    (stack : list string) (st : session) :
  astCacheSound st -> astCacheSound (snd (evalCell this fuel ref stack st)).
Proof.
  intros HP.
  refine (proj1 (evalCell_post this astCacheSound (fun _ => True) (fun _ => True)
                   _ _ _ _ _ _ _ fuel ref stack st HP)); auto.
  intros st0 src a H0 Hp s b. simpl.
  destruct (decide (s = src)) as [->|Hs].
  - rewrite lookup_insert_eq. congruence.
  - rewrite lookup_insert_ne by congruence. apply H0.
Qed.

Lemma evalCell_cacheDefined (this : SheetEvaluator) (fuel : nat) (ref : string)
    (stack : list string) (st : session) :
  cacheDefined st ->
  cacheDefined (snd (evalCell this fuel ref stack st)) /\
  forall x, fst (evalCell this fuel ref stack st) = Ok x -> isBlankValue x = false.
Proof.
  intros HP.
  destruct (evalCell_post this cacheDefined (fun x => isBlankValue x = false)
              (fun _ => True)) with (fuel := fuel) (ref := ref) (stack := stack) (st := st)
    as (H1 & _ & H2); auto.
  - intros st0 k x H0 Hk. exact (H0 k x Hk).
  - intros st0 k x H0 Hx k' x'. simpl.
    destruct (decide (k' = k)) as [->|Hk].
    + rewrite lookup_insert_eq. congruence.
    + rewrite lookup_insert_ne by congruence. apply H0.
  - split; [exact H1|]. intros x Hx. now rewrite Hx in H2.
Qed.

(** X15. The exceptions of [evalCell] are of these kinds and no other: the
    [TypeError] of an [IF] or [TRIM] called without its first argument, the
    [Bad cell ref] of a range whose corner is not a reference, the
    exception [parse] raises for the formula of some cell, and the
    [RangeError] of the engine when the call stack, a string or an array
    outgrows its limit (a long chain of cells, a deeply nested formula). *)
Theorem evalCell_exceptions (this : SheetEvaluator) (fuel : nat) (ref : string)
    (stack : list string) (st : session) (msg : string) :
  fst (evalCell this fuel ref stack st) = Throw msg -> evalException msg.
Proof.
  intros Hm.
  destruct (evalCell_post this (fun _ => True) (fun _ => True) evalException)
    with (fuel := fuel) (ref := ref) (stack := stack) (st := st)
    as (_ & _ & H2); auto.
  - now left.
  - intros r m Hr. right. left. unfold expandRange in Hr.
    set (parts := List.map normalizeRef (Str.split ":" r)) in Hr.
    assert (Hs : forall x p, splitRef x = Throw p -> p = "Bad cell ref: " +:+ x).
    { intros x p. unfold splitRef. destruct (matchRef x) as [[? ?]|]; [discriminate|].
      now intros [= <-]. }
    destruct (splitRef (nth 0 parts "undefined")) as [ra|p|] eqn:Ea; simpl in Hr.
    + destruct (splitRef (nth 1 parts "undefined")) as [rb|p|] eqn:Eb; simpl in Hr;
        try discriminate.
      * now destruct (expandRange_rows_not_Throw _ _ _ _ _ _ _ _ Hr).
      * injection Hr as <-. eauto.
    + injection Hr as <-. eauto.
    + discriminate.
  - intros src m Hp. right. right. left. eauto.
  - now rewrite Hm in H2.
Qed.

Lemma evalCell_exceptions_witness :
  evalException "Bad cell ref: B".
Proof.
  apply (evalCell_exceptions
           (new_SheetEvaluator {[ "A1" := formulaCell "SUM(A1:B)" ]} [])
           2 "A1" [] fresh).
  vm_compute. reflexivity.
Defined.

Lemma reachable_extends (this : SheetEvaluator) (st st' : session) :
  reachable this st st' -> extends [] st st'.
Proof.
  induction 1 as [|st1 fuel ref stack _ IH]; [apply extends_refl|].
  eapply extends_trans; [exact IH|].
  destruct (evalCell_extends this fuel ref stack st1) as (H1 & _ & H3).
  repeat split; auto. intros k Hk. now apply elem_of_nil in Hk.
Qed.

Lemma reachable_fresh (this : SheetEvaluator) (st : session) :
  reachable this fresh st -> astCacheSound st /\ cacheDefined st.
Proof.
  induction 1 as [|st1 fuel ref stack _ [IHa IHc]].
  - split; intros k x Hk; simpl in Hk; now rewrite lookup_empty in Hk.
  - split; [now apply evalCell_astCacheSound | now apply evalCell_cacheDefined].
Qed.

(** A value [evalCell] returns for a reference that is not on the stack is
    the value the cache then holds for it. *)
Lemma evalCell_Ok_cached (this : SheetEvaluator) (fuel : nat) (ref : string)
    (stack : list string) (st st1 : session) (x : jsval) :
  includes stack (normalizeRef ref) = false ->
  evalCell this fuel ref stack st = (Ok x, st1) ->
  cache st1 !! normalizeRef ref = Some x.
Proof.
  intros Hi. destruct fuel as [|fuel]; [discriminate|].
  destruct (cache st !! normalizeRef ref) as [out|] eqn:Hc.
  { cbn [evalCell]. rewrite Hc. now intros [= <- <-]. }
  destruct (noFormula (getCellFormula this (normalizeRef ref))) eqn:Hf.
  { rewrite evalCell_raw by assumption. intros [= <- <-]. simpl.
    apply lookup_insert_eq. }
  destruct (noFormula_false _ Hf) as (src & Hsrc & Hne).
  rewrite (evalCell_formula this ref src) by assumption.
  unfold bind at 1. destruct (parseCached src st) as [[a| |] st0]; try discriminate.
  unfold bind at 1.
  destruct (evalAst (evalCell this fuel) a (stack ++ [normalizeRef ref]) st0)
    as [[out| |] st2]; try discriminate.
  unfold bind, cache_set, ret. intros [= <- <-]. simpl. apply lookup_insert_eq.
Qed.

Lemma evalCell_hit (this : SheetEvaluator) (fuel : nat) (ref : string)
    (stack : list string) (st : session) (x : jsval) :
  cache st !! normalizeRef ref = Some x ->
  evalCell this (S fuel) ref stack st = (Ok x, st).
Proof. intros Hc. cbn [evalCell]. now rewrite Hc. Qed.

(** X16. A call of [evalCell] only adds to the two caches: every value and
    every tree the session held is still there, unchanged, and no reference
    of the stack -- no cell whose formula is being evaluated -- has been
    given a value. *)
Theorem evalCell_keeps_caches (this : SheetEvaluator) (fuel : nat) (ref : string)
    (stack : list string) (st : session) :
  let st' := snd (evalCell this fuel ref stack st) in
  (forall k x, cache st !! k = Some x -> cache st' !! k = Some x) /\
  (forall k, k ∈ stack -> cache st !! k = None -> cache st' !! k = None) /\
  (forall src a, astCache st !! src = Some a -> astCache st' !! src = Some a).
Proof. exact (evalCell_extends this fuel ref stack st). Qed.

(** X17. Memoization: once [evalCell] has returned a value for a reference
    that was not on the stack, every later call of the session for that
    cell -- under any spelling of the reference, any stack, and after any
    other calls -- returns that value and leaves the session alone. *)
Theorem evalCell_memoized (this : SheetEvaluator) (fuel : nat) (ref : string)
    (stack : list string) (st st1 : session) (x : jsval) :
  includes stack (normalizeRef ref) = false ->
  evalCell this fuel ref stack st = (Ok x, st1) ->
  forall st2, reachable this st1 st2 ->
  forall fuel' ref' stack',
    normalizeRef ref' = normalizeRef ref ->
    evalCell this (S fuel') ref' stack' st2 = (Ok x, st2).
Proof.
  intros Hi He st2 Hr fuel' ref' stack' Hn.
  apply evalCell_hit. rewrite Hn.
  apply (reachable_extends this st1 st2 Hr).
  exact (evalCell_Ok_cached this fuel ref stack st st1 x Hi He).
Qed.

Lemma evalCell_memoized_witness :
  let this := new_SheetEvaluator
                {[ "A1" := formulaCell "B1+1"; "B1" := valueCell (VNum one) ]} [] in
  let st1 := snd (evalCell this 2 "A1" [] fresh) in
  let st2 := snd (evalCell this 2 "B1" [] st1) in
  evalCell this 1 "$a$1" ["A1"] st2 = (Ok (VNum (Num.ofZ 2)), st2).
Proof.
  intros this st1 st2.
  apply (evalCell_memoized this 2 "A1" [] fresh st1 (VNum (Num.ofZ 2)));
    [reflexivity | vm_compute; reflexivity | | reflexivity].
  apply reachable_step, reachable_refl.
Defined.

(** X18. Only a cell with a formula makes [evalCell] raise, and a failure
    is not cached: when [evalCell] raises for a reference, the cell has a
    non-empty formula, and the cache holds no value for it.
    The next call therefore evaluates the formula again. *)
Theorem evalCell_throw_not_cached (this : SheetEvaluator) (fuel : nat)
    (ref : string) (stack : list string) (st st1 : session) (msg : string) :
  evalCell this fuel ref stack st = (Throw msg, st1) ->
  (exists src, getCellFormula this (normalizeRef ref) = Some src /\ src <> "") /\
  includes stack (normalizeRef ref) = false /\
  cache st !! normalizeRef ref = None /\
  cache st1 !! normalizeRef ref = None.
Proof.
  destruct fuel as [|fuel]; [discriminate|].
  destruct (cache st !! normalizeRef ref) as [out|] eqn:Hc.
  { cbn [evalCell]. rewrite Hc. discriminate. }
  destruct (includes stack (normalizeRef ref)) eqn:Hi.
  { rewrite evalCell_on_stack by assumption. discriminate. }
  destruct (noFormula (getCellFormula this (normalizeRef ref))) eqn:Hf.
  { rewrite evalCell_raw by assumption. discriminate. }
  destruct (noFormula_false _ Hf) as (src & Hsrc & Hne).
  rewrite (evalCell_formula this ref src) by assumption.
  intros He. repeat split; eauto. revert He.
  unfold bind at 1. destruct (parseCached_extends src stack st) as [_ Hc1].
  destruct (parseCached src st) as [[a| |] st0]; simpl in Hc1;
    [|intros [= _ <-]; congruence | discriminate].
  unfold bind at 1.
  assert (Hec : forall r st',
             post (fun _ => True) (extends (stack ++ [normalizeRef ref]))
               (fun _ : jsval => True) (fun _ => True) st'
               (evalCell this fuel r (stack ++ [normalizeRef ref]) st')).
  { intros r st' _. split; [exact I|]. split; [apply evalCell_extends|].
    now destruct (fst (evalCell this fuel r (stack ++ [normalizeRef ref]) st')). }
  pose proof (evalAst_post (fun _ => True) (extends (stack ++ [normalizeRef ref]))
                (fun _ => True) (extends_refl _) (extends_trans _)
                (fun _ => True) (fun _ _ => I) I (fun _ _ _ => I)
                (evalCell this fuel) (stack ++ [normalizeRef ref]) Hec
                a st0 I) as (_ & (_ & H2 & _) & _).
  destruct (evalAst (evalCell this fuel) a (stack ++ [normalizeRef ref]) st0)
    as [[out| |] st2]; try discriminate.
  intros [= _ <-]. apply H2; [|congruence].
  apply elem_of_app. right. apply list_elem_of_here.
Qed.

Lemma evalCell_throw_not_cached_witness :
  let this := new_SheetEvaluator
                {[ "A1" := formulaCell "B1+SUM(A1:B)"; "B1" := valueCell (VNum one) ]} [] in
  let st1 := snd (evalCell this 2 "A1" [] fresh) in
  cache st1 !! "A1" = None /\ cache st1 !! "B1" = Some (VNum one).
Proof.
  intros this st1. split; [|vm_compute; reflexivity].
  refine (proj2 (proj2 (proj2
    (evalCell_throw_not_cached this 2 "A1" [] fresh st1 "Bad cell ref: B" _)))).
  vm_compute. reflexivity.
Defined.

(** X19. In a session that started fresh, every tree of the AST cache is
    the tree [parse] builds for the formula text it is stored under: a
    cached tree never stands for another formula. *)
Theorem astCache_sound (this : SheetEvaluator) (st : session) (src : string)
    (a : ast) :
  reachable this fresh st ->
  astCache st !! src = Some a ->
  parse src = Ok a.
Proof. intros Hr. apply (reachable_fresh this st Hr). Qed.

Lemma astCache_sound_witness :
  parse "B1+1" = Ok (Bin "+" (Cell "B1") (Num one)).
Proof.
  apply (astCache_sound
           (new_SheetEvaluator
              {[ "A1" := formulaCell "B1+1"; "B1" := valueCell (VNum one) ]} [])
           _ "B1+1" _ (reachable_step _ _ fresh 2 "A1" [] (reachable_refl _ _))).
  vm_compute. reflexivity.
Defined.

(** X20. In a session that started fresh [evalCell] never answers [null]
    or [undefined], whatever the raw values and the overrides are: a cell
    without a value reads as the empty text. *)
Theorem evalCell_never_null (this : SheetEvaluator) (st : session) (fuel : nat)
    (ref : string) (stack : list string) (x : jsval) :
  reachable this fresh st ->
  fst (evalCell this fuel ref stack st) = Ok x ->
  x <> VNull /\ x <> VUndefined.
Proof.
  intros Hr Hx. destruct (reachable_fresh this st Hr) as [_ Hc].
  destruct (evalCell_cacheDefined this fuel ref stack st Hc) as [_ H].
  specialize (H x Hx). split; intros ->; discriminate.
Qed.

Lemma evalCell_never_null_witness :
  VStr "" <> VNull /\ VStr "" <> VUndefined.
Proof.
  apply (evalCell_never_null
           (new_SheetEvaluator {[ "A1" := valueCell VUndefined ]} [("B1", VNull)])
           _ 1 "B1" [] _
           (reachable_step _ _ fresh 1 "A1" [] (reachable_refl _ _))).
  vm_compute. reflexivity.
Defined.

(** X21. A formula that does not parse: in a session that started fresh,
    [evalCell] on a cell that has no cached value and whose formula [parse]
    rejects raises the exception of [parse] and leaves the session as it
    was. Nothing is cached, neither a value nor a tree, so the next read of
    the cell parses the formula again and raises again. *)
Theorem evalCell_parse_error (this : SheetEvaluator) (st : session) (fuel : nat)
    (ref src : string) (stack : list string) (msg : string) :
  reachable this fresh st ->
  cache st !! normalizeRef ref = None ->
  includes stack (normalizeRef ref) = false ->
  getCellFormula this (normalizeRef ref) = Some src ->
  src <> "" ->
  parse src = Throw msg ->
  evalCell this (S fuel) ref stack st = (Throw msg, st).
Proof.
  intros Hr Hc Hi Hsrc Hne Hp. destruct (reachable_fresh this st Hr) as [Ha _].
  rewrite (evalCell_formula this ref src) by assumption.
  unfold bind at 1.
  destruct (parseCached_cases src st)
    as [(a & Hs & ->)|[(a & Hs & Hp' & ->)|(m & Hs & Hp' & ->)]].
  - apply Ha in Hs. congruence.
  - congruence.
  - congruence.
Qed.

Lemma evalCell_parse_error_witness :
  let this := new_SheetEvaluator
                {[ "A1" := formulaCell "1+"; "B1" := valueCell (VNum one) ]} [] in
  let st := snd (evalCell this 2 "B1" [] fresh) in
  evalCell this 1 "A1" [] st = (Throw "Unexpected end of formula: 1+", st).
Proof.
  intros this st.
  apply (evalCell_parse_error this st 0 "A1" "1+" [] _
           (reachable_step _ _ fresh 2 "B1" [] (reachable_refl _ _)));
    [reflexivity | reflexivity | reflexivity | discriminate | vm_compute; reflexivity].
Defined.
(** ** [TRIM] *)

Lemma trim_left_starts (s : string) : startsSpace (Str.trim_left s) = false.
Proof.
  unfold Str.trim_left. induction s as [|c s IH]; [reflexivity|]. simpl.
  destruct (Char.isSpace c) eqn:Hc.
  - destruct (Str.span Char.isSpace s). exact IH.
  - simpl. exact Hc.
Qed.

Lemma trim_left_suffix (s : string) :
  exists a, s = a +:+ Str.trim_left s.
Proof.
  unfold Str.trim_left. induction s as [|c s [a IH]]; [now exists ""|]. simpl.
  destruct (Char.isSpace c).
  - destruct (Str.span Char.isSpace s) as [x y]. simpl in *.
    exists (String c a). simpl. now rewrite <- IH.
  - now exists "".
Qed.

Lemma trim_left_fixed (s : string) : startsSpace s = false -> Str.trim_left s = s.
Proof. destruct s as [|c r]; [reflexivity|]. apply trim_left_start. Qed.

Lemma endsSpace_snoc (a : string) (c : ascii) :
  endsSpace (a +:+ String c "") = Char.isSpace c.
Proof.
  induction a as [|x a IH]; [reflexivity|].
  change (String x a +:+ String c "") with (String x (a +:+ String c "")).
  cbn [endsSpace]. destruct a; exact IH.
Qed.

Lemma endsSpace_app (a x : string) :
  x <> "" -> endsSpace (a +:+ x) = endsSpace x.
Proof.
  intros Hx. induction a as [|c a IH]; [reflexivity|].
  change (String c a +:+ x) with (String c (a +:+ x)). cbn [endsSpace].
  destruct (a +:+ x) eqn:E; [|exact IH].
  destruct a; [simpl in E; congruence | discriminate].
Qed.

Lemma rev_app_acc (a acc : string) :
  String.rev_app a acc = String.rev_app a "" +:+ acc.
Proof.
  revert acc. induction a as [|c a IH]; intros acc; simpl; [reflexivity|].
  rewrite IH, (IH (String c "")), append_assoc. reflexivity.
Qed.

Lemma endsSpace_rev (s : string) : endsSpace (String.rev s) = startsSpace s.
Proof.
  destruct s as [|c r]; [reflexivity|]. unfold String.rev. simpl.
  rewrite rev_app_acc. apply endsSpace_snoc.
Qed.

Lemma startsSpace_rev (s : string) : startsSpace (String.rev s) = endsSpace s.
Proof. now rewrite <- endsSpace_rev, rev_involutive. Qed.

Lemma endsSpace_nonempty (s : string) : endsSpace s = true -> s <> "".
Proof. now destruct s. Qed.

Lemma trim_ends (s : string) :
  startsSpace (Str.trim s) = false /\ endsSpace (Str.trim s) = false.
Proof.
  unfold Str.trim. split.
  - rewrite startsSpace_rev.
    destruct (endsSpace (Str.trim_left (String.rev (Str.trim_left s)))) eqn:E;
      [|reflexivity].
    destruct (trim_left_suffix (String.rev (Str.trim_left s))) as [a Ha].
    pose proof (endsSpace_rev (Str.trim_left s)) as H.
    rewrite Ha, endsSpace_app, E, trim_left_starts in H
      by now apply endsSpace_nonempty.
    discriminate.
  - rewrite endsSpace_rev. apply trim_left_starts.
Qed.

Lemma trim_fixed (s : string) :
  startsSpace s = false -> endsSpace s = false -> Str.trim s = s.
Proof.
  intros H1 H2. unfold Str.trim. rewrite (trim_left_fixed s H1).
  rewrite trim_left_fixed by now rewrite startsSpace_rev.
  apply rev_involutive.
Qed.

Lemma collapseSpaces_spaced (s : string) :
  forall prev,
    endsSpace s = false ->
    (prev = true -> startsSpace s = false /\ s <> "") ->
    singleSpaced_from prev (collapseSpaces s) = true.
Proof.
  induction s as [|c r IH]; intros prev He Hp.
  - destruct prev; [|reflexivity]. now destruct (Hp eq_refl).
  - cbn [collapseSpaces]. destruct (Char.isSpace c) eqn:Hc.
    + assert (prev = false) as ->.
      { destruct prev; [|reflexivity]. destruct (Hp eq_refl) as [H _].
        simpl in H. congruence. }
      destruct r as [|d r'].
      * simpl in He. congruence.
      * destruct (Char.isSpace d) eqn:Hd.
        -- apply IH; [exact He | discriminate].
        -- cbn [singleSpaced_from].
           change (Char.isSpace " ") with true. cbv iota.
           change (Char.eqb " " " ") with true. cbn [andb negb].
           apply IH; [exact He|]. intros _. split; [exact Hd | discriminate].
    + cbn [singleSpaced_from]. rewrite Hc. apply IH.
      * destruct r; [reflexivity | exact He].
      * discriminate.
Qed.

Lemma collapseSpaces_starts (s : string) :
  startsSpace s = false -> startsSpace (collapseSpaces s) = false.
Proof.
  destruct s as [|c r]; [reflexivity|]. simpl. intros Hc. rewrite Hc. exact Hc.
Qed.

Lemma singleSpaced_from_ends (s : string) :
  forall prev, singleSpaced_from prev s = true -> endsSpace s = false.
Proof.
  induction s as [|c r IH]; intros prev H; [reflexivity|].
  cbn [singleSpaced_from] in H. cbn [endsSpace].
  destruct (Char.isSpace c) eqn:Hc.
  - apply andb_true_iff in H as [_ H]. destruct r; [discriminate | exact (IH _ H)].
  - destruct r; [reflexivity | exact (IH _ H)].
Qed.

Lemma collapseSpaces_fixed (s : string) :
  forall prev, singleSpaced_from prev s = true -> collapseSpaces s = s.
Proof.
  induction s as [|c r IH]; intros prev H; [reflexivity|].
  cbn [singleSpaced_from] in H. cbn [collapseSpaces].
  destruct (Char.isSpace c) eqn:Hc.
  - apply andb_true_iff in H as [H Hr]. apply andb_true_iff in H as [Hsp _].
    apply Char_eqb_eq in Hsp. subst c.
    destruct r as [|d r']; [discriminate|].
    destruct (Char.isSpace d) eqn:Hd.
    + cbn [singleSpaced_from] in Hr. rewrite Hd in Hr.
      apply andb_true_iff in Hr as [Hr _]. apply andb_true_iff in Hr as [_ Hr].
      discriminate.
    + now rewrite (IH _ Hr).
  - now rewrite (IH _ H).
Qed.

(** X25. [trimExcel], the function behind [TRIM], always returns a text
    without white space at either end in which every white space character
    is a single space between two words; and it returns such a text as it
    is. It is therefore idempotent. *)
Theorem trimExcel_singleSpaced (x : jsval) :
  singleSpaced (trimExcel x) = true /\
  (forall s, singleSpaced s = true -> trimExcel (VStr s) = s) /\
  trimExcel (VStr (trimExcel x)) = trimExcel x.
Proof.
  assert (H1 : forall y, singleSpaced (trimExcel y) = true).
  { intros y. unfold trimExcel, singleSpaced.
    destruct (trim_ends (toText y)) as [Hs He].
    rewrite (collapseSpaces_starts _ Hs). simpl.
    apply collapseSpaces_spaced; [exact He | discriminate]. }
  assert (H2 : forall s, singleSpaced s = true -> trimExcel (VStr s) = s).
  { intros s H. unfold singleSpaced in H. apply andb_true_iff in H as [Hs Hf].
    apply negb_true_iff in Hs. unfold trimExcel. simpl toText.
    rewrite (trim_fixed s Hs (singleSpaced_from_ends s _ Hf)).
    exact (collapseSpaces_fixed s _ Hf). }
  split; [apply H1|]. split; [exact H2|]. apply H2, H1.
Qed.

(** ** Precedence and associativity *)

(** X26. Precedence and associativity of the binary operators. Of two
    operators between three operands, the one that binds tighter -- [*] and
    [/] before [+] and [-], these before [&], and [&] before the
    comparisons -- takes the middle operand; two operators of the same
    level group to the left. *)
Theorem parseExpr_precedence (formula : string) (a b c : token) (o1 o2 : string) :
  isLeafToken a = true -> isLeafToken b = true -> isLeafToken c = true ->
  In o1 binaryOps -> In o2 binaryOps ->
  let tokens := [a; opToken o1; b; opToken o2; c] in
  parseExpr formula (parse_fuel tokens) tokens =
  Ok (if (level o1 <? level o2)%nat
      then Bin o1 (leaf a) (Bin o2 (leaf b) (leaf c))
      else Bin o2 (Bin o1 (leaf a) (leaf b)) (leaf c), []).
Proof.
  intros Ha Hb Hc H1 H2.
  destruct a as [[] va]; try discriminate Ha;
  destruct b as [[] vb]; try discriminate Hb;
  destruct c as [[] vc]; try discriminate Hc;
  clear Ha Hb Hc;
  unfold binaryOps in H1, H2; simpl in H1, H2;
  repeat (destruct H1 as [<-|H1]); try contradiction;
  repeat (destruct H2 as [<-|H2]); try contradiction;
  reflexivity.
Qed.

Lemma parseExpr_precedence_witness :
  parse "1-2*3-4" =
  Ok (Bin "-" (Bin "-" (Num (Num.ofZ 1)) (Bin "*" (Num (Num.ofZ 2)) (Num (Num.ofZ 3))))
        (Num (Num.ofZ 4))) /\
  parseExpr "" 54
    [{| type := TNumber; value := "1" |}; opToken "-";
     {| type := TNumber; value := "2" |}; opToken "*";
     {| type := TNumber; value := "3" |}] =
  Ok (Bin "-" (Num (Num.ofString "1"))
        (Bin "*" (Num (Num.ofString "2")) (Num (Num.ofString "3"))), []).
Proof.
  split; [vm_compute; reflexivity|].
  apply (parseExpr_precedence ""
           {| type := TNumber; value := "1" |} {| type := TNumber; value := "2" |}
           {| type := TNumber; value := "3" |} "-" "*");
    try reflexivity; simpl; tauto.
Defined.

(** ** Coercions of raw values *)

Lemma trim_idem (s : string) : Str.trim (Str.trim s) = Str.trim s.
Proof. destruct (trim_ends s) as [H1 H2]. now apply trim_fixed. Qed.

Lemma ofString_trim (s : string) : Num.ofString (Str.trim s) = Num.ofString s.
Proof. unfold Num.ofString. now rewrite trim_idem. Qed.

(** X27. The value [evalCell] caches for a cell without a formula reads,
    as a number, like the raw value itself: converting a number-like raw
    value with [Number] and reading it with [toNumber] agree, and the
    number is not NaN; a raw value that is not number-like is kept, [null]
    and [undefined] as the empty text, which [toNumber] reads as 0 like
    them. *)
Theorem toNumber_rawOut (x : jsval) :
  toNumber (rawOut x) = toNumber x /\
  (isNumberLike x = true ->
   rawOut x = VNum (toNumber x) /\ Num.isNaN (toNumber x) = false) /\
  (isNumberLike x = false ->
   rawOut x = match x with VNull | VUndefined => VStr "" | _ => x end).
Proof.
  assert (H : isNumberLike x = true ->
              Number_ x = toNumber x /\ Num.isNaN (toNumber x) = false).
  { destruct x as [| | b | n | s | xs]; simpl; try discriminate.
    - intros Hn. split; [reflexivity | now destruct n].
    - rewrite ofString_trim.
      destruct (Str.isEmpty (Str.trim s)); simpl; [discriminate|].
      intros Hn. apply negb_true_iff in Hn. now rewrite Hn. }
  unfold rawOut. destruct (isNumberLike x) eqn:Hx.
  - destruct (H eq_refl) as [H1 H2]. rewrite H1. repeat split; auto. discriminate.
  - split; [now destruct x|]. split; [discriminate | reflexivity].
Qed.
(** ** Doubles that hold an integer *)

Lemma digits2_pos_bounds (p : positive) :
  2 ^ (Z.pos (digits2_pos p) - 1) <= Z.pos p < 2 ^ Z.pos (digits2_pos p).
Proof.
  induction p as [p IH|p IH|]; cbn [digits2_pos]; [| |split; reflexivity || lia].
  - rewrite Pos2Z.inj_succ. change (Z.pos p~1) with (2 * Z.pos p + 1).
    replace (Z.succ (Z.pos (digits2_pos p)) - 1) with (Z.succ (Z.pos (digits2_pos p) - 1))
      by lia.
    rewrite !Z.pow_succ_r by lia.
    destruct IH as [IH1 IH2]. revert IH1 IH2.
    generalize (2 ^ (Z.pos (digits2_pos p) - 1)) (2 ^ Z.pos (digits2_pos p)).
    intros; lia.
  - rewrite Pos2Z.inj_succ. change (Z.pos p~0) with (2 * Z.pos p).
    replace (Z.succ (Z.pos (digits2_pos p)) - 1) with (Z.succ (Z.pos (digits2_pos p) - 1))
      by lia.
    rewrite !Z.pow_succ_r by lia.
    destruct IH as [IH1 IH2]. revert IH1 IH2.
    generalize (2 ^ (Z.pos (digits2_pos p) - 1)) (2 ^ Z.pos (digits2_pos p)).
    intros; lia.
Qed.

Lemma digits2_pos_small (p : positive) : Z.pos p < 2 ^ 53 -> Z.pos (digits2_pos p) <= 53.
Proof.
  intros H. destruct (digits2_pos_bounds p) as [Hlo _].
  destruct (Z.le_gt_cases (Z.pos (digits2_pos p)) 53) as [|Hgt]; [assumption|].
  assert (2 ^ 53 <= 2 ^ (Z.pos (digits2_pos p) - 1)) by (apply Z.pow_le_mono_r; lia).
  lia.
Qed.

Lemma iter_xO (p k : positive) : Z.pos (Pos.iter xO p k) = Z.pos p * 2 ^ Z.pos k.
Proof.
  induction k as [|k IH] using Pos.peano_ind.
  - cbn [Pos.iter]. change (Z.pos p~0) with (2 * Z.pos p). change (2 ^ 1) with 2. lia.
  - rewrite Pos.iter_succ.
    change (Z.pos (Pos.iter xO p k)~0) with (2 * Z.pos (Pos.iter xO p k)).
    rewrite IH, Pos2Z.inj_succ, Z.pow_succ_r by lia. lia.
Qed.

Lemma digits2_iter_xO (p k : positive) :
  digits2_pos (Pos.iter xO p k) = (digits2_pos p + k)%positive.
Proof.
  induction k as [|k IH] using Pos.peano_ind.
  - cbn [Pos.iter digits2_pos]. lia.
  - rewrite Pos.iter_succ. cbn [digits2_pos]. rewrite IH. lia.
Qed.

(** A significand of 53 bits within the range of exponents is kept as it
    is. *)
Lemma binary_round_aux_exact (s : bool) (m : positive) (e : Z) :
  Z.pos (digits2_pos m) = 53 -> -1074 <= e <= 971 ->
  binary_round_aux Num.prec Num.emax s (Z.pos m) e loc_Exact = S754_finite s m e.
Proof.
  intros Hd He. unfold binary_round_aux, shr_fexp, Num.prec, Num.emax.
  cbn [Zdigits2 shr_record_of_loc]. rewrite Hd.
  replace (fexp 53 1024 (53 + e) - e) with 0 by (unfold fexp, emin; lia).
  cbn [shr shr_m loc_of_shr_record round_nearest_even Zdigits2 shr_record_of_loc].
  rewrite Hd.
  replace (fexp 53 1024 (53 + e) - e) with 0 by (unfold fexp, emin; lia).
  cbn [shr shr_m].
  destruct (Z.leb_spec e (1024 - 53)); [reflexivity | lia].
Qed.

Lemma binary_round_small (s : bool) (p : positive) :
  Z.pos p < 2 ^ 53 ->
  binary_round Num.prec Num.emax s p 0 =
  S754_finite s (mantissa p) (Z.pos (digits2_pos p) - 53).
Proof.
  intros Hp. pose proof (digits2_pos_small p Hp) as Hd.
  unfold binary_round, Num.prec, Num.emax.
  replace (fexp 53 1024 (Z.pos (digits2_pos p) + 0)) with (Z.pos (digits2_pos p) - 53)
    by (unfold fexp, emin; lia).
  unfold shl_align, mantissa.
  destruct (Z.pos (digits2_pos p) - 53 - 0) as [|k|k] eqn:E; [|lia|].
  - replace (53 - Z.pos (digits2_pos p)) with 0 by lia.
    rewrite Z.mul_1_r, Pos2Z.id.
    replace (Z.pos (digits2_pos p) - 53) with 0 by lia.
    apply binary_round_aux_exact; lia.
  - replace (53 - Z.pos (digits2_pos p)) with (Z.pos k) by lia.
    rewrite <- iter_xO, Pos2Z.id.
    apply binary_round_aux_exact; [|lia].
    rewrite digits2_iter_xO, Pos2Z.inj_add. lia.
Qed.

Lemma mantissa_pos (p : positive) :
  Z.pos p < 2 ^ 53 ->
  Z.pos (mantissa p) = Z.pos p * 2 ^ (53 - Z.pos (digits2_pos p)).
Proof.
  intros Hp. pose proof (digits2_pos_small p Hp) as Hd. unfold mantissa.
  rewrite Z2Pos.id; [reflexivity|].
  pose proof (Z.pow_pos_nonneg 2 (53 - Z.pos (digits2_pos p))). lia.
Qed.

(** The double of an integer below [2^53] in absolute value. *)
Lemma ofZ_small (z : Z) :
  - 2 ^ 53 < z < 2 ^ 53 ->
  Num.ofZ z =
  match z with
  | Z0 => S754_zero false
  | Z.pos p => S754_finite false (mantissa p) (Z.pos (digits2_pos p) - 53)
  | Z.neg p => S754_finite true (mantissa p) (Z.pos (digits2_pos p) - 53)
  end.
Proof.
  intros Hz. unfold Num.ofZ, binary_normalize. destruct z as [|p|p]; [reflexivity| |].
  - apply binary_round_small. lia.
  - apply binary_round_small. lia.
Qed.

Lemma ofZ_not_NaN (z : Z) : - 2 ^ 53 < z < 2 ^ 53 -> Num.isNaN (Num.ofZ z) = false.
Proof. intros Hz. rewrite ofZ_small by exact Hz. now destruct z. Qed.

Lemma ofZ_finite (z : Z) : - 2 ^ 53 < z < 2 ^ 53 -> Num.isFinite (Num.ofZ z) = true.
Proof. intros Hz. rewrite ofZ_small by exact Hz. now destruct z. Qed.

(** Doubles of positive integers compare like the integers: first by the
    number of bits, then by the significands. *)
Lemma canonical_compare (a b : positive) :
  Z.pos a < 2 ^ 53 -> Z.pos b < 2 ^ 53 ->
  match Z.pos (digits2_pos a) - 53 ?= Z.pos (digits2_pos b) - 53 with
  | Lt => Lt
  | Gt => Gt
  | Eq => Pos.compare_cont Eq (mantissa a) (mantissa b)
  end = (Z.pos a ?= Z.pos b).
Proof.
  intros Ha Hb.
  destruct (digits2_pos_bounds a) as [Hal Hah].
  destruct (digits2_pos_bounds b) as [Hbl Hbh].
  destruct (Z.compare_spec (Z.pos (digits2_pos a) - 53) (Z.pos (digits2_pos b) - 53))
    as [He|He|He].
  - change (Pos.compare_cont Eq (mantissa a) (mantissa b))
      with (Z.pos (mantissa a) ?= Z.pos (mantissa b)).
    rewrite !mantissa_pos by assumption.
    replace (Z.pos (digits2_pos b)) with (Z.pos (digits2_pos a)) by lia.
    pose proof (digits2_pos_small a Ha).
    assert (HP : 0 < 2 ^ (53 - Z.pos (digits2_pos a))) by (apply Z.pow_pos_nonneg; lia).
    destruct (Z.compare_spec (Z.pos a) (Z.pos b)) as [Hab|Hab|Hab].
    + rewrite Hab. apply Z.compare_refl.
    + apply Z.compare_lt_iff. nia.
    + apply Z.compare_gt_iff. nia.
  - symmetry. apply Z.compare_lt_iff.
    assert (2 ^ Z.pos (digits2_pos a) <= 2 ^ (Z.pos (digits2_pos b) - 1))
      by (apply Z.pow_le_mono_r; lia).
    lia.
  - symmetry. apply Z.compare_gt_iff.
    assert (2 ^ Z.pos (digits2_pos b) <= 2 ^ (Z.pos (digits2_pos a) - 1))
      by (apply Z.pow_le_mono_r; lia).
    lia.
Qed.

Lemma ofZ_compare (a b : Z) :
  - 2 ^ 53 < a < 2 ^ 53 -> - 2 ^ 53 < b < 2 ^ 53 ->
  SFcompare (Num.ofZ a) (Num.ofZ b) = Some (a ?= b).
Proof.
  intros Ha Hb. rewrite !ofZ_small by assumption.
  destruct a as [|a|a], b as [|b|b]; try reflexivity.
  - cbn [SFcompare]. f_equal. apply canonical_compare; lia.
  - cbn [SFcompare]. f_equal.
    change (Z.neg a ?= Z.neg b) with (CompOpp (Z.pos a ?= Z.pos b)).
    rewrite <- canonical_compare by lia.
    now destruct (Z.pos (digits2_pos a) - 53 ?= Z.pos (digits2_pos b) - 53).
Qed.



Lemma ofZ_eqb (a b : Z) :
  - 2 ^ 53 < a < 2 ^ 53 -> - 2 ^ 53 < b < 2 ^ 53 ->
  Num.eqb (Num.ofZ a) (Num.ofZ b) = (a =? b).
Proof.
  intros Ha Hb. unfold Num.eqb, SFeqb. rewrite ofZ_compare by assumption.
  destruct (Z.eqb_spec a b) as [->|Hne]; [now rewrite Z.compare_refl|].
  destruct (Z.compare_spec a b); [contradiction | reflexivity | reflexivity].
Qed.

(** *** Numerals *)

Lemma isDigit_not_isSpace (c : ascii) : Char.isDigit c = true -> Char.isSpace c = false.
Proof. unfold Char.isDigit, Char.isSpace. lia. Qed.

Lemma digits_endsSpace (s : string) :
  Str.forallb Char.isDigit s = true -> endsSpace s = false.
Proof.
  induction s as [|c s IH]; [reflexivity|]. simpl. intros H.
  apply andb_true_iff in H as [Hc Hs]. destruct s; [|now apply IH].
  now apply isDigit_not_isSpace.
Qed.

Lemma digits_trim (s : string) : Str.forallb Char.isDigit s = true -> Str.trim s = s.
Proof.
  intros H. apply trim_fixed; [|now apply digits_endsSpace].
  destruct s as [|c s]; [reflexivity|]. simpl in *.
  apply andb_true_iff in H as [Hc _]. now apply isDigit_not_isSpace.
Qed.

Lemma nonDecimal_digits (s : string) :
  Str.forallb Char.isDigit s = true -> Num.nonDecimal s = None.
Proof.
  intros H. destruct s as [|a [|p [|c r]]]; [reflexivity| | |].
  - destruct a as [[] [] [] [] [] [] [] []]; reflexivity.
  - destruct a as [[] [] [] [] [] [] [] []]; reflexivity.
  - simpl in H. apply andb_true_iff in H as [_ H]. apply andb_true_iff in H as [Hp _].
    assert (Hx : forall x, Char.isDigit x = false -> Char.eqb p x = false).
    { intros x Hx. destruct (Char.eqb p x) eqn:E; [|reflexivity].
      apply Char_eqb_eq in E. congruence. }
    destruct a as [[] [] [] [] [] [] [] []]; try reflexivity.
    cbn [Num.nonDecimal]. now rewrite !Hx by reflexivity.
Qed.

Lemma sign_digit (c : ascii) (r : string) :
  Char.isDigit c = true -> Num.sign (String c r) = (false, String c r).
Proof.
  intros H. destruct c as [[] [] [] [] [] [] [] []]; try reflexivity; discriminate H.
Qed.

(** [Number] reads the decimal numeral of [z] as the double nearest to
    [z]. *)
Lemma ofString_numeral (z : Z) : 0 <= z -> Num.ofString (Z_toString z) = Num.ofZ z.
Proof.
  intros Hz. destruct (Z_toString_row z Hz) as (Hd & Hne & Hback).
  unfold Num.ofString. rewrite digits_trim by exact Hd.
  apply isEmpty_false in Hne as Hne'. rewrite Hne', nonDecimal_digits by exact Hd.
  unfold Num.strDecimal.
  destruct (Z_toString z) as [|c r] eqn:Es; [congruence|].
  rewrite sign_digit by (simpl in Hd; now apply andb_true_iff in Hd as [Hc _]).
  destruct (String.eqb (String c r) "Infinity") eqn:Ei.
  { apply String.eqb_eq in Ei. rewrite Ei in Hd. discriminate Hd. }
  rewrite (span_all _ _ Hd). cbn [Str.isEmpty andb Num.exponentPart String.length].
  rewrite append_nil_r, Hback.
  destruct (Z.eqb_spec z 0) as [->|Hz0]; [reflexivity|].
  cbn [Z.of_nat Z.sub Z.ltb Z.compare]. 
  unfold Num.ofDecimal. apply Z.eqb_neq in Hz0. rewrite Hz0.
  cbn [Z.leb Z.compare cond_Zopp]. change (10 ^ 0) with 1. now rewrite Z.mul_1_r.
Qed.


(** ** Comparisons *)

(** ** The overrides *)

Lemma normalizeOverrides_snoc (entries : list (string * jsval)) (kv : string * jsval) :
  normalizeOverrides (entries ++ [kv]) =
  <[normalizeRef (fst kv) := snd kv]> (normalizeOverrides entries).
Proof. unfold normalizeOverrides. now rewrite fold_left_app. Qed.

Lemma normalizeOverrides_lookup (entries : list (string * jsval)) (key : string) :
  normalizeOverrides entries !! key = overrideFor entries key.
Proof.
  induction entries as [|kv entries IH] using rev_ind.
  - unfold normalizeOverrides, overrideFor. simpl. apply lookup_empty.
  - rewrite normalizeOverrides_snoc. unfold overrideFor in *.
    rewrite List.filter_app. cbn [List.filter].
    destruct (String.eqb (normalizeRef (fst kv)) key) eqn:Hk.
    + apply String.eqb_eq in Hk. subst key.
      rewrite lookup_insert_eq, last_snoc. reflexivity.
    + apply String.eqb_neq in Hk.
      rewrite lookup_insert_ne by exact Hk. now rewrite app_nil_r.
Qed.

Lemma overrideFor_Some (entries : list (string * jsval)) (key : string) (o : jsval) :
  overrideFor entries key = Some o ->
  exists k, In (k, o) entries /\ normalizeRef k = key.
Proof.
  unfold overrideFor. intros H.
  destruct (last (List.filter _ entries)) as [[k o']|] eqn:Hl; [|discriminate].
  injection H as ->. exists k.
  apply last_Some in Hl as [l' Hl].
  assert (Hin : In (k, o) (List.filter
            (fun kv => String.eqb (normalizeRef (fst kv)) key) entries)).
  { rewrite Hl. apply in_or_app. right. now left. }
  apply filter_In in Hin as [Hin Hk]. split; [exact Hin|].
  now apply String.eqb_eq in Hk.
Qed.

(** X22. The constructor keeps, for every normalized key, the value of the
    last entry of the given overrides whose key normalizes to it, and
    nothing else: every key of [this.overrides] is normalized and comes from
    an entry. [getCellRaw] therefore finds an override under any spelling
    of its reference. When no entry normalizes to the reference it reads
    the cell table, under the normalized reference first and under the
    reference as it is spelt next; when the table has neither, the answer
    is [null], unless the reference is a name every object inherits
    ("constructor", "toString", ...), which the table answers with a
    function that has no [v]: the answer is then [undefined]. *)
Theorem constructor_overrides (sheetCells : gmap string cellrec)
    (entries : list (string * jsval)) (ref : string) :
  let this := new_SheetEvaluator sheetCells entries in
  (forall key, overrides this !! key = overrideFor entries key) /\
  (forall key o, overrides this !! key = Some o ->
     normalizeRef key = key /\ exists k, In (k, o) entries /\ normalizeRef k = key) /\
  getCellRaw this ref =
    match overrideFor entries (normalizeRef ref) with
    | Some o => o
    | None =>
        match sheetCells !! normalizeRef ref with
        | Some c => v c
        | None =>
            match sheetCells !! ref with
            | Some c => v c
            | None =>
                if existsb (String.eqb ref) inheritedNames then VUndefined else VNull
            end
        end
    end /\
  getCellRaw (new_SheetEvaluator ∅ [("$a$1", VStr "x"); ("A1", VStr "y")]) "a1" = VStr "y" /\
  getCellRaw (new_SheetEvaluator {[ "A1" := valueCell (VStr "t") ]} [("B1", VStr "x")]) "$a1"
    = VStr "t" /\
  getCellRaw (new_SheetEvaluator {[ "a1" := valueCell (VStr "t") ]} []) "a1" = VStr "t" /\
  getCellRaw (new_SheetEvaluator {[ "a1" := valueCell (VStr "t") ]} []) "A1" = VNull /\
  getCellRaw (new_SheetEvaluator ∅ []) "constructor" = VUndefined /\
  getCellRaw (new_SheetEvaluator ∅ []) "CONSTRUCTOR" = VNull.
Proof.
  intros this. split; [|split; [|split]].
  - intros key. apply normalizeOverrides_lookup.
  - intros key o Ho. simpl in Ho. rewrite normalizeOverrides_lookup in Ho.
    destruct (overrideFor_Some _ _ _ Ho) as (k & Hin & Hk).
    split; [|eauto]. rewrite <- Hk. apply normalizeRef_idem.
  - unfold getCellRaw, this. cbn [overrides new_SheetEvaluator].
    rewrite normalizeOverrides_lookup.
    destruct (overrideFor entries (normalizeRef ref)); [reflexivity|].
    unfold lookupCell. rewrite cellAt_normalized. cbn [cells new_SheetEvaluator].
    destruct (sheetCells !! normalizeRef ref); [reflexivity|].
    unfold cellAt. cbn [cells new_SheetEvaluator].
    destruct (sheetCells !! ref); [reflexivity|].
    now destruct (existsb (String.eqb ref) inheritedNames).
  - repeat split; vm_compute; reflexivity.
Qed.

Lemma normalizeOverrides_list_to_map (entries : list (string * jsval)) :
  NoDup (entries.*1) ->
  (forall k o, In (k, o) entries -> normalizeRef k = k) ->
  normalizeOverrides entries = list_to_map entries.
Proof.
  intros Hnd Hk. apply map_eq. intros key.
  induction entries as [|[k o] entries IH] using rev_ind.
  - reflexivity.
  - rewrite normalizeOverrides_snoc. simpl.
    assert (Heq : (list_to_map (entries ++ [(k, o)]) : gmap string jsval) =
                  list_to_map ((k, o) :: entries)).
    { apply list_to_map_proper; [exact Hnd|].
      symmetry. apply Permutation_cons_append. }
    rewrite Heq. clear Heq.
    rewrite fmap_app in Hnd. apply NoDup_app in Hnd as (Hnd1 & _ & _).
    rewrite (Hk k o) by (apply in_or_app; right; now left).
    simpl. destruct (decide (key = k)) as [->|Hne].
    + now rewrite !lookup_insert_eq.
    + rewrite !lookup_insert_ne by congruence.
      apply IH; [exact Hnd1|]. intros k' o' Hin. apply (Hk k' o').
      apply in_or_app. now left.
Qed.

Lemma normalizeOverrides_entries (m : gmap string jsval)
    (entries : list (string * jsval)) :
  keysNormalized m -> entries ≡ₚ map_to_list m ->
  normalizeOverrides entries = m.
Proof.
  intros Hm Hp.
  assert (Hnd : NoDup (entries.*1)).
  { rewrite Hp. apply NoDup_fst_map_to_list. }
  rewrite normalizeOverrides_list_to_map.
  - transitivity (list_to_map (map_to_list m) : gmap string jsval);
      [now apply list_to_map_proper | apply list_to_map_to_list].
  - exact Hnd.
  - intros k o Hin. apply (Hm k o). apply elem_of_map_to_list.
    rewrite <- Hp. now apply list_elem_of_In.
Qed.

Lemma parseUserInput_cases (raw : option string) (type : string) :
  parseUserInput raw type = VStr "" \/
  (exists n, parseUserInput raw type = VNum n /\ Num.isNaN n = false /\ type = "number") \/
  (exists s, parseUserInput raw type = VStr s /\ s <> "" /\ raw = Some s /\ type <> "number").
Proof.
  unfold parseUserInput. destruct (String.eqb type "number") eqn:Ht.
  - apply String.eqb_eq in Ht.
    destruct (Str.isEmpty (Str.trim (default "" raw))); [now left|].
    destruct (Num.isNaN (Num.ofString (Str.trim (default "" raw)))) eqn:Hn; [now left|].
    right. left. eauto.
  - apply String.eqb_neq in Ht. destruct raw as [s|]; [|now left].
    destruct s as [|c s]; [now left|]. right. right. simpl. eexists. eauto.
Qed.

Lemma onChange_lookup (stored : gmap string jsval) (cell : string) (value : jsval) :
  (forall k, k <> cell -> onChange stored cell value !! k = stored !! k) /\
  onChange stored cell value !! cell =
    match value with
    | VStr EmptyString | VNull | VUndefined => None
    | _ => Some value
    end.
Proof.
  unfold onChange. split.
  - intros k Hk.
    destruct value as [| | | |[|c s]|]; 
      rewrite ?lookup_delete_ne by congruence; now rewrite lookup_insert_ne by congruence.
  - destruct value as [| | | |[|c s]|];
      rewrite ?lookup_delete_eq, ?lookup_insert_eq; reflexivity.
Qed.

Lemma parseUserInput_blank (raw : option string) :
  Str.forallb Char.isSpace (default "" raw) = true ->
  parseUserInput raw "number" = VStr "".
Proof. intros H. unfold parseUserInput. cbn [String.eqb Ascii.eqb Bool.eqb]. now rewrite trim_blank. Qed.

Lemma parseUserInput_numeral (raw : option string) (z : Z) :
  0 <= z < 2 ^ 53 -> Str.trim (default "" raw) = Z_toString z ->
  parseUserInput raw "number" = VNum (Num.ofZ z).
Proof.
  intros Hz Hs. unfold parseUserInput. cbn [String.eqb Ascii.eqb Bool.eqb]. rewrite Hs.
  destruct (Z_toString_row z (proj1 Hz)) as (_ & Hne & _).
  apply isEmpty_false in Hne. rewrite Hne, ofString_numeral by lia.
  rewrite ofZ_not_NaN; [reflexivity|]. pose proof (Z.pow_pos_nonneg 2 53). lia.
Qed.

Lemma parseUserInput_number (raw : option string) :
  Str.trim (default "" raw) <> "" ->
  parseUserInput raw "number" =
  if Num.isNaN (Num.ofString (default "" raw)) then VStr ""
  else VNum (Num.ofString (default "" raw)).
Proof.
  intros Hne. unfold parseUserInput. cbn [String.eqb Ascii.eqb Bool.eqb].
  apply isEmpty_false in Hne. now rewrite Hne, ofString_trim.
Qed.

(** X23. What an edit of an input field stores. The overrides of the other
    cells are kept as they were. In a field of type number, a text that is
    blank (empty, or white space only) removes the override of the cell;
    the decimal numeral of a natural number below [2^53], with white space
    around it or not, stores that number; any other text stores the number
    [Number] reads in it, and removes the override when that is NaN: "12x"
    and "abc" remove it, "1.5", "-3" and "1e3" store 1.5, -3 and 1000. A
    field of another type stores its text as it is, white space included,
    and removes the override when the text is empty or absent. Keys stay
    normalized. *)
Theorem onChange_parseUserInput (stored : gmap string jsval) (cell : string)
    (raw : option string) (type : string) :
  let text := default "" raw in
  let value := parseUserInput raw type in
  let next := onChange stored cell value in
  (forall k, k <> cell -> next !! k = stored !! k) /\
  (type = "number" ->
     (Str.forallb Char.isSpace text = true -> next !! cell = None) /\
     (forall z, 0 <= z < 2 ^ 53 -> Str.trim text = Z_toString z ->
        next !! cell = Some (VNum (Num.ofZ z))) /\
     (Str.trim text <> "" ->
        next !! cell =
        if Num.isNaN (Num.ofString text) then None else Some (VNum (Num.ofString text)))) /\
  (type <> "number" ->
   next !! cell = match raw with Some (String c s) => Some (VStr (String c s)) | _ => None end) /\
  (keysNormalized stored -> normalizeRef cell = cell -> keysNormalized next) /\
  (let edit (typed : string) :=
     onChange {[ "B2" := VStr "old" ]} "B2" (parseUserInput (Some typed) "number") !! "B2" in
   edit "" = None /\ edit "  " = None /\ edit "abc" = None /\ edit "12x" = None /\
   edit " 42 " = Some (VNum (Num.ofZ 42)) /\ edit "0" = Some (VNum (Num.ofZ 0)) /\
   edit "-3" = Some (VNum (Num.ofZ (-3))) /\ edit "1e3" = Some (VNum (Num.ofZ 1000)) /\
   edit "1.5" = Some (VNum (Num.div (Num.ofZ 3) (Num.ofZ 2)))) /\
  onChange {[ "B2" := VStr "old" ]} "B2" (parseUserInput (Some " 42 ") "text") !! "B2"
    = Some (VStr " 42 ").
Proof.
  intros text value next.
  destruct (onChange_lookup stored cell value) as [Hother Hcell].
  fold next in Hother, Hcell.
  split; [exact Hother|]. split; [|split; [|split; [|split]]].
  - intros ->. split; [|split].
    + intros Hb. rewrite Hcell. unfold value. now rewrite parseUserInput_blank.
    + intros z Hz Hs. rewrite Hcell. unfold value.
      now rewrite (parseUserInput_numeral raw z Hz Hs).
    + intros Hne. rewrite Hcell. unfold value.
      rewrite (parseUserInput_number raw Hne). fold text.
      now destruct (Num.isNaN (Num.ofString text)).
  - intros Ht. rewrite Hcell. unfold value, parseUserInput.
    apply String.eqb_neq in Ht. rewrite Ht.
    destruct raw as [[|c s]|]; reflexivity.
  - intros Hst Hc k o Hk. destruct (decide (k = cell)) as [->|Hne]; [exact Hc|].
    rewrite Hother in Hk by exact Hne. exact (Hst k o Hk).
  - cbv zeta. repeat split; vm_compute; reflexivity.
  - vm_compute. reflexivity.
Qed.

Lemma rawOut_number (n : spec_float) : rawOut (VNum n) = VNum n.
Proof. unfold rawOut. simpl. now destruct (Num.isFinite n). Qed.

Lemma rawOut_numeral (s : string) (z : Z) :
  0 <= z < 2 ^ 53 -> Str.trim s = Z_toString z -> rawOut (VStr s) = VNum (Num.ofZ z).
Proof.
  intros Hz Hs.
  assert (Hn : Num.ofString s = Num.ofZ z)
    by (rewrite <- ofString_trim, Hs; apply ofString_numeral; lia).
  assert (Hnan : Num.isNaN (Num.ofZ z) = false)
    by (apply ofZ_not_NaN; pose proof (Z.pow_pos_nonneg 2 53); lia).
  destruct (Z_toString_row z (proj1 Hz)) as (_ & Hne & _).
  apply isEmpty_false in Hne.
  unfold rawOut, isNumberLike, Number_. now rewrite Hs, Hne, Hn, Hnan.
Qed.

(** X24. From the input field to the grid. Let the stored overrides have
    normalized keys and let the evaluator be built from the overrides an
    edit of [cell] produces, its entries in any order. For a cell without a
    formula [evalCell] then answers: the number [z] when the decimal
    numeral of a natural number [z] below [2^53] is typed, with white space
    around it or not, in a field of any type; the value of the cell table,
    read as [evalCell] reads raw values, when a number field is left blank
    or holds a text [Number] reads as NaN, and when a field of another
    type is left empty: clearing a field goes back to the template; in
    every other case the number [Number] reads in a number field, and the
    text of a field of another type, turned into a number when it looks
    like one. The overrides of the other cells reach the evaluator
    unchanged. *)
Theorem edit_then_evalCell (sheetCells : gmap string cellrec)
    (stored : gmap string jsval) (cell : string) (raw : option string)
    (type : string) (entries : list (string * jsval)) (fuel : nat) :
  keysNormalized stored ->
  normalizeRef cell = cell ->
  entries ≡ₚ map_to_list (onChange stored cell (parseUserInput raw type)) ->
  let this := new_SheetEvaluator sheetCells entries in
  let template := match sheetCells !! cell with Some c => v c | None => VNull end in
  let text := default "" raw in
  let answer := fst (evalCell this (S fuel) cell [] fresh) in
  noFormula (getCellFormula this cell) = true ->
  (forall z, 0 <= z < 2 ^ 53 -> Str.trim text = Z_toString z ->
     answer = Ok (VNum (Num.ofZ z))) /\
  (type = "number" ->
     (Str.forallb Char.isSpace text = true -> answer = Ok (rawOut template)) /\
     (Str.trim text <> "" ->
        answer = Ok (if Num.isNaN (Num.ofString text) then rawOut template
                     else VNum (Num.ofString text)))) /\
  (type <> "number" ->
     answer = Ok (if Str.isEmpty text then rawOut template else rawOut (VStr text))) /\
  (forall k, k <> cell -> overrides this !! k = stored !! k).
Proof.
  intros Hst Hc Hp this template text answer Hf.
  set (value := parseUserInput raw type) in *.
  destruct (onChange_lookup stored cell value) as [Hother Hcell].
  assert (Hn : keysNormalized (onChange stored cell value)).
  { intros k o Hk. destruct (decide (k = cell)) as [->|Hne]; [exact Hc|].
    rewrite Hother in Hk by exact Hne. exact (Hst k o Hk). }
  assert (Hov : overrides this = onChange stored cell value)
    by exact (normalizeOverrides_entries _ _ Hn Hp).
  assert (Hans : answer =
                 Ok (rawOut (match value with
                             | VStr EmptyString | VNull | VUndefined => template
                             | _ => value
                             end))).
  { unfold answer.
    rewrite evalCell_raw; [|reflexivity|reflexivity|now rewrite Hc].
    simpl fst. f_equal. rewrite Hc.
    pose proof (getCellRaw_normalized this cell) as Hg. rewrite Hc, Hov, Hcell in Hg.
    rewrite Hg. fold template. now destruct value as [| | | |[|c s]|]. }
  assert (Hnum : type = "number" ->
                 (Str.forallb Char.isSpace text = true -> answer = Ok (rawOut template)) /\
                 (Str.trim text <> "" ->
                  answer = Ok (if Num.isNaN (Num.ofString text) then rawOut template
                               else VNum (Num.ofString text)))).
  { intros Ht. split.
    - intros Hb. rewrite Hans. unfold value. rewrite Ht.
      now rewrite parseUserInput_blank.
    - intros Hne. rewrite Hans. unfold value. rewrite Ht.
      rewrite (parseUserInput_number raw Hne). fold text.
      destruct (Num.isNaN (Num.ofString text)); [reflexivity|].
      now rewrite rawOut_number. }
  assert (Htext : type <> "number" ->
                  answer = Ok (if Str.isEmpty text then rawOut template
                               else rawOut (VStr text))).
  { intros Ht. rewrite Hans. unfold value, parseUserInput.
    apply String.eqb_neq in Ht. rewrite Ht. fold text.
    now destruct text. }
  split; [|split; [exact Hnum|split; [exact Htext|]]].
  - intros z Hz Hs.
    destruct (Z_toString_row z (proj1 Hz)) as (_ & Hne & _).
    destruct (String.eqb_spec type "number") as [Ht|Ht].
    + rewrite Hans. unfold value. rewrite Ht.
      rewrite (parseUserInput_numeral raw z Hz Hs). now rewrite rawOut_number.
    + rewrite (Htext Ht).
      destruct text as [|c t] eqn:Et.
      { exfalso. apply Hne. rewrite <- Hs. reflexivity. }
      cbn [Str.isEmpty]. now rewrite (rawOut_numeral _ z Hz Hs).
  - intros k Hk. rewrite Hov. now apply Hother.
Qed.

Lemma edit_then_evalCell_witness :
  let sheetCells : gmap string cellrec :=
    {[ "A1" := valueCell (VNum (Num.ofZ 600)); "B1" := formulaCell "A1*2" ]} in
  fst (evalCell (new_SheetEvaluator sheetCells [("C1", VStr "x"); ("A1", VNum (Num.ofZ 450))])
         1 "A1" [] fresh) = Ok (VNum (Num.ofZ 450)).
Proof.
  intros sheetCells.
  assert (Hst : keysNormalized ({[ "A1" := VNum (Num.ofZ 7); "C1" := VStr "x" ]}
                                : gmap string jsval)).
  { intros k o Hk. apply lookup_insert_Some in Hk as [[<- _]|[_ Hk]]; [reflexivity|].
    apply lookup_singleton_Some in Hk as [<- _]. reflexivity. }
  assert (Hz : 0 <= 450 < 2 ^ 53) by (rewrite pow2_53; lia).
  refine (proj1 (edit_then_evalCell sheetCells
                   {[ "A1" := VNum (Num.ofZ 7); "C1" := VStr "x" ]} "A1"
                   (Some " 450 ") "number"
                   [("C1", VStr "x"); ("A1", VNum (Num.ofZ 450))] 0 Hst eq_refl _ _)
            450 Hz _).
  - vm_compute. apply Permutation_refl || (apply perm_swap) || reflexivity.
  - vm_compute. reflexivity.
  - vm_compute. reflexivity.
Defined.
